(** * Playback state engine of the ambient-sound mixer

    A shallow embedding of [src/lib/AudioStateManager.ts] (the reducer, the
    crossfade looping of a track, the countdown coordinator and the session
    manager) and of the wrappers of the state provider.

    Conventions of the embedding

    - A JavaScript [number] holding a gain is an IEEE-754 binary64 value:
      Rocq's primitive [float], whose operations the kernel evaluates the way
      the JavaScript engine does.  Times in milliseconds ([Date.now()], the
      timer fields) are integers and are kept in [Z].
    - An [HTMLAudioElement] is a mutable object with an identity.  The
      elements live in a store ([audios], a list indexed by handle); an
      [ActiveSound] holds the handle.  [new Audio(..)] allocates at the end
      of the store, [===] on elements is equality of handles.
    - [audio.play()] is the request to play: it clears [paused].  The promise
      it returns, the retries hung on its rejection and the
      [canplaythrough] listener that repeats the request are outside the
      model, as is the console.  [audio.pause()] sets [paused].
    - The [src] of an element is the string assigned to it.  A browser
      reads [audio.src] back resolved against the address of the page, so
      what it reads is not empty even after [audio.src = ""]; for an element
      whose assigned source is not empty the two agree on truthiness, and
      what playing does to an element is stated for such elements.
    - [audio.volume = x] takes a number from 0 to 1 ([gain_ok]).  For any
      other number the assignment throws: the reducer does not return,
      [dispatch] leaves the state and the storage as they were, and the
      [try] of [loadSavedState] ends the restore.  The embedding has no such
      path; a statement that depends on an assignment going through asks
      for the gains assigned to be in range ([in_range],
      [restore_in_range]).
    - A JavaScript object used as a record of sound states keeps its keys in
      insertion order, which [Object.keys] and [Object.entries] expose; it
      is an association list with the object's semantics for reading,
      writing and deleting.  (Sound ids are names; a key that is a canonical
      array index would be listed first by JavaScript.)
    - The reducer reads and changes the browser, so it takes it and returns
      it: the audio elements, the two items of the local storage, the live
      intervals and the clock that [Date.now()] reads. *)

From Stdlib Require Import String Ascii List ZArith Bool Lia Floats DecimalString.
From stdpp Require Import base list.
Import ListNotations.

Local Open Scope string_scope.
Local Open Scope list_scope.
Set Warnings "-inexact-float".

(** ** JavaScript values *)

(** Truthiness of a number: [0], [-0] and [NaN] are falsy. *)
Definition truthy (x : float) : bool :=
  negb (PrimFloat.is_zero x) && negb (PrimFloat.is_nan x).

(** Truthiness of a string: the empty string is falsy. *)
Definition truthy_str (s : string) : bool :=
  match s with EmptyString => false | _ => true end.

(** [hay.includes(needle)] *)
Definition includes (hay needle : string) : bool :=
  match String.index 0 needle hay with Some _ => true | None => false end.

(** ** Objects used as maps: [Record<string, V>] *)

Section Obj.
Context {V : Type}.

(** [o[k]] *)
Fixpoint obj_get (o : list (string * V)) (k : string) : option V :=
  match o with
  | [] => None
  | (k', v) :: o' => if String.eqb k' k then Some v else obj_get o' k
  end.

(** [o[k] = v]: an existing key keeps its place, a new key goes last. *)
Fixpoint obj_set (o : list (string * V)) (k : string) (v : V) : list (string * V) :=
  match o with
  | [] => [(k, v)]
  | (k', v') :: o' =>
      if String.eqb k' k then (k', v) :: o' else (k', v') :: obj_set o' k v
  end.

(** [delete o[k]] *)
Fixpoint obj_delete (o : list (string * V)) (k : string) : list (string * V) :=
  match o with
  | [] => []
  | (k', v') :: o' =>
      if String.eqb k' k then obj_delete o' k else (k', v') :: obj_delete o' k
  end.

(** [k in o], and [m.has(k)] of a [Map] *)
Definition obj_has (o : list (string * V)) (k : string) : bool :=
  match obj_get o k with Some _ => true | None => false end.

(** [Object.keys(o)] *)
Definition obj_keys (o : list (string * V)) : list string := map fst o.

(** [Object.keys(o).forEach(key => o[key] = f(o[key]))] *)
Definition obj_map (f : V -> V) (o : list (string * V)) : list (string * V) :=
  map (fun kv => (fst kv, f (snd kv))) o.

End Obj.

(** ** Types of the source *)

Inductive TimerOption : Set :=
| T5min | T15min | T30min | T45min | T60min | T75min | T90min | Tendless.

(** [Sound] is declared in [@/data/sounds]; the fields the engine reads. *)
Module Sound.
Record t : Set := mk { id : string; name : string; audioSrc : string }.
End Sound.

(** The closure of the listeners [attachCrossfadeListener] hangs on an
    element: the arguments the call was made with. *)
Module Listener.
Record t : Set := mk { sound : Sound.t; volume : float; masterVolume : float }.
End Listener.

Module HTMLAudioElement.
Record t : Set := mk {
  src : string;
  volume : float;
  paused : bool;
  loop : bool;
  preload : string;
  crossfadeTriggered : bool;        (* the custom property _crossfadeTriggered *)
  listener : option Listener.t      (* the error and timeupdate listeners *)
}.

Definition set_src (s : string) (a : t) : t :=
  mk s (volume a) (paused a) (loop a) (preload a) (crossfadeTriggered a) (listener a).
Definition set_volume (v : float) (a : t) : t :=
  mk (src a) v (paused a) (loop a) (preload a) (crossfadeTriggered a) (listener a).
Definition set_paused (p : bool) (a : t) : t :=
  mk (src a) (volume a) p (loop a) (preload a) (crossfadeTriggered a) (listener a).
Definition set_crossfadeTriggered (b : bool) (a : t) : t :=
  mk (src a) (volume a) (paused a) (loop a) (preload a) b (listener a).

(** [audio.pause()], [audio.play()] and the release [pause(); src = ""] *)
Definition pause : t -> t := set_paused true.
Definition play : t -> t := set_paused false.
Definition release (a : t) : t := set_src "" (pause a).
End HTMLAudioElement.

(** Handle of an element in the store. *)
Abbreviation audio_ref := nat.

Module ActiveSound.
Record t : Set := mk { sound : Sound.t; audio : audio_ref; volume : float }.
Definition set_volume (v : float) (a : t) : t := mk (sound a) (audio a) v.
Definition set_audio (h : audio_ref) (a : t) : t := mk (sound a) h (volume a).
End ActiveSound.

(** [isPlaying] is absent from an entry that [SET_VOLUME] created. *)
Module SoundState.
Record t : Set := mk { volume : float; isPlaying : option bool }.
Definition set_volume (v : float) (s : t) : t := mk v (isPlaying s).
Definition set_isPlaying (b : bool) (s : t) : t := mk (volume s) (Some b).
End SoundState.

Definition SoundStates := list (string * SoundState.t).

Module MixSound.
Record t : Set := mk { id : string; volume : float }.
End MixSound.

Record SoundMix : Set := mkSoundMix {
  mix_name : string;
  mix_description : string;
  mix_sounds : list MixSound.t
}.

Record AudioState : Set := mkAudioState {
  activeSounds : list ActiveSound.t;
  masterVolume : float;
  isPlaying : bool;
  timer : TimerOption;
  timeRemaining : option Z;
  timerEndTime : option Z;
  soundStates : SoundStates
}.

Inductive AudioAction : Set :=
| TOGGLE_SOUND (sound : Sound.t)
| SET_VOLUME (soundId : string) (volume : float)
| SET_MASTER_VOLUME (volume : float)
| TOGGLE_PLAY_PAUSE
| SET_TIMER (timer : TimerOption)
| CANCEL_TIMER
| UPDATE_TIMER (timeRemaining : option Z)
| PAUSE_ALL_SOUNDS
| PLAY_ALL_SOUNDS
| APPLY_MIX (mix : SoundMix)
| SAVE_CUSTOM_MIX (mix : SoundMix)
| INITIALIZE_STATE (savedState : SoundStates).

Definition MAX_CONCURRENT_SOUNDS : nat := 3.

Definition initialAudioState : AudioState :=
  mkAudioState [] 0.7%float false Tendless None None [].

(** ** The browser: audio elements, local storage, interval timers, clock *)

Record Browser : Set := mkBrowser {
  audios : list HTMLAudioElement.t;        (* every element created so far *)
  stored_state : option SoundStates;       (* localStorage, LOCAL_STORAGE_KEY *)
  stored_mixes : option (list SoundMix);   (* localStorage, CUSTOM_MIXES_KEY *)
  intervals : list positive;               (* live ids of window.setInterval *)
  next_interval : positive;                (* the id the next setInterval returns *)
  clock : Z                                (* Date.now() *)
}.

Definition with_audios (f : list HTMLAudioElement.t -> list HTMLAudioElement.t)
    (b : Browser) : Browser :=
  mkBrowser (f (audios b)) (stored_state b) (stored_mixes b) (intervals b)
    (next_interval b) (clock b).

(** A method call or an assignment on the element behind a handle. *)
Definition on_audio (h : audio_ref) (f : HTMLAudioElement.t -> HTMLAudioElement.t)
    (b : Browser) : Browser :=
  with_audios (alter f h) b.

(** [new Audio(..)]: the element and its handle. *)
Definition new_audio (a : HTMLAudioElement.t) (b : Browser) : Browser * audio_ref :=
  (with_audios (fun l => l ++ [a]) b, length (audios b)).

(** [localStorage.setItem(LOCAL_STORAGE_KEY, JSON.stringify(s))] *)
Definition store_state (s : SoundStates) (b : Browser) : Browser :=
  mkBrowser (audios b) (Some s) (stored_mixes b) (intervals b) (next_interval b)
    (clock b).

(** [localStorage.setItem(CUSTOM_MIXES_KEY, JSON.stringify(ms))] *)
Definition store_mixes (ms : list SoundMix) (b : Browser) : Browser :=
  mkBrowser (audios b) (stored_state b) (Some ms) (intervals b) (next_interval b)
    (clock b).

(** [window.setInterval(..)] *)
Definition setInterval (b : Browser) : Browser * positive :=
  (mkBrowser (audios b) (stored_state b) (stored_mixes b)
     (intervals b ++ [next_interval b]) (Pos.succ (next_interval b)) (clock b),
   next_interval b).

(** [clearInterval(i)] *)
Definition clearInterval (i : positive) (b : Browser) : Browser :=
  mkBrowser (audios b) (stored_state b) (stored_mixes b)
    (List.filter (fun j => negb (Pos.eqb j i)) (intervals b)) (next_interval b)
    (clock b).

(** Time passes: the clock reads [t]. *)
Definition at_time (t : Z) (b : Browser) : Browser :=
  mkBrowser (audios b) (stored_state b) (stored_mixes b) (intervals b)
    (next_interval b) t.

(** ** Helpers of the reducer *)

(** [l.findIndex(p)], with the element found; [None] is the source's [-1]. *)
Fixpoint findIndex {A : Type} (p : A -> bool) (l : list A) : option (nat * A) :=
  match l with
  | [] => None
  | x :: l' =>
      if p x then Some (0, x)
      else match findIndex p l' with
           | Some (i, y) => Some (S i, y)
           | None => None
           end
  end.

(** [as.sound.id === id] *)
Definition has_id (id : string) (a : ActiveSound.t) : bool :=
  String.eqb (Sound.id (ActiveSound.sound a)) id.

(** The new element of [createAudioElement] before any listener is attached:
    [loop = false], [volume = volume * masterVolume], [preload = 'auto'];
    a new element starts paused. *)
Definition created_element (sound : Sound.t) (volume masterVolume : float)
    (l : option Listener.t) : HTMLAudioElement.t :=
  HTMLAudioElement.mk (Sound.audioSrc sound) (volume * masterVolume)%float
    true false "auto" false l.

(** [createAudioElement(sound, volume, masterVolume, onCrossfade?)]; the one
    callback ever passed forwards to [audioStateManager.handleCrossfade], so
    a boolean says whether it was given. *)
Definition createAudioElement (sound : Sound.t) (volume masterVolume : float)
    (onCrossfade : bool) (b : Browser) : Browser * audio_ref :=
  new_audio
    (created_element sound volume masterVolume
       (if onCrossfade then Some (Listener.mk sound volume masterVolume) else None))
    b.

(** The play branch of [TOGGLE_PLAY_PAUSE] and [PLAY_ALL_SOUNDS] for one
    track, as the source has it: play when both sources are set, restore
    the source and play when only the element has none, nothing otherwise.
    The test is made on the string assigned to the element. *)
Definition play_or_reset (sound : Sound.t) (a : HTMLAudioElement.t)
    : HTMLAudioElement.t :=
  if truthy_str (Sound.audioSrc sound) && truthy_str (HTMLAudioElement.src a)
  then HTMLAudioElement.play a
  else if truthy_str (Sound.audioSrc sound)
  then HTMLAudioElement.play (HTMLAudioElement.set_src (Sound.audioSrc sound) a)
  else a.

Definition play_all (l : list ActiveSound.t) (b : Browser) : Browser :=
  fold_left
    (fun b a => on_audio (ActiveSound.audio a) (play_or_reset (ActiveSound.sound a)) b)
    l b.

Definition pause_all (l : list ActiveSound.t) (b : Browser) : Browser :=
  fold_left (fun b a => on_audio (ActiveSound.audio a) HTMLAudioElement.pause b) l b.

(** The side effect of a [map] callback that sets the gain of the tracks
    chosen by [p]. *)
Definition set_gains (p : ActiveSound.t -> bool) (gain : ActiveSound.t -> float)
    (l : list ActiveSound.t) (b : Browser) : Browser :=
  fold_left
    (fun b a =>
       if p a then on_audio (ActiveSound.audio a) (HTMLAudioElement.set_volume (gain a)) b
       else b)
    l b.

(** [{ ...states[id], volume: v }] *)
Definition with_saved_volume (states : SoundStates) (id : string) (v : float)
    : SoundState.t :=
  match obj_get states id with
  | Some st => SoundState.set_volume v st
  | None => SoundState.mk v None
  end.

Definition minutes_of (t : TimerOption) : Z :=
  match t with
  | T5min => 5 | T15min => 15 | T30min => 30 | T45min => 45
  | T60min => 60 | T75min => 75 | T90min => 90 | Tendless => 0
  end%Z.

(** ** The reducer *)

(** The catalog [sounds] of [@/data/sounds] is not part of the engine: the
    engine is read against any catalog. *)
Class Catalog : Type := sounds : list Sound.t.

Section Engine.
Context `{Catalog}.

(** [sounds.find(s => s.id === id)] *)
Definition find_sound (id : string) : option Sound.t :=
  find (fun s => String.eqb (Sound.id s) id) sounds.

(** [case 'TOGGLE_SOUND'] *)
Definition toggle_sound (b : Browser) (state : AudioState) (sound : Sound.t)
    : Browser * AudioState :=
  match findIndex (has_id (Sound.id sound)) (activeSounds state) with
  | Some (existingIndex, existing) =>
      (* remove the sound if it is already active *)
      let b := on_audio (ActiveSound.audio existing) HTMLAudioElement.release b in
      let newActiveSounds := delete existingIndex (activeSounds state) in
      let newSoundStates := obj_delete (soundStates state) (Sound.id sound) in
      let b := store_state newSoundStates b in
      let newIsPlaying :=
        if Nat.eqb (length newActiveSounds) 0 then false else isPlaying state in
      (b, mkAudioState newActiveSounds (masterVolume state) newIsPlaying
            (timer state) (timeRemaining state) (timerEndTime state) newSoundStates)
  | None =>
      if Nat.leb MAX_CONCURRENT_SOUNDS (length (activeSounds state))
      then (b, state)
      else
        let savedState := obj_get (soundStates state) (Sound.id sound) in
        let volume :=
          match savedState with
          | Some st =>
              if truthy (SoundState.volume st)
              then (SoundState.volume st / 100)%float
              else 1%float
          | None => 1%float
          end in
        let '(b, audio) :=
          createAudioElement sound volume (masterVolume state) true b in
        let newSound := ActiveSound.mk sound audio volume in
        let newSoundStates :=
          obj_set (soundStates state) (Sound.id sound)
            (SoundState.mk (volume * 100)%float (Some (isPlaying state))) in
        let b := store_state newSoundStates b in
        let newIsPlaying := isPlaying state in
        let b := if newIsPlaying then on_audio audio HTMLAudioElement.play b else b in
        (b, mkAudioState (activeSounds state ++ [newSound]) (masterVolume state)
              newIsPlaying (timer state) (timeRemaining state) (timerEndTime state)
              newSoundStates)
  end.

(** [case 'SET_VOLUME'] *)
Definition set_volume (b : Browser) (state : AudioState) (soundId : string)
    (volume : float) : Browser * AudioState :=
  let b :=
    set_gains (has_id soundId) (fun _ => (volume * masterVolume state)%float)
      (activeSounds state) b in
  let newActiveSounds :=
    map (fun a => if has_id soundId a then ActiveSound.set_volume volume a else a)
      (activeSounds state) in
  let newSoundStates :=
    obj_set (soundStates state) soundId
      (with_saved_volume (soundStates state) soundId (volume * 100)%float) in
  let b := store_state newSoundStates b in
  (b, mkAudioState newActiveSounds (masterVolume state) (isPlaying state)
        (timer state) (timeRemaining state) (timerEndTime state) newSoundStates).

(** [case 'SET_MASTER_VOLUME'] *)
Definition set_master_volume (b : Browser) (state : AudioState) (volume : float)
    : Browser * AudioState :=
  let b :=
    set_gains (fun _ => true) (fun a => (ActiveSound.volume a * volume)%float)
      (activeSounds state) b in
  (b, mkAudioState (activeSounds state) volume (isPlaying state)
        (timer state) (timeRemaining state) (timerEndTime state) (soundStates state)).

(** The end of [TOGGLE_PLAY_PAUSE], [PAUSE_ALL_SOUNDS] and [PLAY_ALL_SOUNDS]:
    every saved entry gets the flag, the entries are stored. *)
Definition flag_all (b : Browser) (state : AudioState) (newIsPlaying : bool)
    : Browser * AudioState :=
  let newSoundStates :=
    obj_map (SoundState.set_isPlaying newIsPlaying) (soundStates state) in
  let b := store_state newSoundStates b in
  (b, mkAudioState (activeSounds state) (masterVolume state) newIsPlaying
        (timer state) (timeRemaining state) (timerEndTime state) newSoundStates).

(** [case 'TOGGLE_PLAY_PAUSE'] *)
Definition toggle_play_pause (b : Browser) (state : AudioState)
    : Browser * AudioState :=
  let newIsPlaying := negb (isPlaying state) in
  let b :=
    if newIsPlaying then play_all (activeSounds state) b
    else pause_all (activeSounds state) b in
  flag_all b state newIsPlaying.

(** [case 'SET_TIMER'] *)
Definition set_timer (now : Z) (state : AudioState) (timer : TimerOption)
    : AudioState :=
  match timer with
  | Tendless =>
      mkAudioState (activeSounds state) (masterVolume state) (isPlaying state)
        Tendless None None (soundStates state)
  | _ =>
      let minutes := minutes_of timer in
      let milliseconds := (minutes * 60 * 1000)%Z in
      let endTime := (now + milliseconds)%Z in
      mkAudioState (activeSounds state) (masterVolume state) (isPlaying state)
        timer (Some milliseconds) (Some endTime) (soundStates state)
  end.

(** [case 'CANCEL_TIMER'] *)
Definition cancel_timer (state : AudioState) : AudioState :=
  mkAudioState (activeSounds state) (masterVolume state) (isPlaying state)
    Tendless None None (soundStates state).

(** [case 'UPDATE_TIMER'] *)
Definition update_timer (state : AudioState) (remaining : option Z) : AudioState :=
  mkAudioState (activeSounds state) (masterVolume state) (isPlaying state)
    (timer state) remaining (timerEndTime state) (soundStates state).

(** The three things [APPLY_MIX] rebuilds as it goes. *)
Definition MixAcc : Set := (Browser * list ActiveSound.t * SoundStates)%type.

Definition mix_browser (acc : MixAcc) : Browser := fst (fst acc).
Definition mix_tracks (acc : MixAcc) : list ActiveSound.t := snd (fst acc).

(** One turn of [soundsToRemove.forEach]. *)
Definition mix_remove (acc : MixAcc) (activeSound : ActiveSound.t) : MixAcc :=
  let '(b, newActiveSounds, newSoundStates) := acc in
  let id := Sound.id (ActiveSound.sound activeSound) in
  (on_audio (ActiveSound.audio activeSound) HTMLAudioElement.release b,
   List.filter (fun a => negb (has_id id a)) newActiveSounds,
   obj_delete newSoundStates id).

(** One turn of [mixSounds.forEach]. *)
Definition mix_process (state : AudioState) (mixSounds : list MixSound.t)
    (currentActiveSoundMap : list (string * ActiveSound.t))
    (acc : MixAcc) (entry : MixSound.t) : MixAcc :=
  let '(b, newActiveSounds, newSoundStates) := acc in
  let id := MixSound.id entry in
  let normalizedVolume := MixSound.volume entry in
  if obj_has currentActiveSoundMap id then
    (* update volume for existing sound *)
    let b :=
      set_gains (has_id id) (fun _ => (normalizedVolume * masterVolume state)%float)
        newActiveSounds b in
    (b,
     map (fun a => if has_id id a then ActiveSound.set_volume normalizedVolume a else a)
       newActiveSounds,
     obj_set newSoundStates id
       (with_saved_volume newSoundStates id (normalizedVolume * 100)%float))
  else
    (* add new sound from the mix *)
    match find (fun s => String.eqb (MixSound.id s) id) mixSounds with
    | None => acc
    | Some soundData =>
        match find_sound id with
        | None => acc
        | Some sound =>
            let '(b, audio) :=
              createAudioElement sound normalizedVolume (masterVolume state) false b in
            let newSound := ActiveSound.mk sound audio normalizedVolume in
            let b :=
              if isPlaying state then on_audio audio HTMLAudioElement.play b else b in
            (b, newActiveSounds ++ [newSound],
             obj_set newSoundStates id
               (SoundState.mk (normalizedVolume * 100)%float (Some (isPlaying state))))
        end
    end.

(** [currentActiveSoundMap]: a [Map] from id to active sound, filled in the
    order of the track list. *)
Definition currentActiveSoundMap (state : AudioState) : list (string * ActiveSound.t) :=
  fold_left (fun m a => obj_set m (Sound.id (ActiveSound.sound a)) a)
    (activeSounds state) [].

(** [targetSoundMap]: a [Map] from id to mix entry. *)
Definition targetSoundMap (mixSounds : list MixSound.t) : list (string * MixSound.t) :=
  fold_left (fun m e => obj_set m (MixSound.id e) e) mixSounds [].

(** [soundsToRemove]: in the current map but not in the target. *)
Definition soundsToRemove (state : AudioState) (mixSounds : list MixSound.t)
    : list ActiveSound.t :=
  map snd
    (List.filter (fun kv => negb (obj_has (targetSoundMap mixSounds) (fst kv)))
       (currentActiveSoundMap state)).

(** [case 'APPLY_MIX'] *)
Definition apply_mix (b : Browser) (state : AudioState) (mix : SoundMix)
    : Browser * AudioState :=
  let mixSounds := mix_sounds mix in
  let acc :=
    fold_left mix_remove (soundsToRemove state mixSounds)
      (b, activeSounds state, soundStates state) in
  let '(b, newActiveSounds, newSoundStates) :=
    fold_left (mix_process state mixSounds (currentActiveSoundMap state)) mixSounds acc in
  let b := store_state newSoundStates b in
  (b, mkAudioState newActiveSounds (masterVolume state) (isPlaying state)
        (timer state) (timeRemaining state) (timerEndTime state) newSoundStates).

(** [audioReducer(state, action)], with the browser it acts on. *)
Definition audioReducer (b : Browser) (state : AudioState) (action : AudioAction)
    : Browser * AudioState :=
  match action with
  | TOGGLE_SOUND sound => toggle_sound b state sound
  | SET_VOLUME soundId volume => set_volume b state soundId volume
  | SET_MASTER_VOLUME volume => set_master_volume b state volume
  | TOGGLE_PLAY_PAUSE => toggle_play_pause b state
  | SET_TIMER timer => (b, set_timer (clock b) state timer)
  | CANCEL_TIMER => (b, cancel_timer state)
  | UPDATE_TIMER remaining => (b, update_timer state remaining)
  | PAUSE_ALL_SOUNDS => flag_all (pause_all (activeSounds state) b) state false
  | PLAY_ALL_SOUNDS => flag_all (play_all (activeSounds state) b) state true
  | APPLY_MIX mix => apply_mix b state mix
  | INITIALIZE_STATE savedState =>
      (b, mkAudioState (activeSounds state) (masterVolume state) (isPlaying state)
            (timer state) (timeRemaining state) (timerEndTime state) savedState)
  | SAVE_CUSTOM_MIX mix => (b, state)
  end.

(** ** The session manager: [class AudioStateManager] *)

(** [listeners] is represented by what it is called with: [broadcasts] is
    the sequence of states handed to [this.listeners.forEach], oldest
    first.  An interval id is a positive number, so [timerInterval] is
    truthy exactly when it is not [null]. *)
Record Manager : Set := mkManager {
  state : AudioState;
  timerInterval : option positive;
  customMixes : list SoundMix;
  broadcasts : list AudioState;
  browser : Browser
}.

Definition with_state (s : AudioState) (m : Manager) : Manager :=
  mkManager s (timerInterval m) (customMixes m) (broadcasts m) (browser m).
Definition with_browser (b : Browser) (m : Manager) : Manager :=
  mkManager (state m) (timerInterval m) (customMixes m) (broadcasts m) b.
Definition with_timerInterval (i : option positive) (m : Manager) : Manager :=
  mkManager (state m) i (customMixes m) (broadcasts m) (browser m).
Definition with_customMixes (ms : list SoundMix) (m : Manager) : Manager :=
  mkManager (state m) (timerInterval m) ms (broadcasts m) (browser m).

(** [this.listeners.forEach(listener => listener(this.state))] *)
Definition notify (m : Manager) : Manager :=
  mkManager (state m) (timerInterval m) (customMixes m)
    (broadcasts m ++ [state m]) (browser m).

(** [this.state = { ...this.state, isPlaying: false }] *)
Definition force_not_playing (m : Manager) : Manager :=
  let s := state m in
  with_state
    (mkAudioState (activeSounds s) (masterVolume s) false (timer s)
       (timeRemaining s) (timerEndTime s) (soundStates s)) m.

(** [stopTimer()] *)
Definition stopTimer (m : Manager) : Manager :=
  match timerInterval m with
  | Some i => with_timerInterval None (with_browser (clearInterval i (browser m)) m)
  | None => m
  end.

(** [startTimer()]: the interval it arms runs [timerTick] below. *)
Definition startTimer (m : Manager) : Manager :=
  let b :=
    match timerInterval m with
    | Some i => clearInterval i (browser m)
    | None => browser m
    end in
  let '(b, i) := setInterval b in
  with_timerInterval (Some i) (with_browser b m).

(** [startTimerIfNeeded()] *)
Definition startTimerIfNeeded (m : Manager) : Manager :=
  match timerEndTime (state m) with
  | Some e => if Z.eqb e 0 then m else startTimer m
  | None => m
  end.

(** The part of [dispatch] for [SAVE_CUSTOM_MIX]. *)
Definition save_mix (mix : SoundMix) (m : Manager) : Manager :=
  let ms :=
    match findIndex (fun x => String.eqb (mix_name x) (mix_name mix)) (customMixes m) with
    | Some (existingIndex, _) => <[existingIndex := mix]> (customMixes m)
    | None => customMixes m ++ [mix]
    end in
  with_browser (store_mixes ms (browser m)) (with_customMixes ms m).

(** [dispatch(action)] *)
Definition dispatch (action : AudioAction) (m : Manager) : Manager :=
  let '(b, s) := audioReducer (browser m) (state m) action in
  let m := with_browser b (with_state s m) in
  let m :=
    match action with
    | SET_TIMER Tendless => m
    | SET_TIMER _ => startTimer m
    | CANCEL_TIMER => stopTimer m
    | SAVE_CUSTOM_MIX mix => save_mix mix m
    | _ => m
    end in
  notify m.

(** The public API *)
Definition toggleSound (sound : Sound.t) : Manager -> Manager :=
  dispatch (TOGGLE_SOUND sound).
Definition setVolumeForSound (soundId : string) (volume : float) : Manager -> Manager :=
  dispatch (SET_VOLUME soundId volume).
Definition setMasterVolume (volume : float) : Manager -> Manager :=
  dispatch (SET_MASTER_VOLUME volume).
Definition togglePlayPause : Manager -> Manager := dispatch TOGGLE_PLAY_PAUSE.
Definition setTimer (timer : TimerOption) : Manager -> Manager :=
  dispatch (SET_TIMER timer).
Definition cancelTimer : Manager -> Manager := dispatch CANCEL_TIMER.
Definition pauseAllSounds : Manager -> Manager := dispatch PAUSE_ALL_SOUNDS.
Definition playAllSounds : Manager -> Manager := dispatch PLAY_ALL_SOUNDS.
Definition applyMix (mix : SoundMix) : Manager -> Manager := dispatch (APPLY_MIX mix).
Definition saveCustomMix (mix : SoundMix) : Manager -> Manager :=
  dispatch (SAVE_CUSTOM_MIX mix).

(** The callback [startTimer] gives to [window.setInterval]. *)
Definition timerTick (m : Manager) : Manager :=
  match timerEndTime (state m) with
  | None => stopTimer m
  | Some endTime =>
      if Z.eqb endTime 0 then stopTimer m
      else
        let remaining := (endTime - clock (browser m))%Z in
        if (remaining <=? 0)%Z then
          (* timer has finished *)
          let m := dispatch (UPDATE_TIMER (Some 0%Z)) m in
          let m := dispatch PAUSE_ALL_SOUNDS m in
          let m := dispatch CANCEL_TIMER m in
          stopTimer m
        else dispatch (UPDATE_TIMER (Some remaining)) m
  end.

(** The browser runs the callback of interval [i] at time [t], when [i] is
    still live. *)
Definition interval_fires (i : positive) (t : Z) (m : Manager) : Manager :=
  let m := with_browser (at_time t (browser m)) m in
  if existsb (Pos.eqb i) (intervals (browser m)) then timerTick m else m.

(** The restore step of [loadSavedState] for one persisted entry. *)
Definition restore_entry (m : Manager) (entry : string * SoundState.t) : Manager :=
  let '(soundId, st) := entry in
  match find_sound soundId with
  | Some sound => if (0 <? SoundState.volume st)%float then toggleSound sound m else m
  | None => m
  end.

(** [loadSavedState()].  The stored item is taken as parsed: a string that
    [JSON.parse] rejects is caught and logged by the source and leaves the
    manager as it was, like an absent item. *)
Definition loadSavedState (m : Manager) : Manager :=
  match stored_state (browser m) with
  | None => m
  | Some parsedState =>
      let restoredState :=
        fold_left
          (fun acc entry =>
             obj_set acc (fst entry)
               (SoundState.mk (SoundState.volume (snd entry)) (Some false)))
          parsedState [] in
      let m := dispatch (INITIALIZE_STATE restoredState) m in
      let m := force_not_playing m in
      let m := fold_left restore_entry parsedState m in
      let m := force_not_playing m in
      notify m
  end.

(** [loadCustomMixes()] *)
Definition loadCustomMixes (m : Manager) : Manager :=
  match stored_mixes (browser m) with
  | Some savedMixes => with_customMixes savedMixes m
  | None => m
  end.

(** [new AudioStateManager()] in a browser [b] *)
Definition new_manager (b : Browser) : Manager :=
  startTimerIfNeeded
    (loadCustomMixes (loadSavedState (mkManager initialAudioState None [] [] b))).

(** [deleteCustomMix(mixName)] *)
Definition deleteCustomMix (mixName : string) (m : Manager) : Manager :=
  match findIndex (fun x => String.eqb (mix_name x) mixName) (customMixes m) with
  | Some (index, _) =>
      let ms := delete index (customMixes m) in
      with_browser (store_mixes ms (browser m)) (with_customMixes ms m)
  | None => m
  end.

(** [cleanup()] *)
Definition cleanup (m : Manager) : Manager :=
  let b :=
    fold_left
      (fun b a => on_audio (ActiveSound.audio a) HTMLAudioElement.release b)
      (activeSounds (state m)) (browser m) in
  stopTimer (with_browser b m).

(** In [handleCrossfade], what the [map] callback does to the new element
    for a track it replaces: play it if the state plays and it is paused,
    pause it if the state does not play. *)
Definition sync_playing (playing : bool) (a : HTMLAudioElement.t) : HTMLAudioElement.t :=
  if playing then
    if HTMLAudioElement.paused a then HTMLAudioElement.play a else a
  else HTMLAudioElement.pause a.

(** The [map] of [handleCrossfade] over the tracks chosen by [p]. *)
Definition swap_audio (p : ActiveSound.t -> bool) (newAudio : audio_ref)
    (m : Manager) : Manager :=
  let s := state m in
  let b :=
    fold_left
      (fun b a => if p a then on_audio newAudio (sync_playing (isPlaying s)) b else b)
      (activeSounds s) (browser m) in
  let newActiveSounds :=
    map (fun a => if p a then ActiveSound.set_audio newAudio a else a)
      (activeSounds s) in
  notify
    (with_browser b
       (with_state
          (mkAudioState newActiveSounds (masterVolume s) (isPlaying s) (timer s)
             (timeRemaining s) (timerEndTime s) (soundStates s)) m)).

(** [handleCrossfade(oldAudio, newAudio)] *)
Definition handleCrossfade (oldAudio newAudio : audio_ref) (m : Manager) : Manager :=
  let uses_old := fun a => Nat.eqb (ActiveSound.audio a) oldAudio in
  match find uses_old (activeSounds (state m)) with
  | Some activeSound => swap_audio uses_old newAudio m
  | None =>
      let newSrc :=
        match audios (browser m) !! newAudio with
        | Some a => HTMLAudioElement.src a
        | None => ""
        end in
      match
        find (fun s => includes newSrc (Sound.id s) || includes newSrc (Sound.name s))
          sounds
      with
      | Some matchingSound =>
          match find (has_id (Sound.id matchingSound)) (activeSounds (state m)) with
          | Some existingActiveSound =>
              swap_audio (has_id (Sound.id matchingSound)) newAudio m
          | None => m
          end
      | None => m
      end
  end.

(** ** Crossfade looping: [attachCrossfadeListener] *)

(** The variables the callback of the fade interval closes over. *)
Record Fade : Set := mkFade {
  fade_audio : audio_ref;            (* audio: the outgoing element *)
  fade_newAudio : audio_ref;         (* newAudio: the incoming element *)
  isCurrentlyPlaying : bool;
  oldInitialVolume : float;
  targetVolume : float;
  currentStep : float
}.

Definition fadeDuration : float := 3000%float.
Definition fadeSteps : float := 60%float.
Definition stepInterval : float := (fadeDuration / fadeSteps)%float.

(** The element a crossfade or an error recovery creates, with the
    listeners of [attachCrossfadeListener] attached. *)
Definition looping_element (l : Listener.t) (volume : float) : HTMLAudioElement.t :=
  HTMLAudioElement.mk (Sound.audioSrc (Listener.sound l)) volume true false "auto"
    false (Some l).

(** [handleTimeUpdate], run by a [timeupdate] event of the element [h] that
    reads [audio.currentTime] and [audio.duration].  When it starts a
    crossfade, the result carries the fade whose interval it has armed. *)
Definition handleTimeUpdate (h : audio_ref) (currentTime duration : float)
    (b : Browser) : Browser * option Fade :=
  match audios b !! h with
  | None => (b, None)
  | Some audio =>
      match HTMLAudioElement.listener audio with
      | None => (b, None)
      | Some l =>
          if HTMLAudioElement.crossfadeTriggered audio then (b, None)
          else if negb (truthy duration) || (duration =? infinity)%float then (b, None)
          else if (duration - 3 <=? currentTime)%float then
            let b := on_audio h (HTMLAudioElement.set_crossfadeTriggered true) b in
            let '(b, newAudio) := new_audio (looping_element l 0%float) b in
            let isCurrentlyPlaying := negb (HTMLAudioElement.paused audio) in
            let b :=
              if isCurrentlyPlaying && truthy_str (Sound.audioSrc (Listener.sound l))
              then on_audio newAudio HTMLAudioElement.play b
              else b in
            (b,
             Some
               (mkFade h newAudio isCurrentlyPlaying (HTMLAudioElement.volume audio)
                  (Listener.volume l * Listener.masterVolume l)%float 0%float))
          else (b, None)
      end
  end.

(** One run of the callback of the fade interval.  [None] in the result:
    the interval was cleared. *)
Definition fadeStep (f : Fade) (m : Manager) : Manager * option Fade :=
  let audio := fade_audio f in
  let newAudio := fade_newAudio f in
  let audio_paused :=
    match audios (browser m) !! audio with
    | Some a => HTMLAudioElement.paused a
    | None => true
    end in
  if negb (isCurrentlyPlaying f) || audio_paused then
    (* paused during the crossfade *)
    let b := on_audio newAudio HTMLAudioElement.pause (browser m) in
    let b := on_audio audio HTMLAudioElement.release b in
    (handleCrossfade audio newAudio (with_browser b m), None)
  else
    let currentStep := (currentStep f + 1)%float in
    let progress := (currentStep / fadeSteps)%float in
    let easedProgress := (progress * progress)%float in
    let newVol := (targetVolume f * easedProgress)%float in
    let oldVol := (oldInitialVolume f * (1 - easedProgress))%float in
    let b := on_audio audio (HTMLAudioElement.set_volume oldVol) (browser m) in
    let b := on_audio newAudio (HTMLAudioElement.set_volume newVol) b in
    if (fadeSteps <=? currentStep)%float then
      let b := on_audio audio HTMLAudioElement.release b in
      let b := on_audio newAudio (HTMLAudioElement.set_volume (targetVolume f)) b in
      (handleCrossfade audio newAudio (with_browser b m), None)
    else
      (with_browser b m,
       Some
         (mkFade audio newAudio (isCurrentlyPlaying f) (oldInitialVolume f)
            (targetVolume f) currentStep)).

(** The callback runs [n] more times, or until it clears its interval. *)
Fixpoint fadeSteps_run (n : nat) (f : Fade) (m : Manager) : Manager * option Fade :=
  match n with
  | O => (m, Some f)
  | S n' =>
      match fadeStep f m with
      | (m', Some f') => fadeSteps_run n' f' m'
      | (m', None) => (m', None)
      end
  end.

(** [handleAudioError], run by an [error] event of the element [h];
    [hasError] is [audio.error && audio.error.code]. *)
Definition handleAudioError (h : audio_ref) (hasError : bool) (m : Manager) : Manager :=
  match audios (browser m) !! h with
  | None => m
  | Some audio =>
      match HTMLAudioElement.listener audio with
      | None => m
      | Some l =>
          if hasError && negb (HTMLAudioElement.crossfadeTriggered audio) then
            let '(b, replacementAudio) :=
              new_audio (looping_element l (HTMLAudioElement.volume audio)) (browser m) in
            let b :=
              if negb (HTMLAudioElement.paused audio)
              then on_audio replacementAudio HTMLAudioElement.play b
              else b in
            handleCrossfade h replacementAudio (with_browser b m)
          else m
      end
  end.

(** A [timeupdate] event of the element [h], then [n] runs of the callback
    of the fade interval that the event may have armed. *)
Definition crossfade (h : audio_ref) (currentTime duration : float) (n : nat)
    (m : Manager) : Manager * option Fade :=
  match handleTimeUpdate h currentTime duration (browser m) with
  | (b, Some f) => fadeSteps_run n f (with_browser b m)
  | (b, None) => (with_browser b m, None)
  end.

(** ** The provider wrapper: [toggleSound] of [AudioStateProvider] *)

Record Toast : Set := mkToast { title : option string; description : string }.

Definition capacity_toast : Toast :=
  mkToast None "Three create harmony, above 3 maahol is Chaos!".

(** [toggleSound(sound)] of the provider; [audioState] is the state the
    component last received from the manager.  The result is the manager
    and the toast shown. *)
Definition Provider_toggleSound (audioState : AudioState) (sound : Sound.t)
    (m : Manager) : Manager * Toast :=
  let isActive := existsb (has_id (Sound.id sound)) (activeSounds audioState) in
  if negb isActive && Nat.leb 3 (length (activeSounds audioState)) then
    (m, capacity_toast)
  else
    let m := toggleSound sound m in
    if isActive
    then (m, mkToast None (Sound.name sound ++ " has been removed"))
    else (m, mkToast None (Sound.name sound ++ " is now playing")).

End Engine.

(** ** The other wrappers of [AudioStateProvider] *)

(** The presets [soundMixes] of [@/data/soundMixes] are not part of the
    provider either: it is read against any list of presets. *)
Class Presets : Type := soundMixes : list SoundMix.

(** [`${n}`] for an integer [n]: its decimal digits. *)
Definition string_of_number (n : Z) : string :=
  NilZero.string_of_int (Z.to_int n).

Section Provider.
Context `{Catalog} `{Presets}.

(** [getState()] and [getCustomMixes()], which hands out a copy. *)
Definition getState (m : Manager) : AudioState := state m.
Definition getCustomMixes (m : Manager) : list SoundMix := customMixes m.

(** The [switch] of the provider's [setTimer], on [let minutes = 0]. *)
Definition Provider_minutes (timer : TimerOption) : Z :=
  match timer with
  | T5min => 5 | T15min => 15 | T30min => 30 | T45min => 45
  | T60min => 60 | T75min => 75 | T90min => 90 | Tendless => 0
  end%Z.

(** [setTimer(timer)] of the provider *)
Definition Provider_setTimer (timer : TimerOption) (m : Manager) : Manager * Toast :=
  let m := setTimer timer m in
  match timer with
  | Tendless =>
      (m, mkToast (Some "Timer Disabled") "Playback will continue indefinitely")
  | _ =>
      let minutes := Provider_minutes timer in
      (m, mkToast (Some "Timer Set")
            ("Playback will stop in " ++ string_of_number minutes ++ " minutes"))
  end.

(** [cancelTimer()] of the provider *)
Definition Provider_cancelTimer (m : Manager) : Manager * Toast :=
  (cancelTimer m,
   mkToast (Some "Timer Cancelled") "Playback will continue indefinitely").

(** [updateVolume(soundId, volume)]: from the 0-100 scale of the slider. *)
Definition Provider_updateVolume (soundId : string) (volume : float) (m : Manager)
    : Manager :=
  setVolumeForSound soundId (volume / 100)%float m.

(** [applyMix(mix)] of the provider *)
Definition Provider_applyMix (mix : SoundMix) (m : Manager) : Manager * Toast :=
  (applyMix mix m,
   mkToast (Some "Mix Applied") (mix_name mix ++ " mix has been applied")).

(** [saveCustomMix(mix)] of the provider *)
Definition Provider_saveCustomMix (mix : SoundMix) (m : Manager) : Manager * Toast :=
  (saveCustomMix mix m,
   mkToast (Some "Mix Saved")
     (mix_name mix ++ " has been saved to your custom mixes")).

(** [deleteCustomMix(mixName)] of the provider *)
Definition Provider_deleteCustomMix (mixName : string) (m : Manager) : Manager * Toast :=
  (deleteCustomMix mixName m,
   mkToast (Some "Mix Deleted")
     (mixName ++ " has been removed from your custom mixes")).

(** [doesMixMatch(mix)], the helper of [isCurrentMixSaved]. *)
Definition doesMixMatch (audioState : AudioState) (mix : SoundMix) : bool :=
  if negb (Nat.eqb (length (mix_sounds mix)) (length (activeSounds audioState)))
  then false
  else
    forallb
      (fun mixSound =>
         match find (has_id (MixSound.id mixSound)) (activeSounds audioState) with
         | None => false
         | Some activeSound =>
             (abs (ActiveSound.volume activeSound - MixSound.volume mixSound)
              <? 0.01)%float
         end)
      (mix_sounds mix).

(** [isCurrentMixSaved()], also exported as [isCurrentMixPredefined]. *)
Definition isCurrentMixSaved (audioState : AudioState) (m : Manager) : bool :=
  if Nat.eqb (length (activeSounds audioState)) 0 then false
  else if existsb (doesMixMatch audioState) soundMixes then true
  else existsb (doesMixMatch audioState) (getCustomMixes m).

End Provider.

(** ** Notions used by the statements *)

(** The last character of a string. *)
Fixpoint last_ascii (s : string) : option ascii :=
  match s with
  | EmptyString => None
  | String c EmptyString => Some c
  | String _ s' => last_ascii s'
  end.

(** The value of [currentStep] after [k] runs of the fade callback. *)
Fixpoint step_count (k : nat) : float :=
  match k with
  | O => 0%float
  | S k' => (step_count k' + 1)%float
  end.

(** No element behind the handle [h] is playing. *)
Definition is_paused (b : Browser) (h : audio_ref) : Prop :=
  forall a, audios b !! h = Some a -> HTMLAudioElement.paused a = true.

(** The ids of the active tracks, in order. *)
Definition track_ids (l : list ActiveSound.t) : list string :=
  map (fun a => Sound.id (ActiveSound.sound a)) l.

(** The ids of a mix, in order. *)
Definition mix_ids (mix : SoundMix) : list string :=
  map MixSound.id (mix_sounds mix).

(** A preset the engine trusts: distinct ids, no more than the capacity. *)
Definition trusted_mix (mix : SoundMix) : Prop :=
  List.NoDup (mix_ids mix) /\ length (mix_sounds mix) <= MAX_CONCURRENT_SOUNDS.

Definition trusted (action : AudioAction) : Prop :=
  match action with
  | APPLY_MIX mix => trusted_mix mix
  | _ => True
  end.

(** The invariant of the track list: within capacity, one track per sound. *)
Definition within_capacity (s : AudioState) : Prop :=
  length (activeSounds s) <= MAX_CONCURRENT_SOUNDS /\
  List.NoDup (track_ids (activeSounds s)).

(** The handles of the active tracks, in order. *)
Definition track_handles (l : list ActiveSound.t) : list audio_ref :=
  map ActiveSound.audio l.

(** The names of the custom mixes, in order. *)
Definition mix_names (ms : list SoundMix) : list string := map mix_name ms.

(** A number that a gain can be: not NaN, not an infinity. *)
Definition finite (x : float) : bool :=
  negb (PrimFloat.is_nan x) && negb (PrimFloat.is_infinity x).

(** The position [p] of a volume slider, an integer from 0 to 100. *)
Definition slider (p : Z) : float := PrimFloat.of_uint63 (Uint63.of_Z p).

(** What a browser holds besides the audio elements. *)
Definition beside_audios (b : Browser) :=
  (stored_state b, stored_mixes b, intervals b, next_interval b, clock b).

(** The interval the manager holds is one that [setInterval] has handed
    out. *)
Definition owns_interval (m : Manager) : Prop :=
  forall i, timerInterval m = Some i -> (i < next_interval (browser m))%positive.

(** The test of the two [findIndex] calls on the custom mixes. *)
Definition named (name : string) (x : SoundMix) : bool := String.eqb (mix_name x) name.

(** The manager's custom mixes are what the storage holds. *)
Definition mixes_stored (m : Manager) : Prop :=
  customMixes m = default [] (stored_mixes (browser m)).

(** What an element is made of besides its gain and whether it plays. *)
Definition element_make (a : HTMLAudioElement.t) :=
  (HTMLAudioElement.src a, HTMLAudioElement.loop a, HTMLAudioElement.preload a,
   HTMLAudioElement.crossfadeTriggered a, HTMLAudioElement.listener a).

(** The numbers that [audio.volume] takes. *)
Definition gain_ok (x : float) : bool := (0 <=? x)%float && (x <=? 1)%float.

(** The volume at which [TOGGLE_SOUND] creates the track of a sound: the
    saved volume over 100 when it is truthy, 1 otherwise. *)
Definition toggle_volume (state : AudioState) (sound : Sound.t) : float :=
  match obj_get (soundStates state) (Sound.id sound) with
  | Some st =>
      if truthy (SoundState.volume st) then (SoundState.volume st / 100)%float
      else 1%float
  | None => 1%float
  end.

Section MixNotions.
Context `{Catalog}.

(** Every gain that the reducer assigns on [action] in [state] is one that
    [audio.volume] takes.  [TOGGLE_SOUND] assigns one when it creates a
    track; [SET_VOLUME] one for a sound that is active; [SET_MASTER_VOLUME]
    one for every track; [APPLY_MIX] one for every mix entry whose sound is
    active or in the catalog; the other actions assign none. *)
Definition in_range (state : AudioState) (action : AudioAction) : bool :=
  match action with
  | TOGGLE_SOUND sound =>
      existsb (has_id (Sound.id sound)) (activeSounds state)
      || Nat.leb MAX_CONCURRENT_SOUNDS (length (activeSounds state))
      || gain_ok (toggle_volume state sound * masterVolume state)
  | SET_VOLUME soundId volume =>
      negb (existsb (has_id soundId) (activeSounds state))
      || gain_ok (volume * masterVolume state)
  | SET_MASTER_VOLUME volume =>
      forallb (fun a => gain_ok (ActiveSound.volume a * volume)) (activeSounds state)
  | APPLY_MIX mix =>
      forallb
        (fun entry =>
           negb (existsb (has_id (MixSound.id entry)) (activeSounds state)
                 || match find_sound (MixSound.id entry) with
                    | Some _ => true
                    | None => false
                    end)
           || gain_ok (MixSound.volume entry * masterVolume state))
        (mix_sounds mix)
  | _ => true
  end.

(** The mix entries for which [APPLY_MIX] creates a track: the sound is not
    active and the catalog has it. *)
Definition mix_creates (state : AudioState) (id : string) : bool :=
  negb (existsb (has_id id) (activeSounds state))
  && match find_sound id with Some _ => true | None => false end.

(** What the turn of a mix entry in [APPLY_MIX] makes of the saved entry of
    its id: the volume of an active sound is overwritten, a new sound of the
    catalog gets a new entry, a sound that the catalog does not have gets
    nothing. *)
Definition saved_by (state : AudioState) (entry : MixSound.t)
    (old : option SoundState.t) : option SoundState.t :=
  if obj_has (currentActiveSoundMap state) (MixSound.id entry) then
    Some (match old with
          | Some st => SoundState.set_volume (MixSound.volume entry * 100) st
          | None => SoundState.mk (MixSound.volume entry * 100) None
          end)
  else
    match find_sound (MixSound.id entry) with
    | Some _ => Some (SoundState.mk (MixSound.volume entry * 100) (Some (isPlaying state)))
    | None => old
    end.

End MixNotions.

Section Reachability.
Context `{Catalog}.

(** A sequence of [toggleSound] calls. *)
Definition toggles (l : list Sound.t) (m : Manager) : Manager :=
  fold_left (fun m sound => toggleSound sound m) l m.

(** The managers a session can be in: a new manager in some browser, then
    any dispatch (with trusted presets), swap notification, interval
    callback, media event or fade step. *)
Inductive reachable : Manager -> Prop :=
| reach_new b : reachable (new_manager b)
| reach_dispatch action m :
    reachable m -> trusted action -> reachable (dispatch action m)
| reach_handleCrossfade oldAudio newAudio m :
    reachable m -> reachable (handleCrossfade oldAudio newAudio m)
| reach_interval i t m :
    reachable m -> reachable (interval_fires i t m)
| reach_timeupdate h currentTime duration m :
    reachable m ->
    reachable (with_browser (fst (handleTimeUpdate h currentTime duration (browser m))) m)
| reach_fadeStep f m :
    reachable m -> reachable (fst (fadeStep f m))
| reach_error h hasError m :
    reachable m -> reachable (handleAudioError h hasError m)
| reach_deleteCustomMix mixName m :
    reachable m -> reachable (deleteCustomMix mixName m)
| reach_cleanup m :
    reachable m -> reachable (cleanup m).

End Reachability.

Section Restore.
Context `{Catalog}.

(** The persisted entries that [loadSavedState] toggles on: the id names a
    sound of the catalog and the saved volume is positive. *)
Definition restorable (parsed : SoundStates) : SoundStates :=
  List.filter
    (fun entry =>
       match find_sound (fst entry) with
       | Some _ => (0 <? SoundState.volume (snd entry))%float
       | None => false
       end)
    parsed.

(** The gains of the tracks that [loadSavedState] creates, at the initial
    master volume, are ones that [audio.volume] takes. *)
Definition restore_in_range (parsed : SoundStates) : bool :=
  forallb
    (fun entry =>
       gain_ok (SoundState.volume (snd entry) / 100 * masterVolume initialAudioState))
    (firstn MAX_CONCURRENT_SOUNDS (restorable parsed)).

(** Where [loadSavedState] stands once it has gone through the entries
    [done] of the persisted [parsed]; [first] is the handle of the first
    element it creates. *)
Record restored (parsed done : SoundStates) (first : nat) (m : Manager) : Prop :=
  mkRestored {
  restored_not_playing : isPlaying (state m) = false;
  restored_ids :
    track_ids (activeSounds (state m))
    = firstn MAX_CONCURRENT_SOUNDS (obj_keys (restorable done));
  restored_tracks :
    forall a, In a (activeSounds (state m)) ->
      first <= ActiveSound.audio a < length (audios (browser m)) /\
      exists st,
        In (Sound.id (ActiveSound.sound a), st) done /\
        find_sound (Sound.id (ActiveSound.sound a)) = Some (ActiveSound.sound a) /\
        (0 <? SoundState.volume st)%float = true /\
        ActiveSound.volume a = (SoundState.volume st / 100)%float;
  restored_keys : obj_keys (soundStates (state m)) = obj_keys parsed;
  restored_flags :
    forall k st, In (k, st) (soundStates (state m)) ->
      SoundState.isPlaying st = Some false;
  restored_pending :
    forall k st, In (k, st) parsed -> ~ In k (obj_keys done) ->
      obj_get (soundStates (state m)) k
      = Some (SoundState.mk (SoundState.volume st) (Some false));
  restored_paused : forall h, first <= h -> is_paused (browser m) h;
  restored_store : first <= length (audios (browser m))
}.

End Restore.

(** ** Sample data for the examples *)

Definition rain : Sound.t := Sound.mk "rain" "Rain" "/sounds/rain.mp3".
Definition wind : Sound.t := Sound.mk "wind" "Wind" "/sounds/wind.mp3".
Definition fire : Sound.t := Sound.mk "fire" "Fire" "/sounds/fire.mp3".
Definition birds : Sound.t := Sound.mk "birds" "Birds" "/sounds/birds.mp3".

Definition sample_catalog : Catalog := [rain; wind; fire; birds].

(** A browser with nothing stored, at time 1000. *)
Definition empty_browser : Browser := mkBrowser [] None None [] 1 1000.

(** The page is loaded again: the local storage is what the session [m]
    left, the rest is new. *)
Definition reload (m : Manager) : Browser :=
  mkBrowser [] (stored_state (browser m)) (stored_mixes (browser m)) [] 1
    (clock (browser m)).

(** The manager of a first visit. *)
Definition fresh_manager : Manager := @new_manager sample_catalog empty_browser.

(** Rain is toggled on and its volume set to 0; then the page is loaded
    again. *)
Definition muted_rain_browser : Browser :=
  reload
    (@setVolumeForSound sample_catalog "rain" 0
       (@toggleSound sample_catalog rain fresh_manager)).

Definition muted_rain_manager : Manager :=
  @new_manager sample_catalog muted_rain_browser.

(** Rain toggled on and playing, then the master volume lowered to 0.2. *)
Definition quieter_manager : Manager :=
  @setMasterVolume sample_catalog 0.2
    (@togglePlayPause sample_catalog (@toggleSound sample_catalog rain fresh_manager)).

(** A later visit: rain was playing at volume 50. *)
Definition rain_browser : Browser :=
  mkBrowser [] (Some [("rain", SoundState.mk 50 (Some true))]) None [] 1 1000.

(** Rain, wind and fire are toggled on, the volume of birds, which is not
    active, is set to 0.1; then the page is loaded again. *)
Definition crowded_browser : Browser :=
  reload
    (@setVolumeForSound sample_catalog "birds" 0.1
       (@toggles sample_catalog [rain; wind; fire] fresh_manager)).

(** The preset of the example: rain at 0.5 and wind at 0.3. *)
Definition rain_wind_mix : SoundMix :=
  mkSoundMix "Storm" "Rain and wind"
    [MixSound.mk "rain" 0.5; MixSound.mk "wind" 0.3].

(** A preset naming a sound that the sample catalog does not have. *)
Definition thunder_mix : SoundMix :=
  mkSoundMix "Thunder" "Thunder alone" [MixSound.mk "thunder" 0.5].

(** A preset of four sounds, one more than the capacity. *)
Definition four_sound_mix : SoundMix :=
  mkSoundMix "All" "Everything at once"
    [MixSound.mk "rain" 0.5; MixSound.mk "wind" 0.3; MixSound.mk "fire" 0.2;
     MixSound.mk "birds" 0.1].

(** The first visit, with a 15 minute timer set. *)
Definition armed_manager : Manager := @setTimer sample_catalog T15min fresh_manager.

(** A session that saved the preset of the example as a custom mix. *)
Definition saved_mix_manager : Manager :=
  @saveCustomMix sample_catalog rain_wind_mix fresh_manager.

(** Wind is toggled on and the volume of rain, which is not active, is set
    to 0.4. *)
Definition saved_rain_manager : Manager :=
  @setVolumeForSound sample_catalog "rain" 0.4
    (@toggleSound sample_catalog wind fresh_manager).

(** The presets of the examples. *)
Definition sample_presets : Presets := [rain_wind_mix].

(** * Properties *)

(** ** Objects *)

Section ObjFacts.
Context {V : Type}.
Implicit Types (o : list (string * V)) (k : string) (v : V).

Lemma obj_get_set_eq o k v : obj_get (obj_set o k v) k = Some v.
Proof.
  induction o as [|[k' v'] o IH]; simpl.
  - now rewrite String.eqb_refl.
  - destruct (String.eqb k' k) eqn:E; simpl; now rewrite E.
Qed.

Lemma obj_get_set_ne o k k' v :
  k <> k' -> obj_get (obj_set o k v) k' = obj_get o k'.
Proof.
  intros Hne. induction o as [|[k0 v0] o IH]; simpl.
  - destruct (String.eqb_spec k k'); [contradiction | reflexivity].
  - destruct (String.eqb_spec k0 k) as [->|Hk]; simpl.
    + destruct (String.eqb_spec k k'); [contradiction | reflexivity].
    + now rewrite IH.
Qed.

Lemma obj_delete_set_fresh o k v :
  obj_get o k = None -> obj_delete (obj_set o k v) k = o.
Proof.
  induction o as [|[k' v'] o IH]; simpl.
  - now rewrite String.eqb_refl.
  - destruct (String.eqb k' k) eqn:E; [discriminate|].
    intros Hg. simpl. rewrite E. now rewrite IH.
Qed.

Lemma obj_get_In o k v : obj_get o k = Some v -> In (k, v) o.
Proof.
  induction o as [|[k' v'] o IH]; simpl; [discriminate|].
  destruct (String.eqb_spec k' k) as [->|Hne].
  - intros [= ->]. now left.
  - intros Hg. right. now apply IH.
Qed.

Lemma obj_get_None o k : obj_get o k = None <-> ~ In k (obj_keys o).
Proof.
  induction o as [|[k' v'] o IH]; simpl; [tauto|].
  destruct (String.eqb_spec k' k) as [->|Hne].
  - split; [discriminate | intros Hn; exfalso; apply Hn; now left].
  - rewrite IH. unfold obj_keys. simpl. tauto.
Qed.

End ObjFacts.

Lemma obj_get_delete_eq {V} (o : list (string * V)) k : obj_get (obj_delete o k) k = None.
Proof.
  induction o as [|[k' v'] o IH]; simpl; [reflexivity|].
  destruct (String.eqb k' k) eqn:E; simpl; [assumption | now rewrite E].
Qed.

Lemma obj_get_delete_ne {V} (o : list (string * V)) k k' :
  k <> k' -> obj_get (obj_delete o k) k' = obj_get o k'.
Proof.
  intros Hne. induction o as [|[k0 v0] o IH]; simpl; [reflexivity|].
  destruct (String.eqb_spec k0 k) as [->|Hk]; simpl.
  - destruct (String.eqb_spec k k'); [contradiction | assumption].
  - now rewrite IH.
Qed.

(** Deleting a key forgets that it was written. *)
Lemma obj_delete_set {V} (o : list (string * V)) k v :
  obj_delete (obj_set o k v) k = obj_delete o k.
Proof.
  induction o as [|[k' v'] o IH]; simpl.
  - now rewrite String.eqb_refl.
  - destruct (String.eqb k' k) eqn:E; simpl; rewrite E; [reflexivity | now rewrite IH].
Qed.

Lemma obj_delete_absent {V} (o : list (string * V)) k :
  obj_get o k = None -> obj_delete o k = o.
Proof.
  induction o as [|[k' v'] o IH]; simpl; [reflexivity|].
  destruct (String.eqb k' k); [discriminate|]. intros Hg. now rewrite IH.
Qed.

(** ** Lists and the store of elements *)

Lemma findIndex_None {A} (p : A -> bool) (l : list A) :
  findIndex p l = None <-> forall x, In x l -> p x = false.
Proof.
  induction l as [|a l IH]; simpl.
  - split; [intros _ x [] | reflexivity].
  - destruct (p a) eqn:Ea.
    + split; [discriminate|]. intros Hall.
      specialize (Hall a (or_introl eq_refl)). congruence.
    + destruct (findIndex p l) as [[i y]|].
      * split; [discriminate|]. intros Hall.
        assert (Some (i, y) = None) as E; [|discriminate E].
        apply IH. intros x Hx. apply Hall. now right.
      * split; [|reflexivity]. intros _ x [<-|Hx]; [assumption|].
        now apply (proj1 IH).
Qed.

Lemma findIndex_last {A} (p : A -> bool) (l : list A) x :
  findIndex p l = None -> p x = true ->
  findIndex p (l ++ [x]) = Some (length l, x).
Proof.
  induction l as [|a l IH]; simpl; intros Hl Hx.
  - now rewrite Hx.
  - destruct (p a); [discriminate|].
    destruct (findIndex p l) as [[j y]|]; [discriminate|].
    now rewrite IH.
Qed.

Lemma delete_last {A} (l : list A) x : delete (length l) (l ++ [x]) = l.
Proof. induction l as [|a l IH]; simpl; [reflexivity | now rewrite IH]. Qed.

Lemma has_id_track_ids id l :
  (forall a, In a l -> has_id id a = false) <-> ~ In id (track_ids l).
Proof.
  unfold track_ids, has_id. rewrite in_map_iff. split.
  - intros Hall (a & <- & Ha). specialize (Hall a Ha).
    now rewrite String.eqb_refl in Hall.
  - intros Hn a Ha. destruct (String.eqb_spec (Sound.id (ActiveSound.sound a)) id);
      [|reflexivity].
    exfalso. apply Hn. now exists a.
Qed.

Lemma findIndex_inactive id l :
  ~ In id (track_ids l) -> findIndex (has_id id) l = None.
Proof. intros Hn. apply findIndex_None. now apply has_id_track_ids. Qed.

Lemma set_gains_none p gain l b :
  (forall a, In a l -> p a = false) -> set_gains p gain l b = b.
Proof.
  unfold set_gains. revert b. induction l as [|a l IH]; simpl; intros b Hall.
  - reflexivity.
  - rewrite (Hall a (or_introl eq_refl)). apply IH.
    intros x Hx. apply Hall. now right.
Qed.

Lemma map_unless {A} (p : A -> bool) (f : A -> A) (l : list A) :
  (forall a, In a l -> p a = false) ->
  map (fun a => if p a then f a else a) l = l.
Proof.
  induction l as [|a l IH]; simpl; intros Hall; [reflexivity|].
  rewrite (Hall a (or_introl eq_refl)). f_equal. apply IH.
  intros x Hx. apply Hall. now right.
Qed.

(** ** The reducer *)

Section ReducerFacts.
Context `{Catalog}.

(** The state after the toggle-on of a sound that is not active, below
    capacity. *)
Lemma toggle_sound_new b state sound :
  ~ In (Sound.id sound) (track_ids (activeSounds state)) ->
  length (activeSounds state) < MAX_CONCURRENT_SOUNDS ->
  exists volume,
    volume =
      match obj_get (soundStates state) (Sound.id sound) with
      | Some st =>
          if truthy (SoundState.volume st) then (SoundState.volume st / 100)%float
          else 1%float
      | None => 1%float
      end /\
    snd (toggle_sound b state sound) =
      mkAudioState
        (activeSounds state ++ [ActiveSound.mk sound (length (audios b)) volume])
        (masterVolume state) (isPlaying state) (timer state) (timeRemaining state)
        (timerEndTime state)
        (obj_set (soundStates state) (Sound.id sound)
           (SoundState.mk (volume * 100)%float (Some (isPlaying state)))).
Proof.
  intros Hin Hlen. eexists. split; [reflexivity|].
  unfold toggle_sound. rewrite (findIndex_inactive _ _ Hin).
  destruct (Nat.leb_spec MAX_CONCURRENT_SOUNDS (length (activeSounds state))) as [Hge|_];
    [lia|].
  reflexivity.
Qed.

Lemma toggle_sound_full b state sound :
  ~ In (Sound.id sound) (track_ids (activeSounds state)) ->
  MAX_CONCURRENT_SOUNDS <= length (activeSounds state) ->
  toggle_sound b state sound = (b, state).
Proof.
  intros Hin Hlen. unfold toggle_sound. rewrite (findIndex_inactive _ _ Hin).
  destruct (Nat.leb_spec MAX_CONCURRENT_SOUNDS (length (activeSounds state))) as [_|Hlt];
    [reflexivity | lia].
Qed.

Lemma toggle_sound_off b state sound existingIndex existing :
  findIndex (has_id (Sound.id sound)) (activeSounds state)
    = Some (existingIndex, existing) ->
  toggle_sound b state sound =
    (store_state (obj_delete (soundStates state) (Sound.id sound))
       (on_audio (ActiveSound.audio existing) HTMLAudioElement.release b),
     mkAudioState (delete existingIndex (activeSounds state)) (masterVolume state)
       (if Nat.eqb (length (delete existingIndex (activeSounds state))) 0
        then false else isPlaying state)
       (timer state) (timeRemaining state) (timerEndTime state)
       (obj_delete (soundStates state) (Sound.id sound))).
Proof. intros E. unfold toggle_sound. now rewrite E. Qed.

(** C5, as amended: for a sound that is not active, whose track would get
    a gain in range, toggling it on and then off gives back the active track
    list, and leaves every saved entry of another sound as it was.  Below
    capacity the saved settings come back without the entry of that sound:
    they are the settings before with that entry deleted.  At capacity both
    toggles are rejected and the state is the one before.  So the saved
    settings are restored exactly when the sound had no saved entry or the
    track list was full. *)
Theorem toggle_on_off_restores b state sound :
  ~ In (Sound.id sound) (track_ids (activeSounds state)) ->
  in_range state (TOGGLE_SOUND sound) = true ->
  let on := toggle_sound b state sound in
  let off := toggle_sound (fst on) (snd on) sound in
  activeSounds (snd off) = activeSounds state /\
  (forall k, k <> Sound.id sound ->
     obj_get (soundStates (snd off)) k = obj_get (soundStates state) k) /\
  (length (activeSounds state) < MAX_CONCURRENT_SOUNDS ->
   soundStates (snd off) = obj_delete (soundStates state) (Sound.id sound) /\
   obj_get (soundStates (snd off)) (Sound.id sound) = None) /\
  (MAX_CONCURRENT_SOUNDS <= length (activeSounds state) -> snd off = state) /\
  (obj_get (soundStates state) (Sound.id sound) = None ->
   soundStates (snd off) = soundStates state).
Proof.
  intros Hin _ on off.
  destruct (Nat.leb_spec MAX_CONCURRENT_SOUNDS (length (activeSounds state))) as [Hge|Hlt].
  - subst off on. rewrite (toggle_sound_full _ _ _ Hin Hge). simpl.
    rewrite (toggle_sound_full _ _ _ Hin Hge). simpl.
    split; [reflexivity|]. split; [reflexivity|]. split; [lia|].
    split; reflexivity.
  - destruct (toggle_sound_new b state sound Hin Hlt) as (volume & _ & Hon).
    fold on in Hon. subst off.
    set (track := ActiveSound.mk sound (length (audios b)) volume) in Hon.
    assert (findIndex (has_id (Sound.id sound)) (activeSounds (snd on))
            = Some (length (activeSounds state), track)) as Hfind.
    { rewrite Hon. simpl. apply findIndex_last.
      - now apply findIndex_inactive.
      - unfold has_id. simpl. apply String.eqb_refl. }
    rewrite (toggle_sound_off _ _ _ _ _ Hfind). rewrite Hon. simpl.
    rewrite delete_last, obj_delete_set.
    split; [reflexivity|]. split.
    { intros k Hk. apply obj_get_delete_ne. congruence. }
    split.
    { intros _. split; [reflexivity | apply obj_get_delete_eq]. }
    split; [lia|]. apply obj_delete_absent.
Qed.

Lemma truthy_false x :
  truthy x = false <-> PrimFloat.is_zero x = true \/ PrimFloat.is_nan x = true.
Proof.
  unfold truthy. destruct (PrimFloat.is_zero x), (PrimFloat.is_nan x); simpl;
    intuition discriminate.
Qed.

(** C9, as amended: a toggle-on of a sound that is not active, below
    capacity, with a gain in range (the volume it takes times the master
    volume is from 0 to 1), appends one track for it; its volume is the
    saved volume divided by 100 when a saved entry exists and its volume is
    truthy (not 0, not NaN), and the default 1 when there is no saved entry
    or the saved volume is 0. *)
Theorem toggle_on_volume b state sound :
  ~ In (Sound.id sound) (track_ids (activeSounds state)) ->
  length (activeSounds state) < MAX_CONCURRENT_SOUNDS ->
  gain_ok (toggle_volume state sound * masterVolume state) = true ->
  exists track,
    activeSounds (snd (toggle_sound b state sound)) = activeSounds state ++ [track] /\
    ActiveSound.sound track = sound /\
    (forall st,
        obj_get (soundStates state) (Sound.id sound) = Some st ->
        truthy (SoundState.volume st) = true ->
        ActiveSound.volume track = (SoundState.volume st / 100)%float) /\
    (forall st,
        obj_get (soundStates state) (Sound.id sound) = Some st ->
        truthy (SoundState.volume st) = false ->
        ActiveSound.volume track = 1%float) /\
    (obj_get (soundStates state) (Sound.id sound) = None ->
     ActiveSound.volume track = 1%float).
Proof.
  intros Hin Hlen _.
  destruct (toggle_sound_new b state sound Hin Hlen) as (volume & Hvol & Hon).
  exists (ActiveSound.mk sound (length (audios b)) volume).
  rewrite Hon. simpl. split; [reflexivity|]. split; [reflexivity|].
  repeat split.
  - intros st Hst Ht. now rewrite Hvol, Hst, Ht.
  - intros st Hst Ht. now rewrite Hvol, Hst, Ht.
  - intros Hst. now rewrite Hvol, Hst.
Qed.

(** C10: setting the volume of a sound with no active track leaves the
    track list and every audio element as they were, and writes the entry
    of that id in the saved settings: volume [v * 100], with the playing
    flag of the entry it overwrites and none when it creates the entry.  The
    settings are persisted, so what is stored has an id that is not an
    active track. *)
Theorem set_volume_inactive b state soundId v :
  ~ In soundId (track_ids (activeSounds state)) ->
  let after := set_volume b state soundId v in
  activeSounds (snd after) = activeSounds state /\
  audios (fst after) = audios b /\
  obj_get (soundStates (snd after)) soundId =
    Some (SoundState.mk (v * 100)%float
            (match obj_get (soundStates state) soundId with
             | Some st => SoundState.isPlaying st
             | None => None
             end)) /\
  (obj_get (soundStates state) soundId = None ->
   obj_get (soundStates (snd after)) soundId = Some (SoundState.mk (v * 100)%float None)) /\
  stored_state (fst after) = Some (soundStates (snd after)) /\
  ~ In soundId (track_ids (activeSounds (snd after))).
Proof.
  intros Hin after. subst after. unfold set_volume. simpl.
  pose proof (proj2 (has_id_track_ids soundId (activeSounds state)) Hin) as Hall.
  rewrite (map_unless _ _ _ Hall), (set_gains_none _ _ _ _ Hall).
  rewrite obj_get_set_eq. unfold with_saved_volume.
  repeat split; try assumption.
  - destruct (obj_get (soundStates state) soundId); reflexivity.
  - intros E. now rewrite E.
Qed.

End ReducerFacts.

(** ** The store of audio elements *)

Lemma is_paused_pause b h : is_paused (on_audio h HTMLAudioElement.pause b) h.
Proof.
  intros a. unfold on_audio. simpl. rewrite list_lookup_alter_eq.
  destruct (audios b !! h); simpl; [|intros [=]]. now intros [= <-].
Qed.

Lemma is_paused_pause_other b h h' :
  is_paused b h -> is_paused (on_audio h' HTMLAudioElement.pause b) h.
Proof.
  intros Hp a. unfold on_audio. simpl.
  destruct (decide (h' = h)) as [->|Hne].
  - rewrite list_lookup_alter_eq. destruct (audios b !! h); simpl; [|intros [=]].
    now intros [= <-].
  - rewrite list_lookup_alter_ne by assumption. apply Hp.
Qed.

Lemma pause_all_keeps l b h : is_paused b h -> is_paused (pause_all l b) h.
Proof.
  unfold pause_all. revert b. induction l as [|a l IH]; simpl; intros b Hp.
  - assumption.
  - apply IH. now apply is_paused_pause_other.
Qed.

Lemma pause_all_paused l b a :
  In a l -> is_paused (pause_all l b) (ActiveSound.audio a).
Proof.
  unfold pause_all. revert b. induction l as [|x l IH]; simpl; intros b [].
  - subst x. apply (pause_all_keeps l). apply is_paused_pause.
  - now apply IH.
Qed.

(** ** The session manager *)

Section ManagerFacts.
Context `{Catalog}.

Lemma clearInterval_not_live i b : ~ In i (intervals (clearInterval i b)).
Proof.
  unfold clearInterval. simpl. rewrite filter_In. intros [_ E].
  now rewrite Pos.eqb_refl in E.
Qed.

Lemma stopTimer_stopped m : timerInterval (stopTimer m) = None.
Proof. unfold stopTimer. destruct (timerInterval m) eqn:E; [reflexivity | assumption]. Qed.

Lemma stopTimer_state m : state (stopTimer m) = state m.
Proof. unfold stopTimer. now destruct (timerInterval m). Qed.

Lemma stopTimer_broadcasts m : broadcasts (stopTimer m) = broadcasts m.
Proof. unfold stopTimer. now destruct (timerInterval m). Qed.

Lemma stopTimer_notify m : stopTimer (notify m) = notify (stopTimer m).
Proof. destruct m as [s [i|] ms log b]; reflexivity. Qed.

(** C8, as amended: [CANCEL_TIMER] and [SET_TIMER] with ["endless"] give the
    same state (timer endless, remaining time and deadline cleared) and the
    same broadcast; [cancelTimer] stops the tick loop at once, while
    [setTimer("endless")] leaves the interval armed, and the next run of its
    callback stops it without another state change, after which the two
    managers are equal. *)
Theorem cancel_vs_endless m :
  state (cancelTimer m) = state (setTimer Tendless m) /\
  timer (state (cancelTimer m)) = Tendless /\
  timeRemaining (state (cancelTimer m)) = None /\
  timerEndTime (state (cancelTimer m)) = None /\
  broadcasts (cancelTimer m) = broadcasts (setTimer Tendless m) /\
  timerInterval (cancelTimer m) = None /\
  (forall i, timerInterval m = Some i ->
             ~ In i (intervals (browser (cancelTimer m)))) /\
  timerInterval (setTimer Tendless m) = timerInterval m /\
  intervals (browser (setTimer Tendless m)) = intervals (browser m) /\
  timerTick (setTimer Tendless m) = cancelTimer m.
Proof.
  unfold cancelTimer, setTimer, dispatch, timerTick. simpl.
  rewrite !stopTimer_notify. simpl.
  rewrite stopTimer_state, stopTimer_broadcasts, stopTimer_stopped.
  repeat split; try reflexivity.
  intros i Hi. unfold stopTimer. simpl. rewrite Hi. simpl.
  apply clearInterval_not_live.
Qed.

Lemma timerTick_expired m deadline :
  timerEndTime (state m) = Some deadline ->
  deadline <> 0%Z ->
  (deadline <= clock (browser m))%Z ->
  timerTick m =
    stopTimer
      (dispatch CANCEL_TIMER
         (dispatch PAUSE_ALL_SOUNDS (dispatch (UPDATE_TIMER (Some 0%Z)) m))).
Proof.
  intros Hend Hnz Hpast. unfold timerTick. rewrite Hend.
  destruct (Z.eqb_spec deadline 0); [contradiction|].
  destruct (Z.leb_spec (deadline - clock (browser m)) 0); [reflexivity | lia].
Qed.

Lemma existsb_live i l : In i l -> existsb (Pos.eqb i) l = true.
Proof.
  intros Hin. apply existsb_exists. exists i. split; [assumption | apply Pos.eqb_refl].
Qed.

(** C2: [SET_TIMER] with ["15min"] sets the remaining time to 900000 ms and
    the deadline 900000 ms after the clock, and arms the tick loop.  When a
    later run of the loop's callback finds the deadline passed, the
    listeners see three states in this order: remaining time 0; then
    [isPlaying] false, with every active track paused; then the timer
    endless with remaining time and deadline cleared.  After that the
    interval is cleared. *)
Theorem countdown_15min m :
  (0 <= clock (browser m))%Z ->
  let armed := setTimer T15min m in
  timer (state armed) = T15min /\
  timeRemaining (state armed) = Some 900000%Z /\
  timerEndTime (state armed) = Some (clock (browser m) + 900000)%Z /\
  (exists i, timerInterval armed = Some i /\ In i (intervals (browser armed))) /\
  forall m' i t,
    timerEndTime (state m') = timerEndTime (state armed) ->
    timerInterval m' = Some i ->
    In i (intervals (browser m')) ->
    (clock (browser m) + 900000 <= t)%Z ->
    let stopped := interval_fires i t m' in
    exists s1 s2 s3,
      broadcasts stopped = broadcasts m' ++ [s1; s2; s3] /\
      (timeRemaining s1 = Some 0%Z /\ isPlaying s1 = isPlaying (state m') /\
       timer s1 = timer (state m') /\ timerEndTime s1 = timerEndTime (state m')) /\
      (isPlaying s2 = false /\ timeRemaining s2 = Some 0%Z /\
       timer s2 = timer (state m') /\ timerEndTime s2 = timerEndTime (state m') /\
       forall a, In a (activeSounds (state m')) ->
                 is_paused (browser stopped) (ActiveSound.audio a)) /\
      (timer s3 = Tendless /\ timeRemaining s3 = None /\ timerEndTime s3 = None /\
       isPlaying s3 = false) /\
      state stopped = s3 /\
      timerInterval stopped = None /\
      ~ In i (intervals (browser stopped)).
Proof.
  intros Hclock armed. subst armed.
  split; [reflexivity|]. split; [reflexivity|]. split; [reflexivity|]. split.
  { unfold setTimer, dispatch, startTimer. simpl.
    destruct (timerInterval m); simpl; eexists; (split; [reflexivity|]);
      apply in_or_app; right; now left. }
  intros m' i t Hend Hint Hlive Ht stopped. subst stopped.
  unfold interval_fires. simpl. rewrite (existsb_live _ _ Hlive).
  simpl in Hend.
  rewrite (timerTick_expired _ (clock (browser m) + 900000)%Z);
    [| exact Hend | lia | simpl; lia].
  destruct m' as [s ti ms log b]. simpl in Hend, Hint, Hlive. subst ti.
  unfold dispatch, stopTimer. simpl.
  do 3 eexists. split.
  { rewrite <- !app_assoc. simpl. reflexivity. }
  simpl. repeat split; try reflexivity.
  - intros a Ha el.
    apply (pause_all_paused (activeSounds s) (at_time t b) a Ha).
  - apply clearInterval_not_live.
Qed.

Lemma last_ascii_append (s t : string) :
  t <> EmptyString -> last_ascii (s ++ t) = last_ascii t.
Proof.
  intros Ht. induction s as [|c s IH]; simpl; [reflexivity|].
  rewrite IH. destruct (s ++ t)%string eqn:E; [|reflexivity].
  destruct s; simpl in E; [contradiction | discriminate].
Qed.

Lemma existsb_has_id id l :
  existsb (has_id id) l = true <-> In id (track_ids l).
Proof.
  rewrite existsb_exists. unfold track_ids, has_id. rewrite in_map_iff.
  split; intros (a & Ha & Hb).
  - exists a. split; [now apply String.eqb_eq | assumption].
  - exists a. split; [assumption | now apply String.eqb_eq].
Qed.

Lemma toast_not_capacity name ending :
  last_ascii ending <> Some "!"%char -> ending <> EmptyString ->
  mkToast None (name ++ ending) <> capacity_toast.
Proof.
  intros Hlast Hne [= Hd]. apply (f_equal last_ascii) in Hd.
  rewrite last_ascii_append in Hd by assumption. now apply Hlast.
Qed.

(** C4, as amended: the toggle of a 4th distinct sound, while 3 are active,
    is a silent no-op of the engine: the reducer returns the browser and the
    state it was given, and [toggleSound] of the manager, which returns
    nothing, only notifies the listeners of the unchanged state.  The
    rejection is reported by the provider, from its own copy of the state:
    when the copy shows the sound inactive and 3 tracks or more, as a
    current copy does, the provider shows the capacity toast, which is none
    of its other toasts, and does not call the manager; when the copy is
    behind, the manager rejects the toggle all the same and the provider
    shows the toast of a removal or of a start. *)
Theorem capacity_toggle_reported m sound :
  length (activeSounds (state m)) = MAX_CONCURRENT_SOUNDS ->
  ~ In (Sound.id sound) (track_ids (activeSounds (state m))) ->
  audioReducer (browser m) (state m) (TOGGLE_SOUND sound) = (browser m, state m) /\
  toggleSound sound m = notify m /\
  Provider_toggleSound (state m) sound m = (m, capacity_toast) /\
  (forall audioState,
     ~ In (Sound.id sound) (track_ids (activeSounds audioState)) ->
     MAX_CONCURRENT_SOUNDS <= length (activeSounds audioState) ->
     Provider_toggleSound audioState sound m = (m, capacity_toast)) /\
  (forall audioState,
     In (Sound.id sound) (track_ids (activeSounds audioState)) ->
     Provider_toggleSound audioState sound m
     = (notify m, mkToast None (Sound.name sound ++ " has been removed"))) /\
  (forall audioState,
     ~ In (Sound.id sound) (track_ids (activeSounds audioState)) ->
     length (activeSounds audioState) < MAX_CONCURRENT_SOUNDS ->
     Provider_toggleSound audioState sound m
     = (notify m, mkToast None (Sound.name sound ++ " is now playing"))) /\
  mkToast None (Sound.name sound ++ " has been removed") <> capacity_toast /\
  mkToast None (Sound.name sound ++ " is now playing") <> capacity_toast.
Proof.
  intros Hlen Hin.
  assert (audioReducer (browser m) (state m) (TOGGLE_SOUND sound) = (browser m, state m))
    as Hreducer.
  { simpl. apply toggle_sound_full; [assumption | lia]. }
  assert (toggleSound sound m = notify m) as Hmanager.
  { unfold toggleSound, dispatch. rewrite Hreducer. now destruct m. }
  assert (forall audioState,
            ~ In (Sound.id sound) (track_ids (activeSounds audioState)) ->
            MAX_CONCURRENT_SOUNDS <= length (activeSounds audioState) ->
            Provider_toggleSound audioState sound m = (m, capacity_toast)) as Hfull.
  { intros audioState Hout Hge. unfold Provider_toggleSound.
    destruct (existsb (has_id (Sound.id sound)) (activeSounds audioState)) eqn:E.
    - apply existsb_has_id in E. contradiction.
    - apply Nat.leb_le in Hge. unfold MAX_CONCURRENT_SOUNDS in Hge. now rewrite Hge. }
  split; [exact Hreducer|]. split; [exact Hmanager|].
  split; [apply Hfull; [assumption | lia]|]. split; [exact Hfull|].
  split; [|split; [|split]].
  - intros audioState Hactive. unfold Provider_toggleSound.
    apply existsb_has_id in Hactive. rewrite Hactive. simpl. now rewrite Hmanager.
  - intros audioState Hout Hlt. unfold Provider_toggleSound.
    destruct (existsb (has_id (Sound.id sound)) (activeSounds audioState)) eqn:E.
    + apply existsb_has_id in E. contradiction.
    + apply Nat.leb_gt in Hlt. unfold MAX_CONCURRENT_SOUNDS in Hlt. rewrite Hlt. simpl.
      now rewrite Hmanager.
  - apply toast_not_capacity; discriminate.
  - apply toast_not_capacity; discriminate.
Qed.

(** *** Swap notifications *)

Lemma swap_audio_other p newAudio m h :
  h <> newAudio ->
  audios (browser (swap_audio p newAudio m)) !! h = audios (browser m) !! h.
Proof.
  intros Hne. unfold swap_audio. simpl.
  generalize (browser m). induction (activeSounds (state m)) as [|a l IH];
    simpl; intros b; [reflexivity|].
  rewrite IH. destruct (p a); [|reflexivity].
  unfold on_audio. simpl. apply list_lookup_alter_ne. congruence.
Qed.

Lemma swap_audio_volume p newAudio m h :
  HTMLAudioElement.volume <$> audios (browser (swap_audio p newAudio m)) !! h
  = HTMLAudioElement.volume <$> audios (browser m) !! h.
Proof.
  unfold swap_audio. simpl.
  generalize (browser m). induction (activeSounds (state m)) as [|a l IH];
    simpl; intros b; [reflexivity|].
  rewrite IH. destruct (p a); [|reflexivity].
  unfold on_audio. simpl. destruct (decide (newAudio = h)) as [->|Hne].
  - rewrite list_lookup_alter_eq. destruct (audios b !! h) as [el|]; [|reflexivity].
    simpl. f_equal. unfold sync_playing.
    destruct (isPlaying (state m)), (HTMLAudioElement.paused el); reflexivity.
  - now rewrite list_lookup_alter_ne.
Qed.

Lemma handleCrossfade_other oldAudio newAudio m h :
  h <> newAudio ->
  audios (browser (handleCrossfade oldAudio newAudio m)) !! h = audios (browser m) !! h.
Proof.
  intros Hne. unfold handleCrossfade.
  repeat match goal with
         | |- context [match ?x with _ => _ end] => destruct x
         end; try reflexivity; now apply swap_audio_other.
Qed.

Lemma handleCrossfade_volume oldAudio newAudio m h :
  HTMLAudioElement.volume <$> audios (browser (handleCrossfade oldAudio newAudio m)) !! h
  = HTMLAudioElement.volume <$> audios (browser m) !! h.
Proof.
  unfold handleCrossfade.
  repeat match goal with
         | |- context [match ?x with _ => _ end] => destruct x
         end; try reflexivity; apply swap_audio_volume.
Qed.

(** The swap replaces the element of the track that holds the old one. *)
Lemma handleCrossfade_swaps oldAudio newAudio m a :
  In a (activeSounds (state m)) ->
  ActiveSound.audio a = oldAudio ->
  In (ActiveSound.set_audio newAudio a)
    (activeSounds (state (handleCrossfade oldAudio newAudio m))) /\
  broadcasts (handleCrossfade oldAudio newAudio m)
  = broadcasts m ++ [state (handleCrossfade oldAudio newAudio m)].
Proof.
  intros Ha Hold. unfold handleCrossfade.
  destruct (find _ (activeSounds (state m))) eqn:E.
  - unfold swap_audio. simpl. split; [|reflexivity].
    apply in_map_iff. exists a. split; [|assumption].
    now rewrite Hold, Nat.eqb_refl.
  - exfalso. apply (find_none _ _ E) in Ha. simpl in Ha.
    now rewrite Hold, Nat.eqb_refl in Ha.
Qed.

(** *** The last step of a crossfade *)

(** The step of a running fade that reaches [fadeSteps] clears the
    interval, leaves the incoming element at the fade's target gain, the
    outgoing one paused with its source emptied, and hands both to
    [handleCrossfade]. *)
Lemma fadeStep_completes f m outgoing :
  audios (browser m) !! fade_audio f = Some outgoing ->
  HTMLAudioElement.paused outgoing = false ->
  isCurrentlyPlaying f = true ->
  (fadeSteps <=? currentStep f + 1)%float = true ->
  fade_newAudio f <> fade_audio f ->
  fade_newAudio f < length (audios (browser m)) ->
  let after := fadeStep f m in
  snd after = None /\
  HTMLAudioElement.volume <$> audios (browser (fst after)) !! fade_newAudio f
    = Some (targetVolume f) /\
  (exists released,
      audios (browser (fst after)) !! fade_audio f = Some released /\
      HTMLAudioElement.src released = "" /\
      HTMLAudioElement.paused released = true) /\
  forall a,
    In a (activeSounds (state m)) -> ActiveSound.audio a = fade_audio f ->
    In (ActiveSound.set_audio (fade_newAudio f) a) (activeSounds (state (fst after))) /\
    broadcasts (fst after) = broadcasts m ++ [state (fst after)].
Proof.
  intros Hout Hplaying Hcur Hlast Hne Hnew after. subst after.
  unfold fadeStep. rewrite Hout, Hplaying, Hcur, Hlast. simpl.
  split; [reflexivity|]. split; [|split].
  - rewrite handleCrossfade_volume. simpl. rewrite list_lookup_alter_eq.
    rewrite list_lookup_alter_ne by congruence. rewrite list_lookup_alter_eq.
    rewrite list_lookup_alter_ne by congruence.
    destruct (lookup_lt_is_Some_2 _ _ Hnew) as [el ->]. reflexivity.
  - rewrite handleCrossfade_other by congruence. simpl.
    rewrite list_lookup_alter_ne by congruence. rewrite list_lookup_alter_eq.
    rewrite list_lookup_alter_ne by congruence. rewrite list_lookup_alter_eq.
    rewrite Hout. simpl. eexists. split; [reflexivity|]. now split.
  - intros a Ha Haudio.
    match goal with
    | |- context [handleCrossfade _ _ ?m'] =>
        apply (handleCrossfade_swaps (fade_audio f) (fade_newAudio f) m' a Ha Haudio)
    end.
Qed.

(** A step of a running fade that does not reach [fadeSteps] changes the two
    gains and nothing else. *)
Lemma fadeStep_continues f m outgoing :
  audios (browser m) !! fade_audio f = Some outgoing ->
  HTMLAudioElement.paused outgoing = false ->
  isCurrentlyPlaying f = true ->
  (fadeSteps <=? currentStep f + 1)%float = false ->
  fade_newAudio f <> fade_audio f ->
  exists m' outgoing',
    fadeStep f m =
      (m', Some (mkFade (fade_audio f) (fade_newAudio f) true (oldInitialVolume f)
                   (targetVolume f) (currentStep f + 1)%float)) /\
    state m' = state m /\
    broadcasts m' = broadcasts m /\
    length (audios (browser m')) = length (audios (browser m)) /\
    audios (browser m') !! fade_audio f = Some outgoing' /\
    HTMLAudioElement.paused outgoing' = false.
Proof.
  intros Hout Hplaying Hcur Hmore Hne.
  unfold fadeStep. rewrite Hout, Hplaying, Hcur, Hmore. simpl.
  eexists. eexists. split; [reflexivity|]. simpl.
  rewrite !length_alter. repeat split.
  - rewrite list_lookup_alter_ne by congruence. rewrite list_lookup_alter_eq.
    rewrite Hout. reflexivity.
  - simpl. assumption.
Qed.

Lemma step_count_running k :
  k < 59 -> (fadeSteps <=? step_count k + 1)%float = false.
Proof.
  intros Hk. do 59 (destruct k as [|k]; [vm_compute; reflexivity|]). lia.
Qed.

(** A fade that has run [j] steps, whose outgoing element keeps playing,
    completes with the remaining [k] runs of its callback, [j + k = 60]. *)
Lemma fade_runs_to_completion k :
  forall j f m outgoing,
    j + S k = 60 ->
    currentStep f = step_count j ->
    audios (browser m) !! fade_audio f = Some outgoing ->
    HTMLAudioElement.paused outgoing = false ->
    isCurrentlyPlaying f = true ->
    fade_newAudio f <> fade_audio f ->
    fade_newAudio f < length (audios (browser m)) ->
    let after := fadeSteps_run (S k) f m in
    snd after = None /\
    HTMLAudioElement.volume <$> audios (browser (fst after)) !! fade_newAudio f
      = Some (targetVolume f) /\
    (exists released,
        audios (browser (fst after)) !! fade_audio f = Some released /\
        HTMLAudioElement.src released = "" /\
        HTMLAudioElement.paused released = true) /\
    forall a,
      In a (activeSounds (state m)) -> ActiveSound.audio a = fade_audio f ->
      In (ActiveSound.set_audio (fade_newAudio f) a) (activeSounds (state (fst after))) /\
      broadcasts (fst after) = broadcasts m ++ [state (fst after)].
Proof.
  induction k as [|k IH]; intros j f m outgoing Hsum Hstep Hout Hplaying Hcur Hne Hnew.
  - assert (j = 59) as -> by lia.
    assert ((fadeSteps <=? currentStep f + 1)%float = true) as Hlast
      by (rewrite Hstep; vm_compute; reflexivity).
    pose proof (fadeStep_completes f m outgoing Hout Hplaying Hcur Hlast Hne Hnew)
      as Hdone.
    cbn [fadeSteps_run]. destruct (fadeStep f m) as [m' [f'|]]; simpl in Hdone.
    + destruct Hdone as [Hnone _]. discriminate Hnone.
    + exact Hdone.
  - assert ((fadeSteps <=? currentStep f + 1)%float = false) as Hmore
      by (rewrite Hstep; apply step_count_running; lia).
    destruct (fadeStep_continues f m outgoing Hout Hplaying Hcur Hmore Hne)
      as (m' & outgoing' & Hrun & Hstate & Hlog & Hlen & Hout' & Hplaying').
    change (fadeSteps_run (S (S k)) f m)
      with (match fadeStep f m with
            | (m', Some f') => fadeSteps_run (S k) f' m'
            | (m', None) => (m', None)
            end).
    rewrite Hrun.
    specialize (IH (S j)
                  (mkFade (fade_audio f) (fade_newAudio f) true (oldInitialVolume f)
                     (targetVolume f) (currentStep f + 1)%float)
                  m' outgoing').
    simpl in IH. rewrite Hstate, Hlog, Hlen in IH.
    apply IH; try assumption; [lia | now rewrite Hstep | reflexivity].
Qed.

(** The target gain of a fade is the product of the volume and the master
    volume the listener of the outgoing element was attached with. *)
Lemma handleTimeUpdate_target h currentTime duration b b' f :
  handleTimeUpdate h currentTime duration b = (b', Some f) ->
  exists outgoing l,
    audios b !! h = Some outgoing /\
    HTMLAudioElement.listener outgoing = Some l /\
    fade_audio f = h /\
    fade_newAudio f = length (audios b) /\
    oldInitialVolume f = HTMLAudioElement.volume outgoing /\
    targetVolume f = (Listener.volume l * Listener.masterVolume l)%float /\
    currentStep f = 0%float.
Proof.
  unfold handleTimeUpdate.
  destruct (audios b !! h) as [outgoing|]; [|intros [=]].
  destruct (HTMLAudioElement.listener outgoing) as [l|] eqn:El; [|intros [=]].
  destruct (HTMLAudioElement.crossfadeTriggered outgoing); [intros [=]|].
  destruct (negb (truthy duration) || (duration =? infinity)%float); [intros [=]|].
  destruct (duration - 3 <=? currentTime)%float; [|intros [=]].
  simpl. intros [= _ <-]. exists outgoing, l. simpl.
  repeat split; try reflexivity; try assumption.
  apply length_alter.
Qed.

(** What a crossfade that runs to completion leaves: started by a
    [timeupdate] in the last 3 seconds of a playing element, after the 60
    runs of its callback the interval is cleared, the incoming element has
    exactly the gain [volume * masterVolume] of the values that the
    listener of the outgoing element captured, the outgoing element is
    paused with its source emptied, and the track that held it holds the
    incoming one, which the listeners are told. *)
Lemma crossfade_completes m h currentTime duration outgoing l :
  audios (browser m) !! h = Some outgoing ->
  HTMLAudioElement.listener outgoing = Some l ->
  HTMLAudioElement.crossfadeTriggered outgoing = false ->
  HTMLAudioElement.paused outgoing = false ->
  truthy duration = true ->
  (duration =? infinity)%float = false ->
  (duration - 3 <=? currentTime)%float = true ->
  let incoming := length (audios (browser m)) in
  let after := crossfade h currentTime duration 60 m in
  snd after = None /\
  HTMLAudioElement.volume <$> audios (browser (fst after)) !! incoming
    = Some (Listener.volume l * Listener.masterVolume l)%float /\
  (exists released,
      audios (browser (fst after)) !! h = Some released /\
      HTMLAudioElement.src released = "" /\
      HTMLAudioElement.paused released = true) /\
  forall a,
    In a (activeSounds (state m)) -> ActiveSound.audio a = h ->
    In (ActiveSound.set_audio incoming a) (activeSounds (state (fst after))) /\
    broadcasts (fst after) = broadcasts m ++ [state (fst after)].
Proof.
  intros Hout Hl Hfresh Hplaying Hduration Hfinite Hend incoming after.
  assert (h < length (audios (browser m))) as Hh
    by (apply lookup_lt_is_Some_1; eauto).
  subst after. unfold crossfade, handleTimeUpdate.
  rewrite Hout, Hl, Hfresh, Hduration, Hfinite, Hend, Hplaying.
  cbn -[fadeSteps_run]. rewrite length_alter. fold incoming.
  match goal with
  | |- context [with_browser ?b m] => set (armed := b)
  end.
  assert (audios armed !! h
          = Some (HTMLAudioElement.set_crossfadeTriggered true outgoing)) as Hout'.
  { subst armed. destruct (truthy_str (Sound.audioSrc (Listener.sound l))); simpl.
    - rewrite list_lookup_alter_ne by (unfold incoming; lia).
      rewrite lookup_app_l by (rewrite length_alter; lia).
      now rewrite list_lookup_alter_eq, Hout.
    - rewrite lookup_app_l by (rewrite length_alter; lia).
      now rewrite list_lookup_alter_eq, Hout. }
  assert (incoming < length (audios armed)) as Hnew.
  { subst armed. destruct (truthy_str (Sound.audioSrc (Listener.sound l))); simpl;
      rewrite ?length_alter, length_app, length_alter; simpl; unfold incoming; lia. }
  match goal with
  | |- context [fadeSteps_run 60 ?f _] =>
      apply (fade_runs_to_completion 59 0 f (with_browser armed m)
               (HTMLAudioElement.set_crossfadeTriggered true outgoing))
  end; try reflexivity; simpl; try assumption.
  unfold incoming. lia.
Qed.

End ManagerFacts.

(** ** Restoring the session at startup *)

Lemma positive_truthy x : (0 <? x)%float = true -> truthy x = true.
Proof.
  unfold truthy, PrimFloat.is_zero, PrimFloat.is_nan.
  rewrite FloatAxioms.ltb_spec, !FloatAxioms.eqb_spec.
  destruct (Prim2SF x) as [[]|[]| |s m e] eqn:E; cbn; try discriminate; auto.
  intros _. unfold SFeqb. simpl. rewrite Pos.compare_refl.
  replace (e ?= e)%Z with Eq by (symmetry; apply Z.compare_refl).
  destruct s; reflexivity.
Qed.

Section ObjOrder.
Context {V : Type}.
Implicit Types (o : list (string * V)) (k : string) (v : V).

Lemma obj_set_fresh o k v : obj_get o k = None -> obj_set o k v = o ++ [(k, v)].
Proof.
  induction o as [|[k' v'] o IH]; simpl; [reflexivity|].
  destruct (String.eqb k' k); [discriminate|]. intros E. now rewrite IH.
Qed.

Lemma obj_keys_set_present o k v :
  obj_get o k <> None -> obj_keys (obj_set o k v) = obj_keys o.
Proof.
  induction o as [|[k' v'] o IH]; simpl; [congruence|].
  destruct (String.eqb k' k); simpl; [reflexivity|]. intros E.
  unfold obj_keys in *. now rewrite IH.
Qed.

Lemma In_obj_set o k v k' v' :
  In (k', v') (obj_set o k v) -> (k', v') = (k, v) \/ In (k', v') o.
Proof.
  induction o as [|[k0 v0] o IH]; simpl.
  - intros [E|[]]. left. now symmetry.
  - destruct (String.eqb_spec k0 k) as [->|Hne]; simpl.
    + intros [E|Hin]; [left; now symmetry | right; now right].
    + intros [E|Hin]; [right; now left|].
      destruct (IH Hin); [now left | right; now right].
Qed.

Lemma obj_get_NoDup o k v :
  List.NoDup (obj_keys o) -> In (k, v) o -> obj_get o k = Some v.
Proof.
  induction o as [|[k' v'] o IH]; simpl; [intros _ []|].
  intros Hnd [E|Hin].
  - injection E as -> ->. now rewrite String.eqb_refl.
  - apply NoDup_cons_iff in Hnd as [Hk Hnd].
    destruct (String.eqb_spec k' k) as [->|Hne].
    + exfalso. apply Hk. unfold obj_keys. apply in_map_iff. now exists (k, v).
    + now apply IH.
Qed.

Lemma fold_obj_set_NoDup (g : string * V -> V) (l acc : list (string * V)) :
  List.NoDup (obj_keys (acc ++ l)) ->
  fold_left (fun acc entry => obj_set acc (fst entry) (g entry)) l acc
  = acc ++ map (fun entry => (fst entry, g entry)) l.
Proof.
  revert acc. induction l as [|[k v] l IH]; simpl; intros acc Hnd.
  - now rewrite app_nil_r.
  - rewrite obj_set_fresh.
    + rewrite IH.
      * now rewrite <- app_assoc.
      * unfold obj_keys in *. rewrite <- app_assoc. simpl.
        rewrite !map_app in *. simpl in *. exact Hnd.
    + apply obj_get_None. unfold obj_keys in *. rewrite map_app in Hnd. simpl in Hnd.
      apply NoDup_remove_2 in Hnd. intros Hin. apply Hnd. apply in_or_app. now left.
Qed.

End ObjOrder.

Section RestoreFacts.
Context `{Catalog}.

Lemma find_sound_id k sound : find_sound k = Some sound -> Sound.id sound = k.
Proof.
  unfold find_sound. intros E. apply find_some in E as [_ E].
  now apply String.eqb_eq.
Qed.

Lemma toggleSound_reducer sound m :
  state (toggleSound sound m) = snd (toggle_sound (browser m) (state m) sound) /\
  browser (toggleSound sound m) = fst (toggle_sound (browser m) (state m) sound).
Proof.
  unfold toggleSound, dispatch. simpl.
  destruct (toggle_sound (browser m) (state m) sound). now split.
Qed.

(** The elements after a toggle-on in a state that is not playing: one
    more, paused. *)
Lemma toggle_sound_new_audios b state sound :
  ~ In (Sound.id sound) (track_ids (activeSounds state)) ->
  length (activeSounds state) < MAX_CONCURRENT_SOUNDS ->
  isPlaying state = false ->
  exists created,
    audios (fst (toggle_sound b state sound)) = audios b ++ [created] /\
    HTMLAudioElement.paused created = true.
Proof.
  intros Hin Hlen Hplay. unfold toggle_sound.
  rewrite (findIndex_inactive _ _ Hin).
  destruct (Nat.leb_spec MAX_CONCURRENT_SOUNDS (length (activeSounds state))); [lia|].
  rewrite Hplay. simpl. eexists. split; reflexivity.
Qed.

Lemma restorable_app l l' : restorable (l ++ l') = restorable l ++ restorable l'.
Proof. unfold restorable. apply List.filter_app. Qed.

Lemma restorable_keys l k : In k (obj_keys (restorable l)) -> In k (obj_keys l).
Proof.
  unfold obj_keys, restorable. rewrite !in_map_iff.
  intros (e & He & Hin). apply filter_In in Hin as [Hin _]. now exists e.
Qed.

Lemma firstn_snoc_full {A} n (l : list A) x :
  n <= length l -> firstn n (l ++ [x]) = firstn n l.
Proof. intros Hn. rewrite firstn_app. replace (n - length l) with 0 by lia.
  simpl. apply app_nil_r. Qed.

Lemma firstn_short {A} n (l : list A) : length (firstn n l) < n -> firstn n l = l.
Proof.
  intros Hlt. apply firstn_all2. rewrite length_firstn in Hlt. lia.
Qed.

Lemma restored_start parsed m :
  List.NoDup (obj_keys parsed) ->
  isPlaying (state m) = false ->
  activeSounds (state m) = [] ->
  soundStates (state m)
  = fold_left
      (fun acc entry =>
         obj_set acc (fst entry)
           (SoundState.mk (SoundState.volume (snd entry)) (Some false)))
      parsed [] ->
  restored parsed [] (length (audios (browser m))) m.
Proof.
  intros Hnd Hplay Hact Hsaved.
  rewrite (fold_obj_set_NoDup
             (fun entry => SoundState.mk (SoundState.volume (snd entry)) (Some false))
             parsed [] Hnd) in Hsaved.
  simpl in Hsaved.
  assert (obj_keys (soundStates (state m)) = obj_keys parsed) as Hkeys.
  { rewrite Hsaved. unfold obj_keys. rewrite map_map. reflexivity. }
  constructor.
  - assumption.
  - now rewrite Hact.
  - rewrite Hact. intros a [].
  - assumption.
  - rewrite Hsaved. intros k st Hin. apply in_map_iff in Hin as (e & [= <- <-] & _).
    reflexivity.
  - intros k st Hin _. apply obj_get_NoDup; [now rewrite Hkeys|].
    rewrite Hsaved. apply in_map_iff. now exists (k, st).
  - intros h Hh a Hlook. apply lookup_ge_None_2 in Hh. congruence.
  - reflexivity.
Qed.

Lemma In_firstn {A} n (l : list A) x : In x (firstn n l) -> In x l.
Proof.
  intros Hin. rewrite <- (firstn_skipn n l). apply in_or_app. now left.
Qed.

Lemma obj_keys_app {V} (l l' : list (string * V)) :
  obj_keys (l ++ l') = obj_keys l ++ obj_keys l'.
Proof. unfold obj_keys. apply map_app. Qed.

(** An entry that is not restorable leaves everything as it is. *)
Lemma restored_skip parsed done entry first m :
  restorable [entry] = [] ->
  restored parsed done first m ->
  restored parsed (done ++ [entry]) first m.
Proof.
  intros Hskip [Hplay Hids Htracks Hkeys Hflags Hpend Hpaused Hstore].
  constructor; try assumption.
  - now rewrite restorable_app, Hskip, app_nil_r.
  - intros a Ha. destruct (Htracks a Ha) as (Hh & st & Hin & Hrest).
    split; [assumption|]. exists st. split; [|assumption].
    apply in_or_app. now left.
  - intros k st Hin Hk. apply Hpend; [assumption|].
    intros Hd. apply Hk. rewrite obj_keys_app. apply in_or_app. now left.
Qed.

Lemma restored_notify parsed done first m :
  restored parsed done first m -> restored parsed done first (notify m).
Proof. intros []. now constructor. Qed.

(** One turn of the [forEach] of [loadSavedState]. *)
Lemma restored_step parsed done rest k st first m :
  parsed = done ++ (k, st) :: rest ->
  List.NoDup (obj_keys parsed) ->
  restored parsed done first m ->
  restored parsed (done ++ [(k, st)]) first (restore_entry m (k, st)).
Proof.
  intros Hparsed Hnd Hinv.
  assert (~ In k (obj_keys done)) as Hfresh.
  { rewrite Hparsed, obj_keys_app in Hnd. simpl in Hnd.
    apply NoDup_remove_2 in Hnd. intros Hin. apply Hnd. apply in_or_app. now left. }
  assert (In (k, st) parsed) as Hentry.
  { rewrite Hparsed. apply in_or_app. right. now left. }
  unfold restore_entry.
  destruct (find_sound k) as [sound|] eqn:Efind;
    [|apply restored_skip; [unfold restorable; simpl; now rewrite Efind | assumption]].
  destruct (0 <? SoundState.volume st)%float eqn:Epos;
    [|apply restored_skip;
      [unfold restorable; simpl; now rewrite Efind, Epos | assumption]].
  assert (restorable [(k, st)] = [(k, st)]) as Hone.
  { unfold restorable. simpl. now rewrite Efind, Epos. }
  pose proof (find_sound_id _ _ Efind) as Hid.
  destruct Hinv as [Hplay Hids Htracks Hkeys Hflags Hpend Hpaused Hstore].
  assert (~ In (Sound.id sound) (track_ids (activeSounds (state m)))) as Hinactive.
  { rewrite Hid, Hids. intros Hin. apply In_firstn, restorable_keys in Hin.
    contradiction. }
  pose proof (Hpend k st Hentry Hfresh) as Hsaved.
  destruct (toggleSound_reducer sound m) as [Hstate Hbrowser].
  assert (length (track_ids (activeSounds (state m)))
          = length (activeSounds (state m))) as Hlen
    by (unfold track_ids; apply length_map).
  destruct (Nat.le_gt_cases MAX_CONCURRENT_SOUNDS (length (activeSounds (state m))))
    as [Hfull|Hroom].
  - (* at capacity: the toggle changes nothing *)
    rewrite (toggle_sound_full _ _ _ Hinactive Hfull) in Hstate, Hbrowser.
    simpl in Hstate, Hbrowser.
    constructor; rewrite ?Hstate, ?Hbrowser; try assumption.
    + rewrite restorable_app, Hone, obj_keys_app. simpl.
      rewrite firstn_snoc_full; [assumption|].
      rewrite Hids, length_firstn in Hlen. lia.
    + intros a Ha. destruct (Htracks a Ha) as (Hh & st' & Hin & Hrest).
      split; [assumption|]. exists st'. split; [|assumption].
      apply in_or_app. now left.
    + intros k' st' Hin Hk'. apply Hpend; [assumption|].
      intros Hd. apply Hk'. rewrite obj_keys_app. apply in_or_app. now left.
  - (* below capacity: a paused track at the saved volume *)
    destruct (toggle_sound_new (browser m) (state m) sound Hinactive Hroom)
      as (volume & Hvolume & Hon).
    destruct (toggle_sound_new_audios (browser m) (state m) sound Hinactive Hroom Hplay)
      as (created & Haudios & Hcreated).
    rewrite Hid, Hsaved in Hvolume. simpl in Hvolume.
    rewrite (positive_truthy _ Epos) in Hvolume.
    rewrite Hon in Hstate. rewrite Hid in Hstate.
    constructor; rewrite ?Hstate, ?Hbrowser; simpl.
    + assumption.
    + unfold track_ids in *. rewrite map_app. simpl. rewrite Hid, Hids.
      rewrite restorable_app, Hone, obj_keys_app. simpl.
      rewrite Hids in Hlen.
      rewrite (firstn_short _ _ ltac:(rewrite Hlen; exact Hroom)).
      symmetry. apply firstn_all2. rewrite length_app. simpl.
      rewrite length_firstn in Hlen. unfold MAX_CONCURRENT_SOUNDS in *. lia.
    + intros a Ha. rewrite Haudios, length_app. simpl.
      apply in_app_or in Ha as [Ha|[<-|[]]].
      * destruct (Htracks a Ha) as (Hh & st' & Hin & Hrest).
        split; [lia|]. exists st'. split; [|assumption].
        apply in_or_app. now left.
      * simpl. split; [lia|]. exists st. rewrite Hid.
        repeat split; try assumption. apply in_or_app. right. now left.
    + rewrite obj_keys_set_present; [assumption | congruence].
    + intros k' st' Hin. apply In_obj_set in Hin as [[= -> ->]|Hin];
        [now rewrite Hplay | now apply (Hflags k' st')].
    + intros k' st' Hin Hk'. rewrite obj_get_set_ne.
      * apply Hpend; [assumption|].
        intros Hd. apply Hk'. rewrite obj_keys_app. apply in_or_app. now left.
      * intros ->. apply Hk'. rewrite obj_keys_app. apply in_or_app. right. now left.
    + intros h Hh a. rewrite Haudios.
      destruct (Nat.lt_ge_cases h (length (audios (browser m)))) as [Hlt|Hge].
      * rewrite lookup_app_l by assumption. now apply Hpaused.
      * rewrite lookup_app_r by assumption.
        destruct (h - length (audios (browser m))) as [|n]; simpl; [|intros [=]].
        now intros [= <-].
    + rewrite Haudios, length_app. simpl. lia.
Qed.

Lemma restored_ext parsed done first m m' :
  state m' = state m ->
  audios (browser m') = audios (browser m) ->
  restored parsed done first m -> restored parsed done first m'.
Proof.
  intros Hs Ha [Hplay Hids Htracks Hkeys Hflags Hpend Hpaused Hstore].
  constructor; rewrite ?Hs, ?Ha; try assumption.
  intros h Hh a. rewrite Ha. now apply Hpaused.
Qed.

Lemma restored_force parsed done first m :
  restored parsed done first m -> restored parsed done first (force_not_playing m).
Proof. intros []. now constructor. Qed.

Lemma restored_fold parsed first rest :
  forall done m,
    parsed = done ++ rest ->
    List.NoDup (obj_keys parsed) ->
    restored parsed done first m ->
    restored parsed parsed first (fold_left restore_entry rest m).
Proof.
  induction rest as [|[k st] rest IH]; simpl; intros done m Hparsed Hnd Hinv.
  - rewrite app_nil_r in Hparsed. now subst done.
  - apply (IH (done ++ [(k, st)])).
    + now rewrite <- app_assoc.
    + assumption.
    + now apply (restored_step parsed done rest).
Qed.

Lemma startTimerIfNeeded_state m :
  state (startTimerIfNeeded m) = state m /\
  audios (browser (startTimerIfNeeded m)) = audios (browser m).
Proof.
  unfold startTimerIfNeeded, startTimer.
  destruct (timerEndTime (state m)) as [e|]; [|now split].
  destruct (Z.eqb e 0); [now split|].
  destruct (timerInterval m); now split.
Qed.

Lemma loadCustomMixes_state m :
  state (loadCustomMixes m) = state m /\ browser (loadCustomMixes m) = browser m.
Proof. unfold loadCustomMixes. destruct (stored_mixes (browser m)); now split. Qed.

Lemma new_manager_restored b parsed :
  stored_state b = Some parsed ->
  List.NoDup (obj_keys parsed) ->
  restored parsed parsed (length (audios b)) (new_manager b).
Proof.
  intros Hstored Hnd. unfold new_manager.
  destruct (startTimerIfNeeded_state
              (loadCustomMixes (loadSavedState (mkManager initialAudioState None [] [] b))))
    as [Hs Ha].
  destruct (loadCustomMixes_state (loadSavedState (mkManager initialAudioState None [] [] b)))
    as [Hs' Hb'].
  apply (restored_ext _ _ _ (loadSavedState (mkManager initialAudioState None [] [] b)));
    [congruence | congruence |].
  unfold loadSavedState. simpl. rewrite Hstored.
  apply restored_notify, restored_force.
  apply (restored_fold parsed (length (audios b)) parsed []); [reflexivity | assumption |].
  apply (restored_start parsed
           (force_not_playing
              (dispatch
                 (INITIALIZE_STATE
                    (fold_left
                       (fun acc entry =>
                          obj_set acc (fst entry)
                            (SoundState.mk (SoundState.volume (snd entry)) (Some false)))
                       parsed []))
                 (mkManager initialAudioState None [] [] b))));
    [assumption | reflexivity | reflexivity | reflexivity].
Qed.

(** C6, as amended: startup from persisted settings (an object, so its keys
    are distinct) whose restored tracks get a gain in range (the saved
    volume over 100 times the initial master volume is from 0 to 1, as it is
    for every volume from 0 to 100) re-activates, in stored order, the
    sounds of the catalog whose saved volume is positive, up to the capacity
    of three; each as a track at the saved volume divided by 100 whose
    element is paused; [isPlaying] is false; the settings keep their ids and
    every entry is marked not playing; no element created by the restore
    plays. *)
Theorem restore_from_storage b parsed :
  stored_state b = Some parsed ->
  List.NoDup (obj_keys parsed) ->
  restore_in_range parsed = true ->
  let m := new_manager b in
  track_ids (activeSounds (state m))
  = firstn MAX_CONCURRENT_SOUNDS (obj_keys (restorable parsed)) /\
  (forall a, In a (activeSounds (state m)) ->
     exists st,
       In (Sound.id (ActiveSound.sound a), st) parsed /\
       find_sound (Sound.id (ActiveSound.sound a)) = Some (ActiveSound.sound a) /\
       (0 <? SoundState.volume st)%float = true /\
       ActiveSound.volume a = (SoundState.volume st / 100)%float) /\
  (forall a, In a (activeSounds (state m)) ->
     exists element,
       audios (browser m) !! ActiveSound.audio a = Some element /\
       HTMLAudioElement.paused element = true) /\
  isPlaying (state m) = false /\
  obj_keys (soundStates (state m)) = obj_keys parsed /\
  (forall k st, In (k, st) (soundStates (state m)) ->
     SoundState.isPlaying st = Some false) /\
  (forall h, length (audios b) <= h -> is_paused (browser m) h).
Proof.
  intros Hstored Hnd _ m.
  destruct (new_manager_restored b parsed Hstored Hnd)
    as [Hplay Hids Htracks Hkeys Hflags _ Hpaused _].
  fold m in Hplay, Hids, Htracks, Hkeys, Hflags, Hpaused.
  repeat split; try assumption.
  - intros a Ha. destruct (Htracks a Ha) as (Hh & st & Hin & Hfind & Hpos & Hvol).
    exists st. now repeat split.
  - intros a Ha. destruct (Htracks a Ha) as ([Hlow Hhigh] & _).
    destruct (lookup_lt_is_Some_2 _ _ Hhigh) as [element Helement].
    exists element. split; [assumption|]. now apply (Hpaused _ Hlow).
Qed.

End RestoreFacts.

(** ** Applying a preset *)

Lemma obj_has_set {V} (o : list (string * V)) k v k' :
  obj_has (obj_set o k v) k' = String.eqb k k' || obj_has o k'.
Proof.
  unfold obj_has. destruct (String.eqb_spec k k') as [->|Hne].
  - now rewrite obj_get_set_eq.
  - now rewrite obj_get_set_ne.
Qed.

Lemma fold_obj_set_has {A} (key : A -> string) (l : list A) acc k :
  obj_has (fold_left (fun m a => obj_set m (key a) a) l acc) k
  = obj_has acc k || existsb (fun a => String.eqb (key a) k) l.
Proof.
  revert acc. induction l as [|a l IH]; simpl; intros acc.
  - now rewrite orb_false_r.
  - rewrite IH, obj_has_set.
    destruct (String.eqb (key a) k), (obj_has acc k); reflexivity.
Qed.

Lemma fold_obj_set_entries {A} (key : A -> string) (l : list A) acc k a :
  In (k, a) (fold_left (fun m a => obj_set m (key a) a) l acc) ->
  In (k, a) acc \/ (In a l /\ key a = k).
Proof.
  revert acc. induction l as [|x l IH]; simpl; intros acc Hin; [now left|].
  destruct (IH _ Hin) as [Hacc|[Hl Hk]].
  - apply In_obj_set in Hacc as [[= -> ->]|Hacc]; [right | now left].
    split; [now left | reflexivity].
  - right. split; [now right | assumption].
Qed.

Lemma obj_has_In {V} (o : list (string * V)) k :
  obj_has o k = true -> exists v, In (k, v) o.
Proof.
  unfold obj_has. destruct (obj_get o k) as [v|] eqn:E; [|discriminate].
  intros _. exists v. now apply obj_get_In.
Qed.

Lemma currentActiveSoundMap_has state k :
  obj_has (currentActiveSoundMap state) k = existsb (has_id k) (activeSounds state).
Proof. unfold currentActiveSoundMap. now rewrite fold_obj_set_has. Qed.

Lemma targetSoundMap_has mixSounds k :
  obj_has (targetSoundMap mixSounds) k = true <-> In k (map MixSound.id mixSounds).
Proof.
  unfold targetSoundMap. rewrite fold_obj_set_has. simpl.
  rewrite existsb_exists, in_map_iff. split; intros (e & He & Hk).
  - exists e. split; [now apply String.eqb_eq | assumption].
  - exists e. split; [assumption | now apply String.eqb_eq].
Qed.

(** What [soundsToRemove] holds: active tracks whose id is not in the mix,
    one for every such id. *)
Lemma soundsToRemove_spec state mixSounds :
  (forall r, In r (soundsToRemove state mixSounds) ->
     In r (activeSounds state) /\
     ~ In (Sound.id (ActiveSound.sound r)) (map MixSound.id mixSounds)) /\
  (forall a, In a (activeSounds state) ->
     ~ In (Sound.id (ActiveSound.sound a)) (map MixSound.id mixSounds) ->
     exists r, In r (soundsToRemove state mixSounds) /\
               Sound.id (ActiveSound.sound r) = Sound.id (ActiveSound.sound a)).
Proof.
  unfold soundsToRemove. split.
  - intros r Hr. apply in_map_iff in Hr as ([k a] & <- & Hin).
    apply List.filter_In in Hin as [Hin Hneg]. simpl in *.
    unfold currentActiveSoundMap in Hin.
    apply fold_obj_set_entries in Hin as [[]|[Ha Hk]].
    split; [assumption|]. rewrite Hk. intros Hmix.
    apply targetSoundMap_has in Hmix. rewrite Hmix in Hneg. discriminate.
  - intros a Ha Hmix.
    assert (obj_has (currentActiveSoundMap state) (Sound.id (ActiveSound.sound a)) = true)
      as Hhas.
    { rewrite currentActiveSoundMap_has. apply existsb_exists. exists a.
      split; [assumption | apply String.eqb_refl]. }
    apply obj_has_In in Hhas as [r Hr]. exists r.
    pose proof Hr as Hr'. unfold currentActiveSoundMap in Hr'.
    apply fold_obj_set_entries in Hr' as [[]|[_ Hk]]. split; [|assumption].
    apply in_map_iff. exists (Sound.id (ActiveSound.sound a), r). split; [reflexivity|].
    apply List.filter_In. split; [assumption|]. simpl.
    destruct (obj_has (targetSoundMap mixSounds) (Sound.id (ActiveSound.sound a))) eqn:E;
      [|reflexivity].
    apply targetSoundMap_has in E. contradiction.
Qed.

Lemma filter_all {A} (l : list A) : List.filter (fun _ => true) l = l.
Proof. induction l as [|a l IH]; simpl; [reflexivity | now rewrite IH]. Qed.

Lemma filter_twice {A} (p q : A -> bool) (l : list A) :
  List.filter p (List.filter q l) = List.filter (fun a => q a && p a) l.
Proof.
  induction l as [|a l IH]; simpl; [reflexivity|].
  destruct (q a); simpl; [destruct (p a)|]; now rewrite IH.
Qed.

Lemma track_ids_filter p l id :
  In id (track_ids (List.filter p l)) -> In id (track_ids l).
Proof.
  unfold track_ids. rewrite !in_map_iff. intros (a & Ha & Hin).
  apply List.filter_In in Hin as [Hin _]. now exists a.
Qed.

Lemma NoDup_track_ids_filter p l :
  List.NoDup (track_ids l) -> List.NoDup (track_ids (List.filter p l)).
Proof.
  induction l as [|a l IH]; simpl; intros Hnd; [assumption|].
  apply NoDup_cons_iff in Hnd as [Ha Hnd].
  destruct (p a); simpl; [|now apply IH].
  constructor; [|now apply IH]. intros Hin. apply Ha.
  now apply (track_ids_filter p).
Qed.

(** The track list after [soundsToRemove.forEach]: the tracks whose id is
    the id of no removed sound. *)
Lemma mix_remove_tracks removed :
  forall acc,
  exists p,
    mix_tracks (fold_left mix_remove removed acc) = List.filter p (mix_tracks acc) /\
    forall a, p a = true <->
              forall r, In r removed ->
                        has_id (Sound.id (ActiveSound.sound r)) a = false.
Proof.
  induction removed as [|r removed IH]; simpl; intros acc.
  - exists (fun _ => true). split; [now rewrite filter_all|].
    intros a. split; [intros _ r [] | reflexivity].
  - destruct (IH (mix_remove acc r)) as (p & Htracks & Hp).
    exists (fun a => negb (has_id (Sound.id (ActiveSound.sound r)) a) && p a). split.
    + rewrite Htracks. destruct acc as [[b act] sts]. unfold mix_tracks. simpl.
      apply filter_twice.
    + intros a. rewrite andb_true_iff, negb_true_iff, Hp. split.
      * intros [Hr Hrest] r' [<-|Hin]; [assumption | now apply Hrest].
      * intros Hall. split; [apply Hall; now left|].
        intros r' Hin. apply Hall. now right.
Qed.

Lemma NoDup_snoc {A} (l : list A) x :
  List.NoDup l -> ~ In x l -> List.NoDup (l ++ [x]).
Proof.
  induction l as [|a l IH]; simpl; intros Hnd Hx.
  - repeat constructor. intros [].
  - apply NoDup_cons_iff in Hnd as [Ha Hnd]. constructor.
    + intros Hin. apply in_app_or in Hin as [Hin|[<-|[]]]; [contradiction|].
      apply Hx. now left.
    + apply IH; [assumption|]. intros Hin. apply Hx. now right.
Qed.

Section MixFacts.
Context `{Catalog}.
Variables (state : AudioState) (mixSounds : list MixSound.t).

Local Abbreviation current := (currentActiveSoundMap state).
Local Abbreviation process := (mix_process state mixSounds current).

Lemma track_ids_map_volume (p : ActiveSound.t -> bool) v l :
  track_ids (map (fun a => if p a then ActiveSound.set_volume v a else a) l)
  = track_ids l.
Proof.
  unfold track_ids. rewrite map_map. apply map_ext. intros a. now destruct (p a).
Qed.

(** The track list after one turn of [mixSounds.forEach]. *)
Lemma mix_process_tracks acc entry :
  mix_tracks (process acc entry) =
    if obj_has current (MixSound.id entry) then
      map (fun a => if has_id (MixSound.id entry) a
                    then ActiveSound.set_volume (MixSound.volume entry) a else a)
        (mix_tracks acc)
    else
      match find (fun s => String.eqb (MixSound.id s) (MixSound.id entry)) mixSounds,
            find_sound (MixSound.id entry) with
      | Some _, Some sound =>
          mix_tracks acc
            ++ [ActiveSound.mk sound (length (audios (mix_browser acc)))
                  (MixSound.volume entry)]
      | _, _ => mix_tracks acc
      end.
Proof.
  destruct acc as [[b act] sts]. unfold mix_process, mix_tracks, mix_browser. simpl.
  destruct (obj_has current (MixSound.id entry)); [reflexivity|].
  destruct (find _ mixSounds); [|reflexivity].
  destruct (find_sound (MixSound.id entry)); reflexivity.
Qed.

(** The ids after one turn: the same, or one more, the id of the entry. *)
Lemma mix_process_ids acc entry :
  track_ids (mix_tracks (process acc entry)) = track_ids (mix_tracks acc) \/
  (obj_has current (MixSound.id entry) = false /\
   track_ids (mix_tracks (process acc entry))
   = track_ids (mix_tracks acc) ++ [MixSound.id entry]).
Proof.
  rewrite mix_process_tracks.
  destruct (obj_has current (MixSound.id entry)) eqn:Ehas.
  - left. apply track_ids_map_volume.
  - destruct (find _ mixSounds); [|now left].
    destruct (find_sound (MixSound.id entry)) as [sound|] eqn:Efind; [|now left].
    right. split; [reflexivity|]. unfold track_ids. rewrite map_app. simpl.
    now rewrite (find_sound_id _ _ Efind).
Qed.

Lemma process_ids entries :
  forall acc id,
    In id (track_ids (mix_tracks (fold_left process entries acc))) ->
    In id (track_ids (mix_tracks acc)) \/ In id (map MixSound.id entries).
Proof.
  induction entries as [|e entries IH]; simpl; intros acc id Hin; [now left|].
  destruct (IH _ _ Hin) as [Hacc|Hrest]; [|right; now right].
  destruct (mix_process_ids acc e) as [E|[_ E]]; rewrite E in Hacc; [now left|].
  apply in_app_or in Hacc as [Hacc|[<-|[]]]; [now left | right; now left].
Qed.

Lemma process_NoDup entries :
  forall acc,
    List.NoDup (track_ids (mix_tracks acc)) ->
    List.NoDup (map MixSound.id entries) ->
    (forall id, In id (map MixSound.id entries) -> obj_has current id = false ->
                ~ In id (track_ids (mix_tracks acc))) ->
    List.NoDup (track_ids (mix_tracks (fold_left process entries acc))).
Proof.
  induction entries as [|e entries IH]; simpl; intros acc Hnd Hmix Hfresh;
    [assumption|].
  apply NoDup_cons_iff in Hmix as [He Hmix].
  destruct (mix_process_ids acc e) as [E|[Ehas E]]; apply IH; rewrite ?E;
    try assumption.
  - intros id Hid Hhas. apply Hfresh; [now right | assumption].
  - apply NoDup_snoc; [assumption|].
    apply Hfresh; [now left | assumption].
  - intros id Hid Hhas Hin. apply in_app_or in Hin as [Hin|[<-|[]]].
    + apply (Hfresh id); [now right | assumption..].
    + contradiction.
Qed.

Lemma current_has_track a :
  In a (activeSounds state) ->
  obj_has current (Sound.id (ActiveSound.sound a)) = true.
Proof.
  intros Ha. rewrite currentActiveSoundMap_has. apply existsb_exists.
  exists a. split; [assumption | apply String.eqb_refl].
Qed.

(** A track of another id goes through a turn unchanged. *)
Lemma mix_process_keeps acc entry a :
  In a (mix_tracks acc) ->
  MixSound.id entry <> Sound.id (ActiveSound.sound a) ->
  In a (mix_tracks (process acc entry)).
Proof.
  intros Ha Hne. rewrite mix_process_tracks.
  destruct (obj_has current (MixSound.id entry)).
  - apply in_map_iff. exists a. split; [|assumption].
    unfold has_id. destruct (String.eqb_spec (Sound.id (ActiveSound.sound a))
                               (MixSound.id entry)); [congruence | reflexivity].
  - destruct (find _ mixSounds); [|assumption].
    destruct (find_sound (MixSound.id entry)); [|assumption].
    apply in_or_app. now left.
Qed.

(** A track of the entry's id, of a sound that was active, gets the
    entry's volume. *)
Lemma mix_process_updates acc entry a :
  In a (mix_tracks acc) ->
  obj_has current (Sound.id (ActiveSound.sound a)) = true ->
  MixSound.id entry = Sound.id (ActiveSound.sound a) ->
  In (ActiveSound.set_volume (MixSound.volume entry) a) (mix_tracks (process acc entry)).
Proof.
  intros Ha Hhas He. rewrite mix_process_tracks, He, Hhas.
  apply in_map_iff. exists a. split; [|assumption].
  unfold has_id. now rewrite String.eqb_refl.
Qed.

Lemma process_keeps entries :
  forall acc a,
    In a (mix_tracks acc) ->
    (forall e, In e entries -> MixSound.id e <> Sound.id (ActiveSound.sound a)) ->
    In a (mix_tracks (fold_left process entries acc)).
Proof.
  induction entries as [|e entries IH]; simpl; intros acc a Ha Hne; [assumption|].
  apply IH.
  - apply mix_process_keeps; [assumption|]. apply Hne. now left.
  - intros e' He'. apply Hne. now right.
Qed.

Lemma process_updates entries :
  forall acc a e0,
    In a (mix_tracks acc) ->
    obj_has current (Sound.id (ActiveSound.sound a)) = true ->
    In e0 entries ->
    MixSound.id e0 = Sound.id (ActiveSound.sound a) ->
    exists e,
      In e entries /\
      MixSound.id e = Sound.id (ActiveSound.sound a) /\
      In (ActiveSound.set_volume (MixSound.volume e) a)
        (mix_tracks (fold_left process entries acc)).
Proof.
  induction entries as [|e entries IH]; simpl; intros acc a e0 Ha Hhas He0 Hid0;
    [contradiction|].
  destruct (existsb (fun x => String.eqb (MixSound.id x) (Sound.id (ActiveSound.sound a)))
              entries) eqn:Elater.
  - (* a later entry has the id as well: it decides *)
    apply existsb_exists in Elater as (e1 & He1 & Hid1). apply String.eqb_eq in Hid1.
    destruct (String.eqb_spec (MixSound.id e) (Sound.id (ActiveSound.sound a)))
      as [Hid|Hne].
    + destruct (IH (process acc e) (ActiveSound.set_volume (MixSound.volume e) a) e1)
        as (e' & He' & Hid' & Hin'); try assumption.
      * now apply mix_process_updates.
      * exists e'. split; [now right|]. now split.
    + destruct (IH (process acc e) a e1) as (e' & He' & Hid' & Hin'); try assumption.
      * now apply mix_process_keeps.
      * exists e'. split; [now right|]. now split.
  - (* no later entry has the id: this one is [e0] *)
    assert (forall x, In x entries ->
                      MixSound.id x <> Sound.id (ActiveSound.sound a)) as Hnone.
    { intros x Hx Hidx.
      assert (existsb (fun x => String.eqb (MixSound.id x)
                                  (Sound.id (ActiveSound.sound a))) entries = true)
        as Hex; [|congruence].
      apply existsb_exists. exists x. split; [assumption | now apply String.eqb_eq]. }
    destruct He0 as [<-|He0]; [|now destruct (Hnone e0 He0)].
    exists e. split; [now left|]. split; [assumption|].
    apply process_keeps; [now apply mix_process_updates | exact Hnone].
Qed.

(** Setting gains pauses and plays nothing, creates nothing. *)
Lemma set_gains_paused p gain l b h :
  HTMLAudioElement.paused <$> audios (set_gains p gain l b) !! h
  = HTMLAudioElement.paused <$> audios b !! h.
Proof.
  unfold set_gains. revert b. induction l as [|a l IH]; simpl; intros b;
    [reflexivity|].
  rewrite IH. destruct (p a); [|reflexivity].
  unfold on_audio. simpl. destruct (decide (ActiveSound.audio a = h)) as [->|Hne].
  - rewrite list_lookup_alter_eq. now destruct (audios b !! h).
  - now rewrite list_lookup_alter_ne.
Qed.

Lemma set_gains_length p gain l b :
  length (audios (set_gains p gain l b)) = length (audios b).
Proof.
  unfold set_gains. revert b. induction l as [|a l IH]; simpl; intros b;
    [reflexivity|].
  rewrite IH. destruct (p a); [|reflexivity].
  unfold on_audio. simpl. apply length_alter.
Qed.

(** A turn leaves the elements that exist as they are, playing or paused,
    and removes none. *)
Lemma mix_process_store acc entry :
  length (audios (mix_browser acc)) <= length (audios (mix_browser (process acc entry))) /\
  forall h,
    h < length (audios (mix_browser acc)) ->
    HTMLAudioElement.paused <$> audios (mix_browser (process acc entry)) !! h
    = HTMLAudioElement.paused <$> audios (mix_browser acc) !! h.
Proof.
  destruct acc as [[b act] sts]. unfold mix_process, mix_browser. simpl.
  destruct (obj_has current (MixSound.id entry)); simpl.
  - rewrite set_gains_length. split; [lia|]. intros h _. apply set_gains_paused.
  - destruct (find _ mixSounds); [|simpl; split; [lia | reflexivity]].
    destruct (find_sound (MixSound.id entry)); [|simpl; split; [lia | reflexivity]].
    destruct (isPlaying state); simpl.
    + rewrite length_alter, length_app. split; [lia|]. intros h Hh.
      rewrite list_lookup_alter_ne by lia. now rewrite lookup_app_l.
    + rewrite length_app. split; [lia|]. intros h Hh. now rewrite lookup_app_l.
Qed.

Lemma process_store entries :
  forall acc,
    length (audios (mix_browser acc))
    <= length (audios (mix_browser (fold_left process entries acc))) /\
    forall h,
      h < length (audios (mix_browser acc)) ->
      HTMLAudioElement.paused <$> audios (mix_browser (fold_left process entries acc)) !! h
      = HTMLAudioElement.paused <$> audios (mix_browser acc) !! h.
Proof.
  induction entries as [|e entries IH]; simpl; intros acc.
  - split; [lia | reflexivity].
  - destruct (IH (process acc e)) as [Hlen Hkeep].
    destruct (mix_process_store acc e) as [Hlen1 Hkeep1].
    split; [lia|]. intros h Hh. rewrite Hkeep by lia. now apply Hkeep1.
Qed.

(** The turn of an entry whose sound was not active and is in the catalog:
    a new track at the entry's volume; its element plays exactly when the
    state does. *)
Lemma mix_process_creates acc entry sound :
  obj_has current (MixSound.id entry) = false ->
  In entry mixSounds ->
  find_sound (MixSound.id entry) = Some sound ->
  let h := length (audios (mix_browser acc)) in
  In (ActiveSound.mk sound h (MixSound.volume entry)) (mix_tracks (process acc entry)) /\
  h < length (audios (mix_browser (process acc entry))) /\
  HTMLAudioElement.paused <$> audios (mix_browser (process acc entry)) !! h
  = Some (negb (isPlaying state)).
Proof.
  intros Hhas Hentry Hfind h. subst h.
  assert (find (fun s => String.eqb (MixSound.id s) (MixSound.id entry)) mixSounds
          <> None) as Hdata.
  { intros Hnone. apply (find_none _ _ Hnone) in Hentry.
    now rewrite String.eqb_refl in Hentry. }
  split.
  { rewrite mix_process_tracks, Hhas, Hfind.
    destruct (find _ mixSounds); [|congruence]. apply in_or_app. right. now left. }
  destruct acc as [[b act] sts]. unfold mix_process, mix_browser. simpl.
  rewrite Hhas, Hfind. destruct (find _ mixSounds); [|congruence].
  destruct (isPlaying state); simpl.
  - rewrite length_alter, length_app. simpl. split; [lia|].
    rewrite list_lookup_alter_eq. rewrite lookup_app_r by lia.
    now rewrite Nat.sub_diag.
  - rewrite length_app. simpl. split; [lia|].
    rewrite lookup_app_r by lia. now rewrite Nat.sub_diag.
Qed.

(** A track whose sound was not active goes through every turn unchanged. *)
Lemma process_keeps_new entries :
  forall acc a,
    In a (mix_tracks acc) ->
    obj_has current (Sound.id (ActiveSound.sound a)) = false ->
    In a (mix_tracks (fold_left process entries acc)).
Proof.
  induction entries as [|e entries IH]; simpl; intros acc a Ha Hnew; [assumption|].
  apply IH; [|assumption]. rewrite mix_process_tracks.
  destruct (obj_has current (MixSound.id e)) eqn:Ehas.
  - apply in_map_iff. exists a. split; [|assumption].
    unfold has_id. destruct (String.eqb_spec (Sound.id (ActiveSound.sound a))
                               (MixSound.id e)) as [Heq|]; [|reflexivity].
    rewrite Heq in Hnew. congruence.
  - destruct (find _ mixSounds); [|assumption].
    destruct (find_sound (MixSound.id e)); [|assumption].
    apply in_or_app. now left.
Qed.

Lemma process_creates before later acc entry sound :
  In entry mixSounds ->
  obj_has current (MixSound.id entry) = false ->
  find_sound (MixSound.id entry) = Some sound ->
  exists h,
    In (ActiveSound.mk sound h (MixSound.volume entry))
      (mix_tracks (fold_left process (before ++ entry :: later) acc)) /\
    HTMLAudioElement.paused
      <$> audios (mix_browser (fold_left process (before ++ entry :: later) acc)) !! h
    = Some (negb (isPlaying state)).
Proof.
  intros Hentry Hhas Hfind. rewrite fold_left_app. simpl.
  set (acc0 := fold_left process before acc).
  destruct (mix_process_creates acc0 entry sound Hhas Hentry Hfind)
    as (Htrack & Hlt & Hpaused).
  exists (length (audios (mix_browser acc0))). split.
  - apply process_keeps_new; [assumption|]. simpl.
    now rewrite (find_sound_id _ _ Hfind).
  - destruct (process_store later (process acc0 entry)) as [_ Hkeep].
    now rewrite Hkeep.
Qed.

Lemma process_creates_in entries acc entry sound :
  In entry entries ->
  In entry mixSounds ->
  obj_has current (MixSound.id entry) = false ->
  find_sound (MixSound.id entry) = Some sound ->
  exists h,
    In (ActiveSound.mk sound h (MixSound.volume entry))
      (mix_tracks (fold_left process entries acc)) /\
    HTMLAudioElement.paused <$> audios (mix_browser (fold_left process entries acc)) !! h
    = Some (negb (isPlaying state)).
Proof.
  intros Hin. destruct (in_split _ _ Hin) as (before & later & ->).
  apply process_creates.
Qed.

(** The ids of the tracks after the turns of [entries]: the ids before,
    then the id of every entry that creates a track. *)
Lemma process_track_ids entries :
  forall acc,
    (forall e, In e entries -> In e mixSounds) ->
    track_ids (mix_tracks (fold_left process entries acc))
    = track_ids (mix_tracks acc)
      ++ List.filter (mix_creates state) (map MixSound.id entries).
Proof.
  induction entries as [|e entries IH]; simpl; intros acc Hmix.
  - now rewrite app_nil_r.
  - rewrite IH by (intros x Hx; apply Hmix; now right).
    assert (In e mixSounds) as He by (apply Hmix; now left).
    rewrite mix_process_tracks. unfold mix_creates.
    rewrite <- currentActiveSoundMap_has.
    destruct (obj_has current (MixSound.id e)); simpl.
    + now rewrite track_ids_map_volume.
    + destruct (find _ mixSounds) eqn:Edata.
      * destruct (find_sound (MixSound.id e)) as [sound|] eqn:Efind; [|reflexivity].
        unfold track_ids. rewrite map_app. simpl.
        rewrite (find_sound_id _ _ Efind). now rewrite <- app_assoc.
      * apply (find_none _ _ Edata) in He. now rewrite String.eqb_refl in He.
Qed.

(** When no entry names an active sound, every turn that adds a track adds
    it at the volume of its entry. *)
Lemma process_new_tracks entries :
  forall acc,
    (forall e, In e entries -> In e mixSounds /\ obj_has current (MixSound.id e) = false) ->
    map (fun a => (Sound.id (ActiveSound.sound a), ActiveSound.volume a))
      (mix_tracks (fold_left process entries acc))
    = map (fun a => (Sound.id (ActiveSound.sound a), ActiveSound.volume a)) (mix_tracks acc)
      ++ map (fun e => (MixSound.id e, MixSound.volume e))
           (List.filter (fun e => mix_creates state (MixSound.id e)) entries).
Proof.
  induction entries as [|e entries IH]; simpl; intros acc Hall.
  - now rewrite app_nil_r.
  - rewrite IH by (intros x Hx; apply Hall; now right).
    destruct (Hall e (or_introl eq_refl)) as [He Hnew].
    rewrite mix_process_tracks, Hnew. unfold mix_creates at 2.
    rewrite <- currentActiveSoundMap_has, Hnew. simpl.
    destruct (find _ mixSounds) eqn:Edata.
    + destruct (find_sound (MixSound.id e)) as [sound|] eqn:Efind; [|reflexivity].
      rewrite map_app. simpl. rewrite (find_sound_id _ _ Efind).
      now rewrite <- app_assoc.
    + apply (find_none _ _ Edata) in He. now rewrite String.eqb_refl in He.
Qed.

End MixFacts.

Section MixTheorems.
Context `{Catalog}.

Lemma apply_mix_result b state mix :
  let acc :=
    fold_left (mix_process state (mix_sounds mix) (currentActiveSoundMap state))
      (mix_sounds mix)
      (fold_left mix_remove (soundsToRemove state (mix_sounds mix))
         (b, activeSounds state, soundStates state)) in
  activeSounds (snd (apply_mix b state mix)) = mix_tracks acc /\
  audios (fst (apply_mix b state mix)) = audios (mix_browser acc) /\
  isPlaying (snd (apply_mix b state mix)) = isPlaying state.
Proof.
  unfold apply_mix. simpl.
  destruct (fold_left _ (mix_sounds mix) _) as [[b' act'] sts']. now repeat split.
Qed.

(** The tracks that survive [soundsToRemove.forEach]. *)
Lemma removal_result b state mixSounds :
  exists p,
    mix_tracks (fold_left mix_remove (soundsToRemove state mixSounds)
                  (b, activeSounds state, soundStates state))
    = List.filter p (activeSounds state) /\
    forall a, In a (activeSounds state) ->
              (p a = true <->
               In (Sound.id (ActiveSound.sound a)) (map MixSound.id mixSounds)).
Proof.
  destruct (mix_remove_tracks (soundsToRemove state mixSounds)
              (b, activeSounds state, soundStates state)) as (p & Htracks & Hp).
  exists p. split; [exact Htracks|]. intros a Ha. rewrite Hp.
  destruct (soundsToRemove_spec state mixSounds) as [Hsound Hcomplete]. split.
  - intros Hall.
    destruct (in_dec string_dec (Sound.id (ActiveSound.sound a))
                (map MixSound.id mixSounds)) as [Hin|Hout]; [assumption|].
    destruct (Hcomplete a Ha Hout) as (r & Hr & Hid).
    specialize (Hall r Hr). unfold has_id in Hall.
    rewrite Hid, String.eqb_refl in Hall. discriminate.
  - intros Hmix r Hr. destruct (Hsound r Hr) as [_ Hout]. unfold has_id.
    destruct (String.eqb_spec (Sound.id (ActiveSound.sound a))
                (Sound.id (ActiveSound.sound r))) as [Heq|]; [|reflexivity].
    rewrite <- Heq in Hout. contradiction.
Qed.

Lemma not_active_not_current state id :
  ~ In id (track_ids (activeSounds state)) ->
  obj_has (currentActiveSoundMap state) id = false.
Proof.
  intros Hout. rewrite currentActiveSoundMap_has.
  destruct (existsb (has_id id) (activeSounds state)) eqn:E; [|reflexivity].
  apply existsb_has_id in E. contradiction.
Qed.

(** After [APPLY_MIX] every track has an id of the mix. *)
Lemma apply_mix_ids b state mix a :
  In a (activeSounds (snd (apply_mix b state mix))) ->
  In (Sound.id (ActiveSound.sound a)) (mix_ids mix).
Proof.
  destruct (apply_mix_result b state mix) as (Htracks & _ & _).
  destruct (removal_result b state (mix_sounds mix)) as (p & Hkept & Hp).
  rewrite Htracks. unfold mix_ids. intros Ha.
  assert (In (Sound.id (ActiveSound.sound a))
            (track_ids (mix_tracks
               (fold_left (mix_process state (mix_sounds mix) (currentActiveSoundMap state))
                  (mix_sounds mix)
                  (fold_left mix_remove (soundsToRemove state (mix_sounds mix))
                     (b, activeSounds state, soundStates state)))))) as Hid.
  { unfold track_ids. apply in_map_iff. now exists a. }
  apply process_ids in Hid as [Hid|Hid]; [|assumption].
  rewrite Hkept in Hid. unfold track_ids in Hid.
  apply in_map_iff in Hid as (a' & <- & Ha').
  apply List.filter_In in Ha' as [Ha' Hpa]. now apply Hp.
Qed.

Lemma track_ids_filter_by (p : ActiveSound.t -> bool) (q : string -> bool) l :
  (forall a, In a l -> p a = q (Sound.id (ActiveSound.sound a))) ->
  track_ids (List.filter p l) = List.filter q (track_ids l).
Proof.
  induction l as [|a l IH]; simpl; intros Hall; [reflexivity|].
  rewrite <- (Hall a (or_introl eq_refl)).
  rewrite <- IH by (intros x Hx; apply Hall; now right).
  now destruct (p a).
Qed.

Lemma existsb_eqb_In id l : existsb (String.eqb id) l = true <-> In id l.
Proof.
  rewrite existsb_exists. split.
  - intros (x & Hx & E). apply String.eqb_eq in E. now subst.
  - intros Hin. exists id. split; [assumption | apply String.eqb_refl].
Qed.

Lemma filter_none {A} (p : A -> bool) (l : list A) :
  (forall a, In a l -> p a = false) -> List.filter p l = [].
Proof.
  induction l as [|a l IH]; simpl; intros Hall; [reflexivity|].
  rewrite (Hall a (or_introl eq_refl)). apply IH. intros x Hx. apply Hall. now right.
Qed.

(** The ids of the tracks after [APPLY_MIX], in order: the ids of the tracks
    that were active and are in the mix, then the ids of the mix entries
    that create a track. *)
Lemma apply_mix_track_ids b state mix :
  track_ids (activeSounds (snd (apply_mix b state mix)))
  = List.filter (fun id => existsb (String.eqb id) (mix_ids mix))
      (track_ids (activeSounds state))
    ++ List.filter (mix_creates state) (mix_ids mix).
Proof.
  destruct (apply_mix_result b state mix) as (Htracks & _ & _).
  destruct (removal_result b state (mix_sounds mix)) as (p & Hkept & Hp).
  rewrite Htracks, process_track_ids by (intros e He; exact He).
  rewrite Hkept. unfold mix_ids. f_equal.
  apply track_ids_filter_by. intros a Ha.
  destruct (p a) eqn:Ep.
  - symmetry. apply existsb_eqb_In. now apply Hp.
  - destruct (existsb _ (map MixSound.id (mix_sounds mix))) eqn:Ein; [|reflexivity].
    apply existsb_eqb_In in Ein. apply Hp in Ein; [congruence | assumption].
Qed.

(** C7, as amended: an [APPLY_MIX] whose gains are in range (for every mix
    entry whose sound is active or in the catalog, the entry's volume times
    the master volume is from 0 to 1).  The tracks after it are, in order,
    the tracks that were active with an id of the mix, then one track for
    every mix entry whose sound was not active and is in the catalog; so
    every track has an id of the mix, and an id that was not active and that
    the catalog does not have gets no track.  Every track that was active
    with an id of the mix is there with the volume of a mix entry of that
    id; for every mix entry whose id was not active and names a sound of the
    catalog there is a new track of that sound at the entry's volume, whose
    element plays exactly when [isPlaying] is true.  When no sound of the
    mix was active, as on an empty track list, the tracks are exactly the
    entries of the mix that the catalog has, with their ids and volumes. *)
Theorem apply_mix_tracks b state mix :
  in_range state (APPLY_MIX mix) = true ->
  let after := apply_mix b state mix in
  track_ids (activeSounds (snd after))
  = List.filter (fun id => existsb (String.eqb id) (mix_ids mix))
      (track_ids (activeSounds state))
    ++ List.filter (mix_creates state) (mix_ids mix) /\
  (forall a, In a (activeSounds (snd after)) ->
     In (Sound.id (ActiveSound.sound a)) (mix_ids mix)) /\
  (forall id,
     ~ In id (track_ids (activeSounds state)) ->
     find_sound id = None ->
     ~ In id (track_ids (activeSounds (snd after)))) /\
  (forall a, In a (activeSounds state) ->
     In (Sound.id (ActiveSound.sound a)) (mix_ids mix) ->
     exists e,
       In e (mix_sounds mix) /\
       MixSound.id e = Sound.id (ActiveSound.sound a) /\
       In (ActiveSound.set_volume (MixSound.volume e) a) (activeSounds (snd after))) /\
  (forall e sound,
     In e (mix_sounds mix) ->
     ~ In (MixSound.id e) (track_ids (activeSounds state)) ->
     find_sound (MixSound.id e) = Some sound ->
     exists h,
       In (ActiveSound.mk sound h (MixSound.volume e)) (activeSounds (snd after)) /\
       HTMLAudioElement.paused <$> audios (fst after) !! h
       = Some (negb (isPlaying state))) /\
  ((forall e, In e (mix_sounds mix) ->
      ~ In (MixSound.id e) (track_ids (activeSounds state))) ->
   map (fun a => (Sound.id (ActiveSound.sound a), ActiveSound.volume a))
     (activeSounds (snd after))
   = map (fun e => (MixSound.id e, MixSound.volume e))
       (List.filter
          (fun e => match find_sound (MixSound.id e) with Some _ => true | None => false end)
          (mix_sounds mix))).
Proof.
  intros _ after. subst after.
  destruct (apply_mix_result b state mix) as (Htracks & Haudios & _).
  destruct (removal_result b state (mix_sounds mix)) as (p & Hkept & Hp).
  split; [apply apply_mix_track_ids|].
  split; [intros a; apply apply_mix_ids|].
  split.
  { intros id Hout Hfind. rewrite apply_mix_track_ids. intros Hin.
    apply in_app_or in Hin as [Hin|Hin]; apply List.filter_In in Hin as [Hin Htest].
    - contradiction.
    - unfold mix_creates in Htest. rewrite Hfind, andb_false_r in Htest. discriminate. }
  rewrite Htracks, Haudios. unfold mix_ids. split; [|split].
  - intros a Ha Hmix.
    pose proof Hmix as Hentry. apply in_map_iff in Hentry as (e0 & Hid0 & He0).
    apply (process_updates state (mix_sounds mix) (mix_sounds mix) _ a e0);
      try assumption.
    + rewrite Hkept. apply List.filter_In. split; [assumption | now apply Hp].
    + now apply current_has_track.
  - intros e sound He Hout Hfind.
    apply (process_creates_in state (mix_sounds mix) (mix_sounds mix));
      try assumption.
    now apply not_active_not_current.
  - intros Hnone.
    rewrite process_new_tracks.
    + rewrite Hkept, filter_none; simpl.
      * f_equal. apply List.filter_ext_in. intros e He. unfold mix_creates.
        replace (existsb (has_id (MixSound.id e)) (activeSounds state)) with false;
          [reflexivity|].
        symmetry. destruct (existsb _ (activeSounds state)) eqn:E; [|reflexivity].
        apply existsb_has_id in E. now destruct (Hnone e He).
      * intros a Ha. destruct (p a) eqn:Ep; [|reflexivity].
        apply Hp in Ep; [|assumption]. apply in_map_iff in Ep as (e & Hid & He).
        exfalso. apply (Hnone e He). rewrite Hid. unfold track_ids.
        apply in_map_iff. now exists a.
    + intros e He. split; [assumption|]. apply not_active_not_current. now apply Hnone.
Qed.

(** A trusted preset keeps the track list within capacity, one track per
    sound. *)
Lemma apply_mix_capacity b state mix :
  List.NoDup (track_ids (activeSounds state)) ->
  trusted_mix mix ->
  List.NoDup (track_ids (activeSounds (snd (apply_mix b state mix)))) /\
  length (activeSounds (snd (apply_mix b state mix))) <= MAX_CONCURRENT_SOUNDS.
Proof.
  intros Hnd [Hmix Hlen].
  pose proof (apply_mix_ids b state mix) as Hids.
  destruct (apply_mix_result b state mix) as (Htracks & _ & _).
  destruct (removal_result b state (mix_sounds mix)) as (p & Hkept & Hp).
  assert (List.NoDup (track_ids (activeSounds (snd (apply_mix b state mix))))) as Hnd'.
  { rewrite Htracks. apply process_NoDup; try assumption.
    - rewrite Hkept. now apply NoDup_track_ids_filter.
    - intros id _ Hnew. rewrite Hkept. intros Hin. apply track_ids_filter in Hin.
      apply existsb_has_id in Hin. rewrite <- currentActiveSoundMap_has in Hin.
      congruence. }
  split; [assumption|].
  transitivity (length (mix_ids mix)).
  - rewrite <- (length_map (fun a => Sound.id (ActiveSound.sound a))).
    apply NoDup_incl_length; [exact Hnd'|].
    intros id Hid. unfold track_ids in Hid. apply in_map_iff in Hid as (a & <- & Ha).
    now apply Hids.
  - unfold mix_ids. now rewrite length_map.
Qed.

End MixTheorems.

(** ** The capacity of the track list *)

Lemma In_delete {A} i (l : list A) x : In x (delete i l) -> In x l.
Proof.
  revert i. induction l as [|a l IH]; intros [|i]; simpl; try tauto.
  intros [->|Hin]; [now left | right; now apply (IH i)].
Qed.

Lemma length_delete_le {A} i (l : list A) : length (delete i l) <= length l.
Proof.
  revert i. induction l as [|a l IH]; intros [|i]; simpl; try lia.
  specialize (IH i). lia.
Qed.

Lemma NoDup_track_ids_delete i l :
  List.NoDup (track_ids l) -> List.NoDup (track_ids (delete i l)).
Proof.
  revert i. induction l as [|a l IH]; intros [|i]; simpl; intros Hnd;
    try assumption; apply NoDup_cons_iff in Hnd as [Ha Hnd]; [assumption|].
  constructor; [|now apply IH]. intros Hin. apply Ha.
  unfold track_ids in *. apply in_map_iff in Hin as (x & Hx & Hin).
  apply in_map_iff. exists x. split; [assumption | now apply (In_delete i)].
Qed.

Section CapacityFacts.
Context `{Catalog}.

Lemma toggle_sound_capacity b s sound :
  within_capacity s -> within_capacity (snd (toggle_sound b s sound)).
Proof.
  intros [Hlen Hnd].
  destruct (findIndex (has_id (Sound.id sound)) (activeSounds s)) as [[i x]|] eqn:Efind.
  - rewrite (toggle_sound_off _ _ _ _ _ Efind). split; simpl.
    + pose proof (length_delete_le i (activeSounds s)).
      unfold MAX_CONCURRENT_SOUNDS in *. lia.
    + now apply NoDup_track_ids_delete.
  - assert (~ In (Sound.id sound) (track_ids (activeSounds s))) as Hout.
    { apply has_id_track_ids. now apply findIndex_None. }
    destruct (Nat.le_gt_cases MAX_CONCURRENT_SOUNDS (length (activeSounds s)))
      as [Hfull|Hroom].
    + rewrite (toggle_sound_full _ _ _ Hout Hfull). now split.
    + destruct (toggle_sound_new b s sound Hout Hroom) as (volume & _ & ->).
      split; simpl.
      * rewrite length_app. simpl. unfold MAX_CONCURRENT_SOUNDS in *. lia.
      * unfold track_ids. rewrite map_app. simpl. now apply NoDup_snoc.
Qed.

Lemma audioReducer_capacity b s action :
  trusted action ->
  within_capacity s -> within_capacity (snd (audioReducer b s action)).
Proof.
  intros Htrusted Hinv.
  destruct action as [sound|soundId volume|volume| |t| |r| | |mix|mix|saved];
    simpl; try exact Hinv.
  - now apply toggle_sound_capacity.
  - destruct Hinv as [Hlen Hnd]. split; simpl.
    + now rewrite length_map.
    + now rewrite track_ids_map_volume.
  - destruct t; exact Hinv.
  - destruct Hinv as [Hlen Hnd]. destruct (apply_mix_capacity b s mix Hnd Htrusted).
    now split.
Qed.

Lemma dispatch_state action m :
  state (dispatch action m) = snd (audioReducer (browser m) (state m) action).
Proof.
  unfold dispatch. destruct (audioReducer (browser m) (state m) action) as [b s].
  destruct action as [| | | |[]| | | | | | |]; simpl; try reflexivity.
  all: try (unfold startTimer; simpl; now destruct (timerInterval m)).
  unfold stopTimer. simpl. now destruct (timerInterval m).
Qed.

Lemma dispatch_capacity action m :
  trusted action ->
  within_capacity (state m) -> within_capacity (state (dispatch action m)).
Proof. intros Ht Hinv. rewrite dispatch_state. now apply audioReducer_capacity. Qed.

Lemma swap_audio_capacity p newAudio m :
  within_capacity (state m) -> within_capacity (state (swap_audio p newAudio m)).
Proof.
  intros [Hlen Hnd]. unfold swap_audio. simpl. split; simpl.
  - now rewrite length_map.
  - unfold track_ids in *. rewrite map_map.
    erewrite map_ext; [exact Hnd|]. intros a. now destruct (p a).
Qed.

Lemma handleCrossfade_capacity oldAudio newAudio m :
  within_capacity (state m) ->
  within_capacity (state (handleCrossfade oldAudio newAudio m)).
Proof.
  intros Hinv. unfold handleCrossfade.
  repeat match goal with
         | |- context [match ?x with _ => _ end] => destruct x
         end; try assumption; now apply swap_audio_capacity.
Qed.

Lemma timerTick_capacity m :
  within_capacity (state m) -> within_capacity (state (timerTick m)).
Proof.
  intros Hinv. unfold timerTick.
  repeat match goal with
         | |- context [match ?x with _ => _ end] => destruct x
         end;
    rewrite ?stopTimer_state; repeat apply dispatch_capacity; simpl; trivial.
Qed.

Lemma restore_fold_capacity entries :
  forall m,
    within_capacity (state m) ->
    within_capacity (state (fold_left restore_entry entries m)).
Proof.
  induction entries as [|[k st] entries IH]; simpl; intros m Hinv; [assumption|].
  apply IH. destruct (find_sound k); [|assumption].
  destruct (0 <? SoundState.volume st)%float; [|assumption].
  now apply dispatch_capacity.
Qed.

Lemma new_manager_capacity b : within_capacity (state (new_manager b)).
Proof.
  unfold new_manager.
  rewrite (proj1 (startTimerIfNeeded_state _)), (proj1 (loadCustomMixes_state _)).
  unfold loadSavedState. simpl.
  destruct (stored_state b) as [parsed|]; simpl.
  - change (within_capacity
              (state (force_not_playing
                 (fold_left restore_entry parsed
                    (force_not_playing
                       (dispatch
                          (INITIALIZE_STATE
                             (fold_left
                                (fun acc entry =>
                                   obj_set acc (fst entry)
                                     (SoundState.mk (SoundState.volume (snd entry))
                                        (Some false)))
                                parsed []))
                          (mkManager initialAudioState None [] [] b))))))).
    assert (forall m, within_capacity (state m) ->
                      within_capacity (state (force_not_playing m))) as Hforce
      by (intros m Hm; exact Hm).
    apply Hforce, restore_fold_capacity, Hforce.
    split; simpl; [lia | constructor].
  - split; simpl; [lia | constructor].
Qed.

(** Every reachable manager has its track list within capacity. *)
Lemma reachable_capacity m : reachable m -> within_capacity (state m).
Proof.
  induction 1 as [b|action m _ IH Ht|oldAudio newAudio m _ IH|i t m _ IH
                 |h ct d m _ IH|f m _ IH|h e m _ IH|name m _ IH|m _ IH].
  - apply new_manager_capacity.
  - now apply dispatch_capacity.
  - now apply handleCrossfade_capacity.
  - unfold interval_fires. simpl.
    destruct (existsb _ _); [now apply timerTick_capacity | assumption].
  - assumption.
  - unfold fadeStep.
    repeat match goal with
           | |- context [match ?x with _ => _ end] => destruct x
           | |- context [if ?x then _ else _] => destruct x
           end; simpl; try assumption; now apply handleCrossfade_capacity.
  - unfold handleAudioError.
    repeat match goal with
           | |- context [match ?x with _ => _ end] => destruct x
           | |- context [if ?x then _ else _] => destruct x
           end; simpl; try assumption; now apply handleCrossfade_capacity.
  - unfold deleteCustomMix. now destruct (findIndex _ _) as [[]|].
  - unfold cleanup. now rewrite stopTimer_state.
Qed.

Lemma toggles_reachable l :
  forall m, reachable m -> reachable (toggles l m).
Proof.
  unfold toggles. induction l as [|sound l IH]; simpl; intros m Hm; [assumption|].
  apply IH. now apply (reach_dispatch (TOGGLE_SOUND sound)).
Qed.

(** A toggle keeps a track list that is within capacity within capacity,
    whatever the state is otherwise. *)
Lemma toggle_sound_length b s sound :
  length (activeSounds s) <= MAX_CONCURRENT_SOUNDS ->
  length (activeSounds (snd (toggle_sound b s sound))) <= MAX_CONCURRENT_SOUNDS.
Proof.
  intros Hlen.
  destruct (findIndex (has_id (Sound.id sound)) (activeSounds s)) as [[i x]|] eqn:Efind.
  - rewrite (toggle_sound_off _ _ _ _ _ Efind). simpl.
    pose proof (length_delete_le i (activeSounds s)). lia.
  - assert (~ In (Sound.id sound) (track_ids (activeSounds s))) as Hout.
    { apply has_id_track_ids. now apply findIndex_None. }
    destruct (Nat.le_gt_cases MAX_CONCURRENT_SOUNDS (length (activeSounds s)))
      as [Hfull|Hroom].
    + now rewrite (toggle_sound_full _ _ _ Hout Hfull).
    + destruct (toggle_sound_new b s sound Hout Hroom) as (volume & _ & ->). simpl.
      rewrite length_app. simpl. lia.
Qed.

Lemma toggles_length l :
  forall m,
    length (activeSounds (state m)) <= MAX_CONCURRENT_SOUNDS ->
    length (activeSounds (state (toggles l m))) <= MAX_CONCURRENT_SOUNDS.
Proof.
  unfold toggles. induction l as [|sound l IH]; simpl; intros m Hlen; [assumption|].
  apply IH. rewrite (proj1 (toggleSound_reducer sound m)).
  now apply toggle_sound_length.
Qed.

(** C1: every reachable manager has at most 3 active tracks; from every
    state with at most 3 active tracks, so from every reachable one, every
    sequence of toggles leaves at most 3; and the toggle of a sound that is
    not active while 3 are active changes neither the state nor the
    browser. *)
Theorem toggles_within_capacity m :
  (reachable m -> length (activeSounds (state m)) <= MAX_CONCURRENT_SOUNDS) /\
  (length (activeSounds (state m)) <= MAX_CONCURRENT_SOUNDS ->
   forall l, length (activeSounds (state (toggles l m))) <= MAX_CONCURRENT_SOUNDS) /\
  (forall sound,
     length (activeSounds (state m)) = MAX_CONCURRENT_SOUNDS ->
     ~ In (Sound.id sound) (track_ids (activeSounds (state m))) ->
     audioReducer (browser m) (state m) (TOGGLE_SOUND sound) = (browser m, state m) /\
     state (toggleSound sound m) = state m /\
     browser (toggleSound sound m) = browser m).
Proof.
  split; [|split].
  - intros Hreach. now apply reachable_capacity.
  - intros Hlen l. now apply toggles_length.
  - intros sound Hlen Hout.
    assert (toggle_sound (browser m) (state m) sound = (browser m, state m)) as Hnoop
      by (apply toggle_sound_full; [assumption | lia]).
    destruct (toggleSound_reducer sound m) as [Hs Hb].
    rewrite Hnoop in Hs, Hb. now repeat split.
Qed.

End CapacityFacts.

(** ** Gains *)

Lemma on_audio_beside h f b : beside_audios (on_audio h f b) = beside_audios b.
Proof. reflexivity. Qed.

Lemma set_gains_beside p gain l b :
  beside_audios (set_gains p gain l b) = beside_audios b.
Proof.
  unfold set_gains. revert b. induction l as [|a l IH]; simpl; intros b; [reflexivity|].
  rewrite IH. now destruct (p a).
Qed.

Lemma beside_stored b b' :
  beside_audios b' = beside_audios b -> stored_state b' = stored_state b.
Proof. unfold beside_audios. now intros [= -> _ _ _ _]. Qed.

(** The elements after the gains of the tracks chosen by [p] are all set to
    the one value [g]. *)
Lemma set_gains_constant p g l b h :
  audios (set_gains p (fun _ => g) l b) !! h =
    if existsb (fun a => p a && Nat.eqb (ActiveSound.audio a) h) l
    then HTMLAudioElement.set_volume g <$> audios b !! h
    else audios b !! h.
Proof.
  unfold set_gains. revert b. induction l as [|a l IH]; simpl; intros b; [reflexivity|].
  rewrite IH. destruct (p a); simpl; [|reflexivity].
  unfold on_audio. simpl.
  destruct (Nat.eqb_spec (ActiveSound.audio a) h) as [->|Hne]; simpl.
  - rewrite list_lookup_alter_eq.
    destruct (existsb _ l); destruct (audios b !! h) as [el|]; reflexivity.
  - rewrite list_lookup_alter_ne by assumption. reflexivity.
Qed.

(** Setting gains leaves every element that no chosen track holds. *)
Lemma set_gains_other p gain l b h :
  (forall a, In a l -> p a = true -> ActiveSound.audio a <> h) ->
  audios (set_gains p gain l b) !! h = audios b !! h.
Proof.
  unfold set_gains. revert b. induction l as [|a l IH]; simpl; intros b Hall;
    [reflexivity|].
  rewrite IH by (intros x Hx; apply Hall; now right).
  destruct (p a) eqn:Ep; [|reflexivity].
  unfold on_audio. simpl. apply list_lookup_alter_ne. apply Hall; [now left | assumption].
Qed.

(** With one element per track, each chosen track's element gets the gain
    computed for that track. *)
Lemma set_gains_distinct p gain l b a :
  List.NoDup (track_handles l) -> In a l -> p a = true ->
  audios (set_gains p gain l b) !! ActiveSound.audio a
  = HTMLAudioElement.set_volume (gain a) <$> audios b !! ActiveSound.audio a.
Proof.
  unfold set_gains. revert b. induction l as [|x l IH]; simpl; intros b Hnd Hin Hp;
    [contradiction|].
  apply NoDup_cons_iff in Hnd as [Hx Hnd]. destruct Hin as [->|Hin].
  - rewrite Hp.
    change (fold_left _ l ?b0) with (set_gains p gain l b0).
    rewrite set_gains_other.
    + unfold on_audio. simpl. apply list_lookup_alter_eq.
    + intros y Hy _ Heq. apply Hx. unfold track_handles. apply in_map_iff. now exists y.
  - rewrite IH by assumption. destruct (p x); [|reflexivity].
    unfold on_audio. simpl. rewrite list_lookup_alter_ne; [reflexivity|].
    intros Heq. apply Hx. unfold track_handles. apply in_map_iff. now exists a.
Qed.

Section VolumeFacts.
Context `{Catalog}.

(** X1: a [SET_VOLUME] whose gain is in range (the sound is not active, or
    [volume * masterVolume] is from 0 to 1) changes the volume of exactly
    the tracks of that id and the gain of exactly their elements, to
    [volume * masterVolume]; the order, the sounds and the elements of the
    tracks stay; the saved entry of the id gets [volume * 100], keeping the
    playing flag it had; every other saved entry stays; the settings are
    stored. *)
Theorem set_volume_tracks b state soundId v :
  in_range state (SET_VOLUME soundId v) = true ->
  let after := set_volume b state soundId v in
  track_ids (activeSounds (snd after)) = track_ids (activeSounds state) /\
  track_handles (activeSounds (snd after)) = track_handles (activeSounds state) /\
  (forall a, In a (activeSounds (snd after)) ->
     Sound.id (ActiveSound.sound a) = soundId -> ActiveSound.volume a = v) /\
  (forall a, In a (activeSounds state) ->
     Sound.id (ActiveSound.sound a) <> soundId -> In a (activeSounds (snd after))) /\
  (forall a, In a (activeSounds state) ->
     Sound.id (ActiveSound.sound a) = soundId ->
     audios (fst after) !! ActiveSound.audio a
     = HTMLAudioElement.set_volume (v * masterVolume state)
         <$> audios b !! ActiveSound.audio a) /\
  (forall h,
     (forall a, In a (activeSounds state) ->
        Sound.id (ActiveSound.sound a) = soundId -> ActiveSound.audio a <> h) ->
     audios (fst after) !! h = audios b !! h) /\
  (exists st,
     obj_get (soundStates (snd after)) soundId = Some st /\
     SoundState.volume st = (v * 100)%float /\
     SoundState.isPlaying st =
       match obj_get (soundStates state) soundId with
       | Some old => SoundState.isPlaying old
       | None => None
       end) /\
  (forall k, k <> soundId ->
     obj_get (soundStates (snd after)) k = obj_get (soundStates state) k) /\
  masterVolume (snd after) = masterVolume state /\
  isPlaying (snd after) = isPlaying state /\
  stored_state (fst after) = Some (soundStates (snd after)).
Proof.
  intros _ after. subst after. unfold set_volume. simpl.
  split; [apply track_ids_map_volume|]. split.
  { unfold track_handles. rewrite map_map. apply map_ext. intros a.
    now destruct (has_id soundId a). }
  split.
  { intros a Ha Hid. apply in_map_iff in Ha as (x & <- & Hx).
    destruct (has_id soundId x) eqn:E; [reflexivity|].
    unfold has_id in E. rewrite Hid, String.eqb_refl in E. discriminate. }
  split.
  { intros a Ha Hid. apply in_map_iff. exists a. split; [|assumption].
    unfold has_id. destruct (String.eqb_spec (Sound.id (ActiveSound.sound a)) soundId);
      [contradiction | reflexivity]. }
  split.
  { intros a Ha Hid. rewrite set_gains_constant.
    replace (existsb _ (activeSounds state)) with true; [reflexivity|].
    symmetry. apply existsb_exists. exists a. split; [assumption|].
    unfold has_id. now rewrite Hid, String.eqb_refl, Nat.eqb_refl. }
  split.
  { intros h Hall. apply set_gains_other. intros a Ha Hp.
    apply Hall; [assumption|]. unfold has_id in Hp. now apply String.eqb_eq. }
  split.
  { rewrite obj_get_set_eq. eexists. split; [reflexivity|].
    unfold with_saved_volume. destruct (obj_get (soundStates state) soundId); now split. }
  split.
  { intros k Hk. apply obj_get_set_ne. congruence. }
  now repeat split.
Qed.

(** X2: a [SET_MASTER_VOLUME] whose gains are in range (for every track,
    [track volume * master volume] is from 0 to 1) sets the master volume,
    leaves the tracks and the saved settings as they are and stores nothing
    (the master volume is not persisted); with one element per track, the
    element of each track gets the gain [track volume * master volume], and
    no other element changes. *)
Theorem set_master_volume_gains b state v :
  in_range state (SET_MASTER_VOLUME v) = true ->
  List.NoDup (track_handles (activeSounds state)) ->
  let after := set_master_volume b state v in
  masterVolume (snd after) = v /\
  activeSounds (snd after) = activeSounds state /\
  soundStates (snd after) = soundStates state /\
  isPlaying (snd after) = isPlaying state /\
  stored_state (fst after) = stored_state b /\
  (forall a, In a (activeSounds state) ->
     audios (fst after) !! ActiveSound.audio a
     = HTMLAudioElement.set_volume (ActiveSound.volume a * v)
         <$> audios b !! ActiveSound.audio a) /\
  (forall h, ~ In h (track_handles (activeSounds state)) ->
     audios (fst after) !! h = audios b !! h).
Proof.
  intros _ Hnd after. subst after. unfold set_master_volume. simpl.
  repeat split; try reflexivity.
  - apply beside_stored, set_gains_beside.
  - intros a Ha. now apply set_gains_distinct.
  - intros h Hh. apply set_gains_other. intros a Ha _ Heq. apply Hh.
    unfold track_handles. apply in_map_iff. now exists a.
Qed.

End VolumeFacts.

(** ** Playing and pausing every track *)

Lemma pause_all_beside l b : beside_audios (pause_all l b) = beside_audios b.
Proof.
  unfold pause_all. revert b. induction l as [|a l IH]; simpl; intros b; [reflexivity|].
  now rewrite IH.
Qed.

Lemma play_all_beside l b : beside_audios (play_all l b) = beside_audios b.
Proof.
  unfold play_all. revert b. induction l as [|a l IH]; simpl; intros b; [reflexivity|].
  now rewrite IH.
Qed.

(** The elements after [pause()] on the element of every track. *)
Lemma pause_all_lookup l b h :
  audios (pause_all l b) !! h =
    if existsb (fun a => Nat.eqb (ActiveSound.audio a) h) l
    then HTMLAudioElement.pause <$> audios b !! h
    else audios b !! h.
Proof.
  unfold pause_all. revert b. induction l as [|a l IH]; simpl; intros b; [reflexivity|].
  rewrite IH. unfold on_audio. simpl.
  destruct (Nat.eqb_spec (ActiveSound.audio a) h) as [->|Hne]; simpl.
  - rewrite list_lookup_alter_eq.
    destruct (existsb _ l); destruct (audios b !! h) as [el|]; reflexivity.
  - now rewrite list_lookup_alter_ne.
Qed.

(** The element behind a handle after the play branch ran for every track:
    what the tracks that hold the handle did to it, in order. *)
Lemma play_all_lookup l b h :
  audios (play_all l b) !! h =
    (fun el =>
       fold_left
         (fun el a =>
            if Nat.eqb (ActiveSound.audio a) h
            then play_or_reset (ActiveSound.sound a) el else el)
         l el)
      <$> audios b !! h.
Proof.
  unfold play_all. revert b. induction l as [|a l IH]; simpl; intros b.
  - now destruct (audios b !! h).
  - rewrite IH. unfold on_audio. simpl.
    destruct (Nat.eqb_spec (ActiveSound.audio a) h) as [->|Hne].
    + rewrite list_lookup_alter_eq. now destruct (audios b !! h).
    + now rewrite list_lookup_alter_ne.
Qed.

Lemma play_twice el : HTMLAudioElement.play (HTMLAudioElement.play el) = HTMLAudioElement.play el.
Proof. reflexivity. Qed.

(** On an element that has a source, the play branch of a track whose sound
    has a source is [play()], and that of a track whose sound has none does
    nothing. *)
Lemma play_or_reset_play sound el :
  truthy_str (HTMLAudioElement.src el) = true ->
  play_or_reset sound el
  = if truthy_str (Sound.audioSrc sound) then HTMLAudioElement.play el else el.
Proof.
  intros Hsrc. unfold play_or_reset. rewrite Hsrc.
  now destruct (truthy_str (Sound.audioSrc sound)).
Qed.

Lemma play_steps_other h l :
  ~ In h (track_handles l) ->
  forall el,
    fold_left
      (fun el a =>
         if Nat.eqb (ActiveSound.audio a) h
         then play_or_reset (ActiveSound.sound a) el else el)
      l el = el.
Proof.
  induction l as [|a l IH]; simpl; intros Hh el; [reflexivity|].
  destruct (Nat.eqb_spec (ActiveSound.audio a) h) as [Heq|Hne].
  - exfalso. apply Hh. now left.
  - apply IH. intros Hin. apply Hh. now right.
Qed.

(** An element that has a source, after the play branch ran for every
    track: played when a track that holds it has a sound with a source. *)
Lemma play_steps_play h l :
  forall el,
    truthy_str (HTMLAudioElement.src el) = true ->
    fold_left
      (fun el a =>
         if Nat.eqb (ActiveSound.audio a) h
         then play_or_reset (ActiveSound.sound a) el else el)
      l el
    = if existsb
           (fun a => Nat.eqb (ActiveSound.audio a) h
                     && truthy_str (Sound.audioSrc (ActiveSound.sound a))) l
      then HTMLAudioElement.play el else el.
Proof.
  induction l as [|a l IH]; simpl; intros el Hsrc; [reflexivity|].
  destruct (Nat.eqb (ActiveSound.audio a) h); simpl; [|now apply IH].
  rewrite play_or_reset_play by assumption.
  destruct (truthy_str (Sound.audioSrc (ActiveSound.sound a))); simpl.
  - rewrite IH by assumption. rewrite play_twice. now destruct (existsb _ l).
  - now apply IH.
Qed.

Lemma obj_get_map {V} (f : V -> V) (o : list (string * V)) k :
  obj_get (obj_map f o) k = f <$> obj_get o k.
Proof.
  unfold obj_map. induction o as [|[k' v'] o IH]; simpl; [reflexivity|].
  destruct (String.eqb k' k); [reflexivity | assumption].
Qed.

Lemma obj_keys_map {V} (f : V -> V) (o : list (string * V)) :
  obj_keys (obj_map f o) = obj_keys o.
Proof. unfold obj_keys, obj_map. rewrite map_map. reflexivity. Qed.

Lemma alter_last {A} (f : A -> A) (l : list A) x :
  alter f (length l) (l ++ [x]) = l ++ [f x].
Proof. induction l as [|a l IH]; simpl; [reflexivity | f_equal; exact IH]. Qed.

Lemma existsb_handle l h :
  existsb (fun a => Nat.eqb (ActiveSound.audio a) h) l = true <-> In h (track_handles l).
Proof.
  rewrite existsb_exists. unfold track_handles. rewrite in_map_iff.
  split; intros (a & Ha & Hb).
  - exists a. split; [now apply Nat.eqb_eq | assumption].
  - exists a. split; [assumption | now apply Nat.eqb_eq].
Qed.

Section PlaybackFacts.
Context `{Catalog}.

(** X3: [PAUSE_ALL_SOUNDS] pauses the element of every active track and
    changes nothing else of any element; [isPlaying] becomes false; every
    saved entry keeps its volume and is marked not playing; the tracks stay;
    the settings are stored. *)
Theorem pause_all_sounds_pauses b state :
  let after := audioReducer b state PAUSE_ALL_SOUNDS in
  isPlaying (snd after) = false /\
  activeSounds (snd after) = activeSounds state /\
  masterVolume (snd after) = masterVolume state /\
  (forall a, In a (activeSounds state) ->
     audios (fst after) !! ActiveSound.audio a
     = HTMLAudioElement.pause <$> audios b !! ActiveSound.audio a) /\
  (forall h, ~ In h (track_handles (activeSounds state)) ->
     audios (fst after) !! h = audios b !! h) /\
  obj_keys (soundStates (snd after)) = obj_keys (soundStates state) /\
  (forall k,
     obj_get (soundStates (snd after)) k
     = SoundState.set_isPlaying false <$> obj_get (soundStates state) k) /\
  stored_state (fst after) = Some (soundStates (snd after)).
Proof.
  intros after. subst after. simpl. repeat split.
  - intros a Ha. rewrite pause_all_lookup.
    replace (existsb _ (activeSounds state)) with true; [reflexivity|].
    symmetry. apply existsb_handle. unfold track_handles. apply in_map_iff. now exists a.
  - intros h Hh. rewrite pause_all_lookup.
    destruct (existsb _ (activeSounds state)) eqn:E; [|reflexivity].
    apply existsb_handle in E. contradiction.
  - apply obj_keys_map.
  - intros k. apply obj_get_map.
Qed.

(** X4: [PLAY_ALL_SOUNDS] calls [play()] on the element of every active
    track whose sound has a source, when the element has a source: the
    element is not paused afterwards, and its source, its gain and the rest
    of it are as before; no element that no track holds changes;
    [isPlaying] becomes true and every saved entry is marked playing; the
    tracks stay; the settings are stored. *)
Theorem play_all_sounds_plays b state :
  let after := audioReducer b state PLAY_ALL_SOUNDS in
  isPlaying (snd after) = true /\
  activeSounds (snd after) = activeSounds state /\
  masterVolume (snd after) = masterVolume state /\
  (forall a el, In a (activeSounds state) ->
     truthy_str (Sound.audioSrc (ActiveSound.sound a)) = true ->
     audios b !! ActiveSound.audio a = Some el ->
     truthy_str (HTMLAudioElement.src el) = true ->
     audios (fst after) !! ActiveSound.audio a = Some (HTMLAudioElement.play el) /\
     HTMLAudioElement.paused (HTMLAudioElement.play el) = false /\
     HTMLAudioElement.src (HTMLAudioElement.play el) = HTMLAudioElement.src el /\
     HTMLAudioElement.volume (HTMLAudioElement.play el) = HTMLAudioElement.volume el) /\
  (forall h, ~ In h (track_handles (activeSounds state)) ->
     audios (fst after) !! h = audios b !! h) /\
  obj_keys (soundStates (snd after)) = obj_keys (soundStates state) /\
  (forall k,
     obj_get (soundStates (snd after)) k
     = SoundState.set_isPlaying true <$> obj_get (soundStates state) k) /\
  stored_state (fst after) = Some (soundStates (snd after)).
Proof.
  intros after. subst after. simpl.
  split; [reflexivity|]. split; [reflexivity|]. split; [reflexivity|].
  split; [|split; [|split; [|split]]].
  - intros a el Ha Hsrc Hel Hhas. rewrite play_all_lookup, Hel. simpl.
    rewrite play_steps_play by assumption.
    replace (existsb _ (activeSounds state)) with true; [now repeat split|].
    symmetry. apply existsb_exists. exists a. split; [assumption|].
    now rewrite Nat.eqb_refl, Hsrc.
  - intros h Hh. rewrite play_all_lookup.
    destruct (audios b !! h) as [el|]; [|reflexivity].
    simpl. f_equal. now apply play_steps_other.
  - apply obj_keys_map.
  - intros k. apply obj_get_map.
  - reflexivity.
Qed.

(** X5: [TOGGLE_PLAY_PAUSE] is [PAUSE_ALL_SOUNDS] in a state that plays and
    [PLAY_ALL_SOUNDS] in a state that does not; so two of them give
    [isPlaying] back.  It does not look at the track list: with no active
    track it still sets [isPlaying], and the sound toggled on next, with a
    gain in range, starts playing at once. *)
Theorem toggle_play_pause_cases b state :
  audioReducer b state TOGGLE_PLAY_PAUSE
  = audioReducer b state (if isPlaying state then PAUSE_ALL_SOUNDS else PLAY_ALL_SOUNDS) /\
  (let once := audioReducer b state TOGGLE_PLAY_PAUSE in
   let twice := audioReducer (fst once) (snd once) TOGGLE_PLAY_PAUSE in
   isPlaying (snd once) = negb (isPlaying state) /\
   isPlaying (snd twice) = isPlaying state /\
   activeSounds (snd twice) = activeSounds state) /\
  (forall sound,
     activeSounds state = [] -> isPlaying state = false ->
     gain_ok (toggle_volume state sound * masterVolume state) = true ->
     let playing := audioReducer b state TOGGLE_PLAY_PAUSE in
     let on := audioReducer (fst playing) (snd playing) (TOGGLE_SOUND sound) in
     isPlaying (snd playing) = true /\
     audios (fst playing) = audios b /\
     exists el,
       audios (fst on) = audios b ++ [el] /\
       HTMLAudioElement.paused el = false /\
       HTMLAudioElement.src el = Sound.audioSrc sound /\
       HTMLAudioElement.volume el = (toggle_volume state sound * masterVolume state)%float /\
       activeSounds (snd on)
       = [ActiveSound.mk sound (length (audios b)) (toggle_volume state sound)] /\
       isPlaying (snd on) = true).
Proof.
  split; [|split].
  - simpl. unfold toggle_play_pause. now destruct (isPlaying state).
  - simpl. unfold toggle_play_pause. simpl. repeat split.
    apply negb_involutive.
  - intros sound Hnone Hpaused _. simpl.
    unfold toggle_play_pause, toggle_sound, toggle_volume.
    rewrite Hnone, Hpaused. simpl.
    split; [reflexivity|]. split; [reflexivity|].
    rewrite obj_get_map.
    destruct (obj_get (soundStates state) (Sound.id sound)) as [st|]; simpl.
    + eexists. split; [unfold on_audio; simpl; apply alter_last|].
      now repeat split.
    + eexists. split; [unfold on_audio; simpl; apply alter_last|].
      now repeat split.
Qed.

End PlaybackFacts.

(** ** Toggling a track on and off *)

Lemma lookup_In {A} (l : list A) i x : l !! i = Some x -> In x l.
Proof.
  revert i. induction l as [|a l IH]; intros [|i]; simpl; try discriminate.
  - intros [= ->]. now left.
  - intros Hl. right. now apply (IH i).
Qed.

(** What [findIndex] finds: the first element that satisfies the test. *)
Lemma findIndex_Some {A} (p : A -> bool) (l : list A) i x :
  findIndex p l = Some (i, x) ->
  l !! i = Some x /\ p x = true /\ forall y, In y (firstn i l) -> p y = false.
Proof.
  revert i. induction l as [|a l IH]; simpl; intros i; [discriminate|].
  destruct (p a) eqn:Ea.
  - intros [= <- <-]. simpl. repeat split; [assumption | intros y []].
  - destruct (findIndex p l) as [[j y]|]; [|discriminate].
    intros [= <- <-]. destruct (IH j eq_refl) as (Hl & Hp & Hbefore).
    simpl. repeat split; try assumption.
    intros z [<-|Hz]; [assumption | now apply Hbefore].
Qed.

Lemma findIndex_active id l :
  In id (track_ids l) -> exists i x, findIndex (has_id id) l = Some (i, x).
Proof.
  intros Hin. destruct (findIndex (has_id id) l) as [[i x]|] eqn:E; [eauto|].
  exfalso. revert Hin. apply has_id_track_ids. now apply findIndex_None.
Qed.

(** With one track per sound, [splice] at the index found removes the
    tracks of that sound and no other. *)
Lemma delete_found id l i x :
  List.NoDup (track_ids l) ->
  findIndex (has_id id) l = Some (i, x) ->
  delete i l = List.filter (fun a => negb (has_id id a)) l.
Proof.
  revert i. induction l as [|a l IH]; simpl; intros i Hnd; [discriminate|].
  apply NoDup_cons_iff in Hnd as [Ha Hnd].
  destruct (has_id id a) eqn:Ea; simpl.
  - intros [= <- <-]. simpl. symmetry.
    rewrite <- (filter_all l) at 2. apply filter_ext_in. intros y Hy.
    unfold has_id in *. apply String.eqb_eq in Ea.
    destruct (String.eqb_spec (Sound.id (ActiveSound.sound y)) id) as [Hy'|];
      [|reflexivity].
    exfalso. apply Ha. rewrite Ea, <- Hy'. unfold track_ids. apply in_map_iff.
    now exists y.
  - destruct (findIndex (has_id id) l) as [[j y]|]; [|discriminate].
    intros [= <- <-]. simpl. f_equal. now apply IH.
Qed.

Section ToggleFacts.
Context `{Catalog}.

(** X6: the toggle of a sound that is not active, below capacity, with a
    gain in range (the volume it takes times the master volume is from 0 to
    1), creates one audio element, at the end of the store: its source is the sound's,
    its gain the track volume times the master volume, it does not loop on
    its own, preloads, plays exactly when the state plays, and carries the
    looping listener with the volume and the master volume of this moment;
    the track holds that element; the saved entry of the sound is the
    volume times 100 with the state's playing flag; the other saved entries
    and [isPlaying] stay; the settings are stored. *)
Theorem toggle_on_creates b state sound :
  ~ In (Sound.id sound) (track_ids (activeSounds state)) ->
  length (activeSounds state) < MAX_CONCURRENT_SOUNDS ->
  gain_ok (toggle_volume state sound * masterVolume state) = true ->
  let after := toggle_sound b state sound in
  exists volume,
    volume = toggle_volume state sound /\
    audios (fst after) =
      audios b ++
      [HTMLAudioElement.mk (Sound.audioSrc sound) (volume * masterVolume state)
         (negb (isPlaying state)) false "auto" false
         (Some (Listener.mk sound volume (masterVolume state)))] /\
    activeSounds (snd after) =
      activeSounds state ++ [ActiveSound.mk sound (length (audios b)) volume] /\
    obj_get (soundStates (snd after)) (Sound.id sound) =
      Some (SoundState.mk (volume * 100) (Some (isPlaying state))) /\
    (forall k, k <> Sound.id sound ->
       obj_get (soundStates (snd after)) k = obj_get (soundStates state) k) /\
    isPlaying (snd after) = isPlaying state /\
    stored_state (fst after) = Some (soundStates (snd after)).
Proof.
  intros Hin Hlen _ after. subst after. eexists. split; [reflexivity|].
  unfold toggle_sound, toggle_volume. rewrite (findIndex_inactive _ _ Hin).
  destruct (Nat.leb_spec MAX_CONCURRENT_SOUNDS (length (activeSounds state))) as [Hge|_];
    [lia|].
  simpl. split; [|split; [reflexivity|split; [apply obj_get_set_eq|split; [|split]]]].
  - destruct (isPlaying state); simpl; [|reflexivity].
    unfold on_audio. simpl. rewrite alter_last. reflexivity.
  - intros k Hk. apply obj_get_set_ne. congruence.
  - reflexivity.
  - now destruct (isPlaying state).
Qed.

(** X7: the toggle of an active sound, with one track per sound, removes
    the track of that sound and keeps the others in their order; the
    element of the removed track is paused and loses its source, no other
    element changes; the saved entry of the sound is deleted and the others
    stay; removing the last track sets [isPlaying] to false, removing
    another leaves it; the settings are stored. *)
Theorem toggle_off_releases b state sound :
  In (Sound.id sound) (track_ids (activeSounds state)) ->
  List.NoDup (track_ids (activeSounds state)) ->
  let after := toggle_sound b state sound in
  activeSounds (snd after)
  = List.filter (fun a => negb (has_id (Sound.id sound) a)) (activeSounds state) /\
  ~ In (Sound.id sound) (track_ids (activeSounds (snd after))) /\
  S (length (activeSounds (snd after))) = length (activeSounds state) /\
  (forall a, In a (activeSounds state) ->
     Sound.id (ActiveSound.sound a) = Sound.id sound ->
     audios (fst after) !! ActiveSound.audio a
     = HTMLAudioElement.release <$> audios b !! ActiveSound.audio a) /\
  (forall h,
     (forall a, In a (activeSounds state) ->
        Sound.id (ActiveSound.sound a) = Sound.id sound -> ActiveSound.audio a <> h) ->
     audios (fst after) !! h = audios b !! h) /\
  obj_get (soundStates (snd after)) (Sound.id sound) = None /\
  (forall k, k <> Sound.id sound ->
     obj_get (soundStates (snd after)) k = obj_get (soundStates state) k) /\
  isPlaying (snd after)
  = (if Nat.eqb (length (activeSounds state)) 1 then false else isPlaying state) /\
  stored_state (fst after) = Some (soundStates (snd after)).
Proof.
  intros Hin Hnd after. subst after.
  destruct (findIndex_active _ _ Hin) as (i & x & Efind).
  rewrite (toggle_sound_off _ _ _ _ _ Efind). simpl.
  destruct (findIndex_Some _ _ _ _ Efind) as (Hlook & Hx & _).
  assert (forall a, In a (activeSounds state) ->
            Sound.id (ActiveSound.sound a) = Sound.id sound -> a = x) as Hunique.
  { intros a Ha Hid.
    assert (In x (activeSounds state)) as Hxin
      by (eapply lookup_In; eassumption).
    unfold has_id in Hx. apply String.eqb_eq in Hx.
    clear - Hnd Ha Hxin Hid Hx. unfold track_ids in Hnd.
    induction (activeSounds state) as [|y l IH]; [contradiction|].
    simpl in Hnd. apply NoDup_cons_iff in Hnd as [Hy Hnd].
    destruct Ha as [->|Ha], Hxin as [->|Hxin]; try reflexivity.
    - exfalso. apply Hy. apply in_map_iff. exists x. split; [congruence | assumption].
    - exfalso. apply Hy. apply in_map_iff. exists a. split; [congruence | assumption].
    - now apply IH. }
  assert (S (length (delete i (activeSounds state))) = length (activeSounds state)) as Hlen.
  { rewrite length_delete; [|eauto]. pose proof (lookup_lt_Some _ _ _ Hlook). lia. }
  split; [exact (delete_found _ _ i x Hnd Efind)|]. split.
  { rewrite (delete_found _ _ i x Hnd Efind). unfold track_ids.
    intros Hi. apply in_map_iff in Hi as (a & Hid & Ha).
    apply List.filter_In in Ha as [_ Ha]. unfold has_id in Ha.
    now rewrite Hid, String.eqb_refl in Ha. }
  split; [exact Hlen|]. split.
  { intros a Ha Hid. rewrite (Hunique a Ha Hid). unfold on_audio. simpl.
    apply list_lookup_alter_eq. }
  split.
  { intros h Hall. unfold on_audio. simpl. apply list_lookup_alter_ne.
    apply Hall.
    - eapply lookup_In. eassumption.
    - unfold has_id in Hx. now apply String.eqb_eq. }
  split; [apply obj_get_delete_eq|]. split.
  { intros k Hk. apply obj_get_delete_ne. congruence. }
  split; [|reflexivity].
  destruct (length (activeSounds state)) as [|[|n]]; [lia| |].
  - replace (length (delete i (activeSounds state))) with 0 by lia. reflexivity.
  - replace (length (delete i (activeSounds state))) with (S n) by lia. reflexivity.
Qed.

End ToggleFacts.

(** ** What the reducer persists and what it leaves alone *)

Section ReducerFrame.
Context `{Catalog}.

Lemma mix_remove_beside removed :
  forall acc,
    beside_audios (mix_browser (fold_left mix_remove removed acc))
    = beside_audios (mix_browser acc).
Proof.
  induction removed as [|r removed IH]; simpl; intros acc; [reflexivity|].
  rewrite IH. now destruct acc as [[b act] sts].
Qed.

Lemma mix_process_beside state mixSounds current entries :
  forall acc,
    beside_audios (mix_browser (fold_left (mix_process state mixSounds current) entries acc))
    = beside_audios (mix_browser acc).
Proof.
  induction entries as [|e entries IH]; simpl; intros acc; [reflexivity|].
  rewrite IH. destruct acc as [[b act] sts]. unfold mix_process, mix_browser. simpl.
  destruct (obj_has current (MixSound.id e)); [apply set_gains_beside|].
  destruct (find _ mixSounds); [|reflexivity].
  destruct (find_sound (MixSound.id e)); [|reflexivity].
  now destruct (isPlaying state).
Qed.

(** The browser and the state after [APPLY_MIX], from the two loops. *)
Lemma apply_mix_unfold b state mix :
  let acc :=
    fold_left (mix_process state (mix_sounds mix) (currentActiveSoundMap state))
      (mix_sounds mix)
      (fold_left mix_remove (soundsToRemove state (mix_sounds mix))
         (b, activeSounds state, soundStates state)) in
  apply_mix b state mix =
    (store_state (snd acc) (mix_browser acc),
     mkAudioState (mix_tracks acc) (masterVolume state) (isPlaying state)
       (timer state) (timeRemaining state) (timerEndTime state) (snd acc)).
Proof.
  unfold apply_mix. simpl.
  destruct (fold_left _ (mix_sounds mix) _) as [[b' act'] sts']. reflexivity.
Qed.

Lemma beside_frame b b' :
  beside_audios b' = beside_audios b ->
  stored_mixes b' = stored_mixes b /\ intervals b' = intervals b /\
  next_interval b' = next_interval b /\ clock b' = clock b.
Proof. unfold beside_audios. intros [= _ -> -> -> ->]. now repeat split. Qed.

(** The reducer leaves the stored custom mixes, the interval timers and the
    clock alone. *)
Lemma audioReducer_browser_frame b state action :
  stored_mixes (fst (audioReducer b state action)) = stored_mixes b /\
  intervals (fst (audioReducer b state action)) = intervals b /\
  next_interval (fst (audioReducer b state action)) = next_interval b /\
  clock (fst (audioReducer b state action)) = clock b.
Proof.
  destruct action as [sound|soundId volume|volume| |timer| |remaining| | |mix|mix|saved];
    [|simpl..]; try (now repeat split).
  - cbn [audioReducer]. unfold toggle_sound.
    destruct (findIndex _ (activeSounds state)) as [[i x]|]; [now repeat split|].
    destruct (Nat.leb MAX_CONCURRENT_SOUNDS (length (activeSounds state)));
      [now repeat split|].
    destruct (isPlaying state); now repeat split.
  - apply beside_frame, set_gains_beside.
  - apply beside_frame, set_gains_beside.
  - unfold toggle_play_pause. simpl. destruct (isPlaying state); simpl.
    + apply beside_frame, pause_all_beside.
    + apply beside_frame, play_all_beside.
  - apply beside_frame, pause_all_beside.
  - apply beside_frame, play_all_beside.
  - rewrite apply_mix_unfold. simpl. apply beside_frame.
    now rewrite mix_process_beside, mix_remove_beside.
Qed.

(** X8: the reducer never changes the saved settings without storing them:
    after every action other than [INITIALIZE_STATE], either the stored
    item is exactly the new settings, or neither the stored item nor the
    settings changed.  It never touches the stored custom mixes, the
    interval timers or the clock. *)
Theorem reducer_persists_settings b state action :
  let after := audioReducer b state action in
  ((exists saved,
      action = INITIALIZE_STATE saved /\ soundStates (snd after) = saved /\
      fst after = b) \/
   stored_state (fst after) = Some (soundStates (snd after)) \/
   (stored_state (fst after) = stored_state b /\
    soundStates (snd after) = soundStates state)) /\
  stored_mixes (fst after) = stored_mixes b /\
  intervals (fst after) = intervals b /\
  next_interval (fst after) = next_interval b /\
  clock (fst after) = clock b.
Proof.
  intros after. subst after. split; [|apply audioReducer_browser_frame].
  destruct action as [sound|soundId volume|volume| |timer| |remaining| | |mix|mix|saved];
    [|simpl..].
  - (* TOGGLE_SOUND *)
    cbn [audioReducer]. unfold toggle_sound.
    destruct (findIndex _ (activeSounds state)) as [[i x]|].
    + right. left. reflexivity.
    + destruct (Nat.leb MAX_CONCURRENT_SOUNDS (length (activeSounds state))).
      * right. right. now split.
      * destruct (isPlaying state); right; left; reflexivity.
  - right. left. reflexivity.
  - right. right. split; [|reflexivity]. apply beside_stored, set_gains_beside.
  - right. left. reflexivity.
  - right. right. split; [reflexivity | now destruct timer].
  - right. right. now split.
  - right. right. now split.
  - right. left. reflexivity.
  - right. left. reflexivity.
  - rewrite apply_mix_unfold. right. left. reflexivity.
  - right. right. now split.
  - left. exists saved. now repeat split.
Qed.

(** X9: the timer and the playback do not touch each other in the reducer:
    [SET_TIMER], [CANCEL_TIMER] and [UPDATE_TIMER] change nothing of the
    browser, the tracks, the volumes, [isPlaying] or the saved settings;
    every other action leaves the timer option, the remaining time and the
    deadline as they are. *)
Theorem reducer_timer_frame b state action :
  let after := audioReducer b state action in
  match action with
  | SET_TIMER _ | CANCEL_TIMER | UPDATE_TIMER _ =>
      fst after = b /\
      activeSounds (snd after) = activeSounds state /\
      masterVolume (snd after) = masterVolume state /\
      isPlaying (snd after) = isPlaying state /\
      soundStates (snd after) = soundStates state
  | _ =>
      timer (snd after) = timer state /\
      timeRemaining (snd after) = timeRemaining state /\
      timerEndTime (snd after) = timerEndTime state
  end.
Proof.
  intros after. subst after.
  destruct action as [sound|soundId volume|volume| |timer| |remaining| | |mix|mix|saved];
    [|simpl; try (now repeat split)..].
  - cbn [audioReducer]. unfold toggle_sound.
    destruct (findIndex _ (activeSounds state)) as [[i x]|]; [now repeat split|].
    destruct (Nat.leb MAX_CONCURRENT_SOUNDS (length (activeSounds state)));
      now repeat split.
  - destruct timer; now repeat split.
  - rewrite apply_mix_unfold. now repeat split.
Qed.

End ReducerFrame.

(** ** The countdown *)

Section TimerFacts.
Context `{Catalog}.

Lemma dispatch_reducer action m :
  state (dispatch action m) = snd (audioReducer (browser m) (state m) action) /\
  broadcasts (dispatch action m) = broadcasts m ++ [state (dispatch action m)] /\
  customMixes (dispatch action m) =
    match action with
    | SAVE_CUSTOM_MIX mix => customMixes (save_mix mix m)
    | _ => customMixes m
    end.
Proof.
  unfold dispatch. destruct (audioReducer (browser m) (state m) action) as [b s] eqn:E.
  destruct action as [sound|soundId volume|volume| |timer| |remaining| | |mix|mix|saved]; simpl; try (now repeat split).
  - destruct timer; simpl; try (now repeat split);
      destruct (timerInterval m); now repeat split.
  - unfold stopTimer. simpl. destruct (timerInterval m); now repeat split.
Qed.

(** A dispatch other than a timer action or the saving of a mix leaves the
    browser as the reducer leaves it and the manager's interval and mixes
    as they are. *)
Lemma dispatch_plain action m :
  match action with
  | SET_TIMER _ | CANCEL_TIMER | SAVE_CUSTOM_MIX _ => False
  | _ => True
  end ->
  browser (dispatch action m) = fst (audioReducer (browser m) (state m) action) /\
  timerInterval (dispatch action m) = timerInterval m /\
  customMixes (dispatch action m) = customMixes m.
Proof.
  unfold dispatch. destruct (audioReducer (browser m) (state m) action) as [b s].
  destruct action as [sound|soundId volume|volume| |timer| |remaining| | |mix|mix|saved]; simpl; intros []; now repeat split.
Qed.

(** X10: after [setTimer] with any option but ["endless"], a run of the
    tick callback [d] ms later, before the deadline, sets the remaining
    time to the option's duration minus [d] and leaves everything else: the
    option, the deadline, the tracks, [isPlaying], the elements and the
    armed interval.  The listeners see the armed state, then the ticked
    one. *)
Theorem countdown_ticks m option d :
  option <> Tendless ->
  (0 <= clock (browser m))%Z ->
  (0 <= d < minutes_of option * 60 * 1000)%Z ->
  let armed := setTimer option m in
  exists i,
    timerInterval armed = Some i /\
    In i (intervals (browser armed)) /\
    let ticked := interval_fires i (clock (browser m) + d) armed in
    timeRemaining (state ticked) = Some (minutes_of option * 60 * 1000 - d)%Z /\
    timer (state ticked) = option /\
    timerEndTime (state ticked)
    = Some (clock (browser m) + minutes_of option * 60 * 1000)%Z /\
    activeSounds (state ticked) = activeSounds (state m) /\
    isPlaying (state ticked) = isPlaying (state m) /\
    soundStates (state ticked) = soundStates (state m) /\
    audios (browser ticked) = audios (browser m) /\
    timerInterval ticked = Some i /\
    In i (intervals (browser ticked)) /\
    broadcasts ticked = broadcasts m ++ [state armed; state ticked].
Proof.
  intros Hopt Hclock Hd armed.
  assert (0 < minutes_of option * 60 * 1000)%Z as Hpos by lia.
  exists (next_interval (browser m)).
  assert (timerInterval armed = Some (next_interval (browser m)) /\
          In (next_interval (browser m)) (intervals (browser armed)) /\
          state armed = set_timer (clock (browser m)) (state m) option /\
          audios (browser armed) = audios (browser m) /\
          broadcasts armed = broadcasts m ++ [state armed]) as (Hi & Hlive & Hs & Ha & Hlog).
  { subst armed. unfold setTimer, dispatch, startTimer. simpl.
    destruct option; try congruence;
      (destruct (timerInterval m); simpl;
       repeat split; apply in_or_app; right; now left). }
  split; [exact Hi|]. split; [exact Hlive|].
  assert (timerEndTime (state armed)
          = Some (clock (browser m) + minutes_of option * 60 * 1000)%Z) as Hend.
  { rewrite Hs. destruct option; try congruence; reflexivity. }
  clearbody armed.
  intros ticked. subst ticked. unfold interval_fires. simpl.
  rewrite (existsb_live _ _ Hlive). unfold timerTick. simpl.
  rewrite Hend.
  destruct (Z.eqb_spec (clock (browser m) + minutes_of option * 60 * 1000) 0); [lia|].
  destruct (Z.leb_spec
              (clock (browser m) + minutes_of option * 60 * 1000 - (clock (browser m) + d))
              0); [lia|].
  unfold dispatch. simpl. rewrite Hend, Hs, Hlog, Hi.
  replace (clock (browser m) + minutes_of option * 60 * 1000 - (clock (browser m) + d))%Z
    with (minutes_of option * 60 * 1000 - d)%Z by lia.
  repeat split; try assumption.
  - destruct option; try congruence; reflexivity.
  - destruct option; reflexivity.
  - destruct option; reflexivity.
  - destruct option; reflexivity.
  - rewrite <- app_assoc. simpl. rewrite Hs. reflexivity.
Qed.

(** *** The manager's interval *)

Lemma owns_interval_same m m' :
  timerInterval m' = timerInterval m ->
  next_interval (browser m') = next_interval (browser m) ->
  owns_interval m -> owns_interval m'.
Proof. unfold owns_interval. intros -> ->. auto. Qed.

Lemma owns_interval_stopTimer m : owns_interval (stopTimer m).
Proof. intros i Hi. rewrite stopTimer_stopped in Hi. discriminate. Qed.

Lemma stopTimer_next m :
  next_interval (browser (stopTimer m)) = next_interval (browser m).
Proof. unfold stopTimer. now destruct (timerInterval m). Qed.

Lemma dispatch_interval action m :
  (timerInterval (dispatch action m) = timerInterval m /\
   next_interval (browser (dispatch action m)) = next_interval (browser m)) \/
  (timerInterval (dispatch action m) = None) \/
  (timerInterval (dispatch action m) = Some (next_interval (browser m)) /\
   next_interval (browser (dispatch action m)) = Pos.succ (next_interval (browser m))).
Proof.
  unfold dispatch.
  pose proof (audioReducer_browser_frame (browser m) (state m) action) as (_ & _ & Hn & _).
  destruct (audioReducer (browser m) (state m) action) as [b s]. simpl in Hn.
  destruct action as [sound|soundId volume|volume| |timer| |remaining| | |mix|mix|saved]; simpl; try (left; now split).
  - destruct timer; simpl; try (left; now split);
      right; right; unfold startTimer; simpl;
      destruct (timerInterval m); simpl; now rewrite Hn.
  - right. left. apply stopTimer_stopped.
Qed.

Lemma owns_interval_dispatch action m :
  owns_interval m -> owns_interval (dispatch action m).
Proof.
  intros Hm. destruct (dispatch_interval action m) as [[Hi Hn]|[Hi|[Hi Hn]]].
  - now apply (owns_interval_same m).
  - intros i E. congruence.
  - intros i E. rewrite Hi in E. injection E as <-. rewrite Hn. lia.
Qed.

Lemma swap_audio_interval p newAudio m :
  timerInterval (swap_audio p newAudio m) = timerInterval m /\
  beside_audios (browser (swap_audio p newAudio m)) = beside_audios (browser m).
Proof.
  unfold swap_audio. simpl. split; [reflexivity|].
  generalize (browser m). induction (activeSounds (state m)) as [|a l IH];
    simpl; intros b; [reflexivity|].
  rewrite IH. now destruct (p a).
Qed.

Lemma handleCrossfade_interval oldAudio newAudio m :
  timerInterval (handleCrossfade oldAudio newAudio m) = timerInterval m /\
  beside_audios (browser (handleCrossfade oldAudio newAudio m))
  = beside_audios (browser m).
Proof.
  unfold handleCrossfade.
  repeat match goal with
         | |- context [match ?x with _ => _ end] => destruct x
         end; try (now split); apply swap_audio_interval.
Qed.

Lemma beside_next b b' :
  beside_audios b' = beside_audios b -> next_interval b' = next_interval b.
Proof. unfold beside_audios. now intros [= _ _ _ -> _]. Qed.

Lemma owns_interval_handleCrossfade oldAudio newAudio m :
  owns_interval m -> owns_interval (handleCrossfade oldAudio newAudio m).
Proof.
  destruct (handleCrossfade_interval oldAudio newAudio m) as [Hi Hb].
  apply owns_interval_same; [assumption | now apply beside_next].
Qed.

Lemma handleTimeUpdate_beside h currentTime duration b :
  beside_audios (fst (handleTimeUpdate h currentTime duration b)) = beside_audios b.
Proof.
  unfold handleTimeUpdate.
  destruct (audios b !! h) as [audio|]; [|reflexivity].
  destruct (HTMLAudioElement.listener audio) as [l|]; [|reflexivity].
  destruct (HTMLAudioElement.crossfadeTriggered audio); [reflexivity|].
  destruct (negb (truthy duration) || (duration =? infinity)%float); [reflexivity|].
  destruct (duration - 3 <=? currentTime)%float; [|reflexivity].
  simpl.
  destruct (negb (HTMLAudioElement.paused audio)
            && truthy_str (Sound.audioSrc (Listener.sound l))); reflexivity.
Qed.

Lemma owns_interval_timerTick m : owns_interval m -> owns_interval (timerTick m).
Proof.
  intros Hm. unfold timerTick.
  destruct (timerEndTime (state m)) as [e|]; [|apply owns_interval_stopTimer].
  destruct (Z.eqb e 0); [apply owns_interval_stopTimer|].
  destruct (e - clock (browser m) <=? 0)%Z; [apply owns_interval_stopTimer|].
  now apply owns_interval_dispatch.
Qed.

Lemma owns_interval_fadeStep f m : owns_interval m -> owns_interval (fst (fadeStep f m)).
Proof.
  intros Hm. unfold fadeStep.
  destruct (negb (isCurrentlyPlaying f) || _); simpl.
  - apply owns_interval_handleCrossfade. now apply (owns_interval_same m).
  - destruct (fadeSteps <=? currentStep f + 1)%float; simpl.
    + apply owns_interval_handleCrossfade. now apply (owns_interval_same m).
    + now apply (owns_interval_same m).
Qed.

Lemma owns_interval_handleAudioError h hasError m :
  owns_interval m -> owns_interval (handleAudioError h hasError m).
Proof.
  intros Hm. unfold handleAudioError.
  destruct (audios (browser m) !! h) as [audio|]; [|assumption].
  destruct (HTMLAudioElement.listener audio) as [l|]; [|assumption].
  destruct (hasError && negb (HTMLAudioElement.crossfadeTriggered audio)); [|assumption].
  simpl. apply owns_interval_handleCrossfade.
  apply (owns_interval_same m); [reflexivity| |assumption].
  now destruct (negb (HTMLAudioElement.paused audio)).
Qed.

Lemma toggleSound_interval sound m :
  timerInterval (toggleSound sound m) = timerInterval m /\
  customMixes (toggleSound sound m) = customMixes m /\
  stored_mixes (browser (toggleSound sound m)) = stored_mixes (browser m) /\
  intervals (browser (toggleSound sound m)) = intervals (browser m) /\
  next_interval (browser (toggleSound sound m)) = next_interval (browser m) /\
  clock (browser (toggleSound sound m)) = clock (browser m) /\
  masterVolume (state (toggleSound sound m)) = masterVolume (state m) /\
  timer (state (toggleSound sound m)) = timer (state m) /\
  timeRemaining (state (toggleSound sound m)) = timeRemaining (state m) /\
  timerEndTime (state (toggleSound sound m)) = timerEndTime (state m).
Proof.
  destruct (dispatch_plain (TOGGLE_SOUND sound) m I) as (Hb & Hi & Hc).
  destruct (dispatch_reducer (TOGGLE_SOUND sound) m) as (Hs & _).
  unfold toggleSound. rewrite Hb, Hs, Hi, Hc.
  pose proof (audioReducer_browser_frame (browser m) (state m) (TOGGLE_SOUND sound))
    as (E1 & E2 & E3 & E4).
  rewrite E1, E2, E3, E4. repeat split.
  all: cbn [audioReducer]; unfold toggle_sound;
    destruct (findIndex _ (activeSounds (state m))) as [[i x]|]; [reflexivity|];
    destruct (Nat.leb MAX_CONCURRENT_SOUNDS (length (activeSounds (state m))));
    reflexivity.
Qed.

(** What [loadSavedState] cannot change, entry after entry. *)
Lemma restore_fold_frame entries :
  forall m,
    let m' := fold_left restore_entry entries m in
    timerInterval m' = timerInterval m /\
    customMixes m' = customMixes m /\
    stored_mixes (browser m') = stored_mixes (browser m) /\
    intervals (browser m') = intervals (browser m) /\
    next_interval (browser m') = next_interval (browser m) /\
    clock (browser m') = clock (browser m) /\
    masterVolume (state m') = masterVolume (state m) /\
    timer (state m') = timer (state m) /\
    timeRemaining (state m') = timeRemaining (state m) /\
    timerEndTime (state m') = timerEndTime (state m).
Proof.
  induction entries as [|[k st] entries IH]; intros m; [now repeat split|].
  cbn [fold_left]. cbv zeta.
  assert (restore_entry m (k, st) = m \/
          exists sound, restore_entry m (k, st) = toggleSound sound m) as [E|[sound E]].
  { unfold restore_entry. destruct (find_sound k) as [sound|]; [|now left].
    destruct (0 <? SoundState.volume st)%float; [right; now exists sound | now left]. }
  - rewrite E. apply IH.
  - rewrite E. specialize (IH (toggleSound sound m)). cbv zeta in IH.
    destruct (toggleSound_interval sound m)
      as (E1 & E2 & E3 & E4 & E5 & E6 & E7 & E8 & E9 & E10).
    destruct IH as (I1 & I2 & I3 & I4 & I5 & I6 & I7 & I8 & I9 & I10).
    repeat split; congruence.
Qed.

(** What [loadSavedState] leaves of a manager that has the initial state. *)
Lemma loadSavedState_frame b :
  let m0 := mkManager initialAudioState None [] [] b in
  masterVolume (state (loadSavedState m0)) = 0.7%float /\
  isPlaying (state (loadSavedState m0)) = false /\
  timer (state (loadSavedState m0)) = Tendless /\
  timeRemaining (state (loadSavedState m0)) = None /\
  timerEndTime (state (loadSavedState m0)) = None /\
  timerInterval (loadSavedState m0) = None /\
  intervals (browser (loadSavedState m0)) = intervals b /\
  customMixes (loadSavedState m0) = [] /\
  stored_mixes (browser (loadSavedState m0)) = stored_mixes b /\
  (stored_state b = None -> loadSavedState m0 = m0).
Proof.
  intros m0. subst m0.
  unfold loadSavedState. simpl. destruct (stored_state b) as [parsed|];
    [|now repeat split].
  match goal with
  | |- context [fold_left restore_entry parsed ?m1] =>
      destruct (restore_fold_frame parsed m1)
        as (I1 & I2 & I3 & I4 & I5 & I6 & I7 & I8 & I9 & I10)
  end.
  simpl in *. repeat split; try assumption. discriminate.
Qed.

Lemma new_manager_unarmed b :
  new_manager b = loadCustomMixes (loadSavedState (mkManager initialAudioState None [] [] b)).
Proof.
  unfold new_manager.
  destruct (loadSavedState_frame b) as (_ & _ & _ & _ & E5 & _).
  unfold startTimerIfNeeded.
  rewrite (proj1 (loadCustomMixes_state _)). now rewrite E5.
Qed.

Lemma new_manager_no_interval b : timerInterval (new_manager b) = None.
Proof.
  rewrite new_manager_unarmed.
  destruct (loadSavedState_frame b) as (_ & _ & _ & _ & _ & E6 & _).
  unfold loadCustomMixes. now destruct (stored_mixes _).
Qed.

(** X11: a new manager starts from the defaults whatever the storage holds:
    master volume 0.7, not playing, timer endless with no remaining time
    and no deadline; it arms no interval (neither the master volume nor the
    timer is persisted); its custom mixes are the stored ones, none when
    nothing is stored.  With no stored settings the state is the initial
    state, no listener is notified and the browser is untouched. *)
Theorem new_manager_defaults b :
  let m := new_manager b in
  masterVolume (state m) = 0.7%float /\
  isPlaying (state m) = false /\
  timer (state m) = Tendless /\
  timeRemaining (state m) = None /\
  timerEndTime (state m) = None /\
  timerInterval m = None /\
  intervals (browser m) = intervals b /\
  customMixes m = default [] (stored_mixes b) /\
  stored_mixes (browser m) = stored_mixes b /\
  (stored_state b = None ->
   state m = initialAudioState /\ broadcasts m = [] /\ browser m = b).
Proof.
  intros m. subst m. rewrite new_manager_unarmed.
  set (m0 := mkManager initialAudioState None [] [] b).
  destruct (loadSavedState_frame b) as (E1 & E2 & E3 & E4 & E5 & E6 & E7 & E8 & E9 & E10).
  fold m0 in E1, E2, E3, E4, E5, E6, E7, E8, E9, E10.
  destruct (loadCustomMixes_state (loadSavedState m0)) as [Hs Hb].
  rewrite Hs, Hb.
  do 5 (split; [assumption|]).
  split; [unfold loadCustomMixes; now destruct (stored_mixes (browser (loadSavedState m0)))|].
  split; [assumption|].
  split; [unfold loadCustomMixes; rewrite E9;
          destruct (stored_mixes b); simpl; [reflexivity | exact E8]|].
  split; [assumption|].
  intros Hnone. rewrite (E10 Hnone). split; [reflexivity|].
  unfold loadCustomMixes. simpl. destruct (stored_mixes b); now split.
Qed.

(** Every manager of a session holds an interval that [setInterval] handed
    out. *)
Lemma reachable_owns_interval m : reachable m -> owns_interval m.
Proof.
  induction 1 as [b|action m _ IH _|oldAudio newAudio m _ IH|i t m _ IH
                 |h currentTime duration m _ IH|f m _ IH|h hasError m _ IH
                 |mixName m _ IH|m _ IH].
  - intros i Hi. rewrite new_manager_no_interval in Hi. discriminate.
  - now apply owns_interval_dispatch.
  - now apply owns_interval_handleCrossfade.
  - unfold interval_fires. simpl.
    destruct (existsb (Pos.eqb i) (intervals (browser m))).
    + apply owns_interval_timerTick. now apply (owns_interval_same m).
    + now apply (owns_interval_same m).
  - apply (owns_interval_same m); [reflexivity| |assumption].
    simpl. apply beside_next, handleTimeUpdate_beside.
  - now apply owns_interval_fadeStep.
  - now apply owns_interval_handleAudioError.
  - unfold deleteCustomMix. destruct (findIndex _ (customMixes m)) as [[j x]|];
      [|assumption].
    now apply (owns_interval_same m).
  - unfold cleanup. apply owns_interval_stopTimer.
Qed.

(** X12: arming the timer again never leaves the earlier tick loop
    running: in a session, [setTimer] with any option but ["endless"] on a
    manager that holds an interval clears that interval, arms a new one and
    holds it; the other live intervals of the page stay. *)
Theorem rearm_clears_previous m option i :
  reachable m ->
  option <> Tendless ->
  timerInterval m = Some i ->
  let m' := setTimer option m in
  timerInterval m' = Some (next_interval (browser m)) /\
  In (next_interval (browser m)) (intervals (browser m')) /\
  ~ In i (intervals (browser m')) /\
  (forall j, j <> i -> In j (intervals (browser m)) -> In j (intervals (browser m'))).
Proof.
  intros Hreach Hopt Hi m'.
  pose proof (reachable_owns_interval m Hreach i Hi) as Hfresh.
  assert (browser m' =
            fst (setInterval (clearInterval i (browser m))) /\
          timerInterval m' = Some (next_interval (browser m))) as [Hb Ht].
  { subst m'. unfold setTimer, dispatch, startTimer. simpl. rewrite Hi.
    destruct option; try congruence; now split. }
  split; [exact Ht|]. rewrite Hb. simpl. split; [|split].
  - apply in_or_app. right. now left.
  - intros Hin. apply in_app_or in Hin as [Hin|[Heq|[]]].
    + apply List.filter_In in Hin as [_ Hne]. now rewrite Pos.eqb_refl in Hne.
    + lia.
  - intros j Hj Hin. apply in_or_app. left. apply List.filter_In.
    split; [assumption|]. apply negb_true_iff. now apply Pos.eqb_neq.
Qed.

End TimerFacts.

(** ** Custom mixes *)

Lemma In_insert {A} i (l : list A) x y :
  In y (<[i:=x]> l) -> y = x \/ In y l.
Proof.
  revert i. induction l as [|a l IH]; intros [|i]; simpl; try tauto.
  - intros [<-|Hin]; [now left | right; now right].
  - intros [<-|Hin]; [right; now left|].
    destruct (IH i Hin); [now left | right; now right].
Qed.

Lemma findIndex_insert {A} (p : A -> bool) (l : list A) i old x :
  findIndex p l = Some (i, old) -> p x = true ->
  findIndex p (<[i:=x]> l) = Some (i, x) /\
  find p (<[i:=x]> l) = Some x /\
  length (<[i:=x]> l) = length l /\
  (forall y, In y l -> p y = false -> In y (<[i:=x]> l)).
Proof.
  revert i. induction l as [|a l IH]; simpl; intros i; [discriminate|].
  destruct (p a) eqn:Ea.
  - intros [= <- <-] Hx. simpl. rewrite Hx. repeat split.
    intros y [->|Hy] Hp; [congruence | now right].
  - destruct (findIndex p l) as [[j y]|] eqn:El; [|discriminate].
    intros [= <- <-] Hx. destruct (IH j eq_refl Hx) as (Hf & Hfind & Hlen & Hkeep).
    simpl. rewrite Ea, Hf, Hfind, Hlen. repeat split.
    intros z [->|Hz] Hp; [now left | right; now apply Hkeep].
Qed.

Lemma find_snoc {A} (p : A -> bool) (l : list A) x :
  findIndex p l = None -> p x = true -> find p (l ++ [x]) = Some x.
Proof.
  induction l as [|a l IH]; simpl; intros Hl Hx; [now rewrite Hx|].
  destruct (p a); [discriminate|].
  destruct (findIndex p l) as [[j y]|]; [discriminate | now apply IH].
Qed.

Lemma mix_names_insert name ms i old mix :
  findIndex (named name) ms = Some (i, old) -> mix_name mix = name ->
  mix_names (<[i:=mix]> ms) = mix_names ms.
Proof.
  revert i. induction ms as [|a ms IH]; simpl; intros i; [discriminate|].
  destruct (named name a) eqn:Ea.
  - intros [= <- <-] Hmix. simpl. f_equal. unfold named in Ea.
    apply String.eqb_eq in Ea. congruence.
  - destruct (findIndex (named name) ms) as [[j y]|]; [|discriminate].
    intros [= <- <-] Hmix. simpl. f_equal. now apply (IH j).
Qed.

Lemma named_names name ms :
  (forall x, In x ms -> named name x = false) <-> ~ In name (mix_names ms).
Proof.
  unfold mix_names, named. rewrite in_map_iff. split.
  - intros Hall (x & <- & Hx). specialize (Hall x Hx).
    now rewrite String.eqb_refl in Hall.
  - intros Hn x Hx. destruct (String.eqb_spec (mix_name x) name); [|reflexivity].
    exfalso. apply Hn. now exists x.
Qed.

Lemma findIndex_named_None name ms :
  findIndex (named name) ms = None <-> ~ In name (mix_names ms).
Proof. rewrite findIndex_None. apply named_names. Qed.

(** With one mix per name, [splice] at the index found leaves no mix of
    that name. *)
Lemma delete_named name ms i x :
  findIndex (named name) ms = Some (i, x) ->
  delete i ms = firstn i ms ++ skipn (S i) ms /\
  (forall y, In y (delete i ms) -> In y ms) /\
  (forall y, In y ms -> named name y = false -> In y (delete i ms)) /\
  S (length (delete i ms)) = length ms /\
  (List.NoDup (mix_names ms) -> ~ In name (mix_names (delete i ms))) /\
  (List.NoDup (mix_names ms) -> List.NoDup (mix_names (delete i ms))).
Proof.
  revert i. induction ms as [|a ms IH]; simpl; intros i; [discriminate|].
  destruct (named name a) eqn:Ea.
  - intros [= <- <-]. simpl. rewrite drop_0. repeat split.
    + intros y Hy. now right.
    + intros y [->|Hy] Hp; [congruence | assumption].
    + intros Hnd. apply NoDup_cons_iff in Hnd as [Ha _].
      unfold named in Ea. apply String.eqb_eq in Ea. now rewrite <- Ea.
    + intros Hnd. now apply NoDup_cons_iff in Hnd as [_ Hnd].
  - destruct (findIndex (named name) ms) as [[j y]|]; [|discriminate].
    intros [= <- <-]. destruct (IH j eq_refl) as (Hd & Hsub & Hkeep & Hlen & Hgone & Hnd').
    simpl. repeat split.
    + f_equal. exact Hd.
    + intros z [->|Hz]; [now left | right; now apply Hsub].
    + intros z [->|Hz] Hp; [now left | right; now apply Hkeep].
    + now rewrite Hlen.
    + intros Hnd. apply NoDup_cons_iff in Hnd as [_ Hnd]. intros [Heq|Hin].
      * unfold named in Ea. rewrite Heq, String.eqb_refl in Ea. discriminate.
      * now apply Hgone.
    + intros Hnd. apply NoDup_cons_iff in Hnd as [Ha Hnd]. constructor.
      * intros Hin. apply Ha. unfold mix_names in *.
        apply in_map_iff in Hin as (z & Hz & Hin). apply in_map_iff.
        exists z. split; [assumption | now apply Hsub].
      * now apply Hnd'.
Qed.

Section MixStoreFacts.
Context `{Catalog}.

Lemma saveCustomMix_unfold mix m :
  saveCustomMix mix m =
    let ms :=
      match findIndex (named (mix_name mix)) (customMixes m) with
      | Some (existingIndex, _) => <[existingIndex := mix]> (customMixes m)
      | None => customMixes m ++ [mix]
      end in
    mkManager (state m) (timerInterval m) ms (broadcasts m ++ [state m])
      (store_mixes ms (browser m)).
Proof. reflexivity. Qed.

Lemma new_manager_customMixes b :
  customMixes (new_manager b) = default [] (stored_mixes b) /\
  stored_mixes (browser (new_manager b)) = stored_mixes b.
Proof.
  rewrite new_manager_unarmed.
  destruct (loadSavedState_frame b) as (_ & _ & _ & _ & _ & _ & _ & E8 & E9 & _).
  rewrite (proj2 (loadCustomMixes_state _)). split; [|assumption].
  unfold loadCustomMixes. rewrite E9. destruct (stored_mixes b); [reflexivity | exact E8].
Qed.

(** X13: [saveCustomMix] writes the mix under its name: a mix of that name
    is replaced where it stands, a new name is added at the end; looking the
    name up then gives the mix; the other mixes stay, and names that were
    distinct stay distinct.  The list is stored, the state is not changed
    and the listeners are notified once.  Saving the same mix again changes
    nothing more, and deleting a mix just saved under a new name gives the
    list back. *)
Theorem saveCustomMix_upserts mix m :
  let m' := saveCustomMix mix m in
  find (named (mix_name mix)) (getCustomMixes m') = Some mix /\
  mix_names (customMixes m') =
    (if existsb (named (mix_name mix)) (customMixes m)
     then mix_names (customMixes m)
     else mix_names (customMixes m) ++ [mix_name mix]) /\
  (forall x, In x (customMixes m) -> mix_name x <> mix_name mix ->
     In x (customMixes m')) /\
  (forall x, In x (customMixes m') -> x = mix \/ In x (customMixes m)) /\
  (List.NoDup (mix_names (customMixes m)) ->
   List.NoDup (mix_names (customMixes m'))) /\
  stored_mixes (browser m') = Some (customMixes m') /\
  state m' = state m /\
  broadcasts m' = broadcasts m ++ [state m] /\
  customMixes (saveCustomMix mix m') = customMixes m' /\
  (~ In (mix_name mix) (mix_names (customMixes m)) ->
   customMixes (deleteCustomMix (mix_name mix) m') = customMixes m).
Proof.
  intros m'. subst m'. rewrite !saveCustomMix_unfold. unfold getCustomMixes. simpl.
  assert (named (mix_name mix) mix = true) as Hmix by apply String.eqb_refl.
  destruct (findIndex (named (mix_name mix)) (customMixes m)) as [[i old]|] eqn:Efind.
  - destruct (findIndex_insert _ _ _ _ mix Efind Hmix) as (Hf & Hfind & Hlen & Hkeep).
    destruct (findIndex_Some _ _ _ _ Efind) as (Hlook & Hold & _).
    assert (existsb (named (mix_name mix)) (customMixes m) = true) as Hex.
    { apply existsb_exists. exists old. split; [now apply (lookup_In _ i) | assumption]. }
    rewrite Hex, Hf. split; [exact Hfind|].
    split; [exact (mix_names_insert _ _ _ old mix Efind eq_refl)|].
    split.
    { intros x Hx Hne. apply Hkeep; [assumption|]. unfold named.
      now apply String.eqb_neq. }
    split; [intros x Hx; now apply (In_insert i)|].
    split; [now rewrite (mix_names_insert _ _ _ old _ Efind eq_refl)|].
    do 3 (split; [reflexivity|]).
    split.
    { apply list_eq. intros j. destruct (decide (i = j)) as [->|Hne].
      - rewrite !list_lookup_insert_eq; [reflexivity| |];
          rewrite ?length_insert; now apply lookup_lt_Some in Hlook.
      - now rewrite !list_lookup_insert_ne. }
    intros Hnew. apply findIndex_named_None in Hnew. congruence.
  - assert (existsb (named (mix_name mix)) (customMixes m) = false) as Hex.
    { destruct (existsb _ (customMixes m)) eqn:E; [|reflexivity].
      apply existsb_exists in E as (x & Hx & Hp).
      apply (proj1 (findIndex_None _ _) Efind) in Hx. congruence. }
    rewrite Hex, (findIndex_last _ _ mix Efind Hmix).
    split; [now apply find_snoc|].
    split; [unfold mix_names; now rewrite map_app|].
    split; [intros x Hx _; apply in_or_app; now left|].
    split.
    { intros x Hx. apply in_app_or in Hx as [Hx|[<-|[]]]; [now right | now left]. }
    split.
    { intros Hnd. unfold mix_names. rewrite map_app. simpl.
      apply NoDup_snoc; [assumption|]. now apply findIndex_named_None. }
    do 3 (split; [reflexivity|]).
    split.
    { apply list_eq. intros j.
      destruct (decide (length (customMixes m) = j)) as [<-|Hne].
      - rewrite list_lookup_insert_eq; [|rewrite length_app; simpl; lia].
        rewrite lookup_app_r by lia. now rewrite Nat.sub_diag.
      - now rewrite list_lookup_insert_ne. }
    intros _. unfold deleteCustomMix. simpl.
    fold (named (mix_name mix)).
    rewrite (findIndex_last _ _ mix Efind Hmix). simpl. apply delete_last.
Qed.

(** X14: [deleteCustomMix] of a name that no mix has changes nothing and
    stores nothing; otherwise it removes one mix, of that name, keeps every
    other mix and stores the list; with one mix per name no mix of that
    name is left.  It never changes the state and never notifies the
    listeners. *)
Theorem deleteCustomMix_removes mixName m :
  let m' := deleteCustomMix mixName m in
  (~ In mixName (mix_names (customMixes m)) -> m' = m) /\
  (In mixName (mix_names (customMixes m)) ->
   S (length (customMixes m')) = length (customMixes m) /\
   stored_mixes (browser m') = Some (customMixes m')) /\
  (forall x, In x (customMixes m') -> In x (customMixes m)) /\
  (forall x, In x (customMixes m) -> mix_name x <> mixName -> In x (customMixes m')) /\
  (List.NoDup (mix_names (customMixes m)) ->
   ~ In mixName (mix_names (customMixes m')) /\
   List.NoDup (mix_names (customMixes m'))) /\
  state m' = state m /\
  broadcasts m' = broadcasts m /\
  audios (browser m') = audios (browser m) /\
  stored_state (browser m') = stored_state (browser m).
Proof.
  intros m'. subst m'. unfold deleteCustomMix. fold (named mixName).
  destruct (findIndex (named mixName) (customMixes m)) as [[i x]|] eqn:Efind.
  - destruct (delete_named _ _ _ _ Efind) as (_ & Hsub & Hkeep & Hlen & Hgone & Hnd).
    simpl. split.
    { intros Hnew. apply findIndex_named_None in Hnew. congruence. }
    split; [intros _; now split|]. split; [exact Hsub|]. split.
    { intros y Hy Hne. apply Hkeep; [assumption|]. unfold named.
      now apply String.eqb_neq. }
    split; [intros Hd; split; [now apply Hgone | now apply Hnd]|].
    now repeat split.
  - pose proof (proj1 (findIndex_named_None _ _) Efind) as Hnew.
    split; [reflexivity|]. split; [intros Hin; contradiction|].
    split; [auto|]. split; [auto|]. split; [intros Hd; now split|].
    now repeat split.
Qed.

(** *** The stored mixes *)

Lemma mixes_stored_same m m' :
  customMixes m' = customMixes m ->
  stored_mixes (browser m') = stored_mixes (browser m) ->
  mixes_stored m -> mixes_stored m'.
Proof. unfold mixes_stored. intros -> ->. auto. Qed.

Lemma stopTimer_mixes m :
  customMixes (stopTimer m) = customMixes m /\
  stored_mixes (browser (stopTimer m)) = stored_mixes (browser m).
Proof. unfold stopTimer. now destruct (timerInterval m). Qed.

Lemma dispatch_mixes action m :
  mixes_stored m -> mixes_stored (dispatch action m).
Proof.
  intros Hm. unfold dispatch.
  pose proof (audioReducer_browser_frame (browser m) (state m) action) as (Hsm & _).
  destruct (audioReducer (browser m) (state m) action) as [b s]. simpl in Hsm.
  destruct action as [sound|soundId volume|volume| |timer| |remaining| | |mix|mix|saved];
    try (apply (mixes_stored_same m); [reflexivity | exact Hsm | exact Hm]).
  - destruct timer;
      (apply (mixes_stored_same m); [reflexivity | | exact Hm];
       unfold startTimer; simpl; now destruct (timerInterval m)).
  - apply (mixes_stored_same m); [| |exact Hm]; simpl.
    + apply (stopTimer_mixes (with_browser b (with_state s m))).
    + rewrite (proj2 (stopTimer_mixes (with_browser b (with_state s m)))). exact Hsm.
  - reflexivity.
Qed.

Lemma beside_mixes b b' :
  beside_audios b' = beside_audios b -> stored_mixes b' = stored_mixes b.
Proof. unfold beside_audios. now intros [= _ -> _ _ _]. Qed.

Lemma handleCrossfade_mixes oldAudio newAudio m :
  mixes_stored m -> mixes_stored (handleCrossfade oldAudio newAudio m).
Proof.
  apply mixes_stored_same.
  - unfold handleCrossfade.
    repeat match goal with
           | |- context [match ?x with _ => _ end] => destruct x
           end; reflexivity.
  - apply beside_mixes, handleCrossfade_interval.
Qed.

Lemma timerTick_mixes m : mixes_stored m -> mixes_stored (timerTick m).
Proof.
  intros Hm. unfold timerTick.
  assert (forall m0, mixes_stored m0 -> mixes_stored (stopTimer m0)) as Hstop.
  { intros m0. apply mixes_stored_same; apply stopTimer_mixes. }
  destruct (timerEndTime (state m)) as [e|]; [|now apply Hstop].
  destruct (Z.eqb e 0); [now apply Hstop|].
  destruct (e - clock (browser m) <=? 0)%Z; [|now apply dispatch_mixes].
  apply Hstop. now do 3 apply dispatch_mixes.
Qed.

(** Every manager of a session holds the custom mixes that the storage
    holds. *)
Lemma reachable_mixes_stored m : reachable m -> mixes_stored m.
Proof.
  induction 1 as [b|action m _ IH _|oldAudio newAudio m _ IH|i t m _ IH
                 |h currentTime duration m _ IH|f m _ IH|h hasError m _ IH
                 |mixName m _ IH|m _ IH].
  - unfold mixes_stored. destruct (new_manager_customMixes b) as [-> ->]. reflexivity.
  - now apply dispatch_mixes.
  - now apply handleCrossfade_mixes.
  - unfold interval_fires. simpl.
    destruct (existsb (Pos.eqb i) (intervals (browser m))).
    + apply timerTick_mixes. now apply (mixes_stored_same m).
    + now apply (mixes_stored_same m).
  - apply (mixes_stored_same m); [reflexivity| |assumption].
    simpl. apply beside_mixes, handleTimeUpdate_beside.
  - unfold fadeStep. destruct (negb (isCurrentlyPlaying f) || _); simpl.
    + apply handleCrossfade_mixes. now apply (mixes_stored_same m).
    + destruct (fadeSteps <=? currentStep f + 1)%float; simpl.
      * apply handleCrossfade_mixes. now apply (mixes_stored_same m).
      * now apply (mixes_stored_same m).
  - unfold handleAudioError.
    destruct (audios (browser m) !! h) as [audio|]; [|assumption].
    destruct (HTMLAudioElement.listener audio) as [l|]; [|assumption].
    destruct (hasError && negb (HTMLAudioElement.crossfadeTriggered audio)); [|assumption].
    simpl. apply handleCrossfade_mixes.
    apply (mixes_stored_same m); [reflexivity| |assumption].
    now destruct (negb (HTMLAudioElement.paused audio)).
  - unfold deleteCustomMix. destruct (findIndex _ (customMixes m)) as [[j x]|];
      [reflexivity | assumption].
  - unfold cleanup. apply (mixes_stored_same m); [| |assumption].
    + apply (stopTimer_mixes (with_browser _ m)).
    + rewrite (proj2 (stopTimer_mixes (with_browser _ m))). simpl.
      generalize (browser m). induction (activeSounds (state m)) as [|a l IHl];
        simpl; intros b; [reflexivity|]. now rewrite IHl.
Qed.

(** X15: the custom mixes survive a reload of the page: in a session, the
    manager built from the storage that the session left has the same
    custom mixes, in the same order. *)
Theorem mixes_survive_reload m :
  reachable m ->
  customMixes (new_manager (reload m)) = customMixes m /\
  getCustomMixes (new_manager (reload m)) = getCustomMixes m.
Proof.
  intros Hreach. pose proof (reachable_mixes_stored m Hreach) as Hm.
  unfold getCustomMixes. destruct (new_manager_customMixes (reload m)) as [-> _].
  simpl. unfold mixes_stored in Hm. now rewrite Hm.
Qed.

End MixStoreFacts.

(** ** Replacing the element of a track *)

Lemma sync_playing_paused playing el :
  sync_playing playing el = HTMLAudioElement.set_paused (negb playing) el.
Proof.
  unfold sync_playing. destruct playing; simpl; [|reflexivity].
  destruct el as [src vol [] loop pre trig lis]; reflexivity.
Qed.

Section SwapFacts.
Context `{Catalog}.

(** The incoming element after the [map] of [handleCrossfade]: when a track
    is chosen it plays exactly when the state does. *)
Lemma swap_audio_incoming p newAudio m :
  audios (browser (swap_audio p newAudio m)) !! newAudio =
    if existsb p (activeSounds (state m))
    then HTMLAudioElement.set_paused (negb (isPlaying (state m)))
           <$> audios (browser m) !! newAudio
    else audios (browser m) !! newAudio.
Proof.
  unfold swap_audio. simpl. generalize (browser m).
  induction (activeSounds (state m)) as [|a l IH]; simpl; intros b; [reflexivity|].
  rewrite IH. destruct (p a); simpl; [|reflexivity].
  unfold on_audio. simpl. rewrite list_lookup_alter_eq.
  destruct (audios b !! newAudio) as [el|]; simpl;
    [|now destruct (existsb p l)].
  rewrite sync_playing_paused. now destruct (existsb p l).
Qed.

Lemma swap_audio_state p newAudio m :
  state (swap_audio p newAudio m) =
    mkAudioState
      (map (fun a => if p a then ActiveSound.set_audio newAudio a else a)
         (activeSounds (state m)))
      (masterVolume (state m)) (isPlaying (state m)) (timer (state m))
      (timeRemaining (state m)) (timerEndTime (state m)) (soundStates (state m)) /\
  broadcasts (swap_audio p newAudio m)
  = broadcasts m ++ [state (swap_audio p newAudio m)] /\
  length (audios (browser (swap_audio p newAudio m))) = length (audios (browser m)).
Proof.
  unfold swap_audio. simpl. repeat split.
  generalize (browser m). induction (activeSounds (state m)) as [|a l IH];
    simpl; intros b; [reflexivity|].
  rewrite IH. destruct (p a); [|reflexivity]. unfold on_audio. simpl. apply length_alter.
Qed.

Lemma find_handle oldAudio l :
  In oldAudio (track_handles l) ->
  exists a, find (fun a => Nat.eqb (ActiveSound.audio a) oldAudio) l = Some a.
Proof.
  intros Hin. destruct (find _ l) as [a|] eqn:E; [eauto|].
  exfalso. unfold track_handles in Hin. apply in_map_iff in Hin as (a & Ha & Hin).
  apply (find_none _ _ E) in Hin. simpl in Hin. now rewrite Ha, Nat.eqb_refl in Hin.
Qed.

Lemma find_no_handle oldAudio l :
  ~ In oldAudio (track_handles l) ->
  find (fun a => Nat.eqb (ActiveSound.audio a) oldAudio) l = None.
Proof.
  intros Hout. destruct (find _ l) as [a|] eqn:E; [|reflexivity].
  apply find_some in E as [Hin Ha]. simpl in Ha. apply Nat.eqb_eq in Ha.
  exfalso. apply Hout. unfold track_handles. apply in_map_iff. now exists a.
Qed.

(** X16: [handleCrossfade] changes the elements that tracks hold and nothing
    else of the state: sounds, volumes, order, master volume, [isPlaying],
    timer and saved settings stay.  When a track holds the old element,
    every track that holds it gets the new one, the new element is made to
    play exactly when the state plays, no other element changes and the
    listeners are notified once.  When no track holds the old element, the
    sound is looked for by the source of the new element: the first sound of
    the catalog whose id or name occurs in it; the tracks of that sound get
    the new element; when there is no such sound or no track of it, nothing
    changes at all. *)
Theorem handleCrossfade_swaps_handles oldAudio newAudio m :
  let m' := handleCrossfade oldAudio newAudio m in
  let newSrc :=
    match audios (browser m) !! newAudio with
    | Some a => HTMLAudioElement.src a
    | None => ""
    end in
  let matching :=
    find (fun s => includes newSrc (Sound.id s) || includes newSrc (Sound.name s)) sounds in
  (map ActiveSound.sound (activeSounds (state m'))
   = map ActiveSound.sound (activeSounds (state m)) /\
   map ActiveSound.volume (activeSounds (state m'))
   = map ActiveSound.volume (activeSounds (state m)) /\
   masterVolume (state m') = masterVolume (state m) /\
   isPlaying (state m') = isPlaying (state m) /\
   timer (state m') = timer (state m) /\
   timeRemaining (state m') = timeRemaining (state m) /\
   timerEndTime (state m') = timerEndTime (state m) /\
   soundStates (state m') = soundStates (state m)) /\
  (In oldAudio (track_handles (activeSounds (state m))) ->
   track_handles (activeSounds (state m'))
   = map (fun h => if Nat.eqb h oldAudio then newAudio else h)
       (track_handles (activeSounds (state m))) /\
   audios (browser m') !! newAudio
   = HTMLAudioElement.set_paused (negb (isPlaying (state m)))
       <$> audios (browser m) !! newAudio /\
   (forall h, h <> newAudio -> audios (browser m') !! h = audios (browser m) !! h) /\
   broadcasts m' = broadcasts m ++ [state m']) /\
  (~ In oldAudio (track_handles (activeSounds (state m))) ->
   (forall matchingSound, matching = Some matchingSound ->
      activeSounds (state m')
      = map (fun a => if has_id (Sound.id matchingSound) a
                      then ActiveSound.set_audio newAudio a else a)
          (activeSounds (state m))) /\
   ((matching = None \/
     exists matchingSound,
       matching = Some matchingSound /\
       ~ In (Sound.id matchingSound) (track_ids (activeSounds (state m)))) ->
    m' = m)).
Proof.
  intros m' newSrc matching.
  assert (forall p : ActiveSound.t -> bool,
            map ActiveSound.sound
              (map (fun a => if p a then ActiveSound.set_audio newAudio a else a)
                 (activeSounds (state m)))
            = map ActiveSound.sound (activeSounds (state m)) /\
            map ActiveSound.volume
              (map (fun a => if p a then ActiveSound.set_audio newAudio a else a)
                 (activeSounds (state m)))
            = map ActiveSound.volume (activeSounds (state m))) as Hmaps.
  { intros p. rewrite !map_map. split; apply map_ext; intros a; now destruct (p a). }
  assert (newSrc =
            match audios (browser m) !! newAudio with
            | Some a => HTMLAudioElement.src a
            | None => ""
            end) as Hsrc by reflexivity.
  split; [|split].
  - subst m'. unfold handleCrossfade.
    destruct (find _ (activeSounds (state m))) as [a|].
    { destruct (swap_audio_state (fun a => Nat.eqb (ActiveSound.audio a) oldAudio)
                  newAudio m) as (-> & _). simpl.
      destruct (Hmaps (fun a => Nat.eqb (ActiveSound.audio a) oldAudio)) as [-> ->].
      now repeat split. }
    destruct (find _ sounds) as [matchingSound|]; [|now repeat split].
    destruct (find _ (activeSounds (state m))) as [a|]; [|now repeat split].
    destruct (swap_audio_state (has_id (Sound.id matchingSound)) newAudio m) as (-> & _).
    simpl. destruct (Hmaps (has_id (Sound.id matchingSound))) as [-> ->].
    now repeat split.
  - intros Hheld. destruct (find_handle _ _ Hheld) as (a & Efind).
    subst m'. unfold handleCrossfade. rewrite Efind.
    destruct (swap_audio_state (fun a => Nat.eqb (ActiveSound.audio a) oldAudio)
                newAudio m) as (Hs & Hlog & _).
    split; [|split; [|split]].
    + rewrite Hs. simpl. unfold track_handles. rewrite !map_map. apply map_ext.
      intros x. now destruct (Nat.eqb (ActiveSound.audio x) oldAudio).
    + rewrite swap_audio_incoming.
      replace (existsb _ (activeSounds (state m))) with true; [reflexivity|].
      symmetry. apply existsb_exists. apply find_some in Efind. now exists a.
    + intros h Hh. now apply swap_audio_other.
    + exact Hlog.
  - intros Hfree. pose proof (find_no_handle _ _ Hfree) as Efind.
    subst m'. unfold handleCrossfade. rewrite Efind, <- Hsrc. fold matching.
    split.
    + intros matchingSound ->.
      destruct (find (has_id (Sound.id matchingSound)) (activeSounds (state m)))
        as [a|] eqn:Eactive.
      * now destruct (swap_audio_state (has_id (Sound.id matchingSound)) newAudio m)
          as (-> & _).
      * symmetry. apply map_unless. intros a Ha. now apply (find_none _ _ Eactive).
    + intros [->|(matchingSound & -> & Hout)]; [reflexivity|].
      destruct (find (has_id (Sound.id matchingSound)) (activeSounds (state m)))
        as [a|] eqn:Eactive; [|reflexivity].
      apply find_some in Eactive as [Ha Hid]. exfalso. apply Hout.
      apply existsb_has_id. apply existsb_exists. now exists a.
Qed.

End SwapFacts.

(** ** Media events *)

Section EventFacts.
Context `{Catalog}.

(** X17: [handleAudioError] does nothing without an error code, on an
    element whose crossfade has begun, or on an element without the
    listener.  Otherwise it creates a replacement with the source of the
    sound, the gain the failed element has and the same listener, gives it
    to every track that held the failed element and makes it play exactly
    when the state plays; the failed element itself is left as it is,
    neither paused nor emptied; the listeners are notified once. *)
Theorem handleAudioError_replaces h m failed l :
  audios (browser m) !! h = Some failed ->
  HTMLAudioElement.listener failed = Some l ->
  In h (track_handles (activeSounds (state m))) ->
  let replacement := length (audios (browser m)) in
  (handleAudioError h false m = m) /\
  (HTMLAudioElement.crossfadeTriggered failed = true ->
   handleAudioError h true m = m) /\
  (HTMLAudioElement.crossfadeTriggered failed = false ->
   let m' := handleAudioError h true m in
   audios (browser m') !! replacement =
     Some (HTMLAudioElement.mk (Sound.audioSrc (Listener.sound l))
             (HTMLAudioElement.volume failed) (negb (isPlaying (state m)))
             false "auto" false (Some l)) /\
   track_handles (activeSounds (state m'))
   = map (fun x => if Nat.eqb x h then replacement else x)
       (track_handles (activeSounds (state m))) /\
   audios (browser m') !! h = Some failed /\
   length (audios (browser m')) = S (length (audios (browser m))) /\
   map ActiveSound.volume (activeSounds (state m'))
   = map ActiveSound.volume (activeSounds (state m)) /\
   broadcasts m' = broadcasts m ++ [state m']).
Proof.
  intros Hfailed Hl Hheld replacement.
  assert (h < length (audios (browser m))) as Hh by (now apply lookup_lt_Some in Hfailed).
  unfold handleAudioError. rewrite Hfailed, Hl. simpl.
  split; [reflexivity|]. split; [intros ->; reflexivity|].
  intros ->. simpl. subst replacement.
  set (replacement := length (audios (browser m))).
  match goal with
  | |- context [handleCrossfade h _ ?m0] => set (m1 := m0)
  end.
  assert (state m1 = state m) as Hs by reflexivity.
  assert (broadcasts m1 = broadcasts m) as Hlog by reflexivity.
  assert (length (audios (browser m1)) = S (length (audios (browser m)))) as Hlen.
  { subst m1. simpl. destruct (negb (HTMLAudioElement.paused failed)); simpl;
      rewrite ?length_alter, length_app; simpl; lia. }
  assert (audios (browser m1) !! h = Some failed) as Hold.
  { subst m1. simpl. destruct (negb (HTMLAudioElement.paused failed)); simpl.
    - rewrite list_lookup_alter_ne by (unfold replacement; lia).
      now rewrite lookup_app_l.
    - now rewrite lookup_app_l. }
  assert (exists paused,
            audios (browser m1) !! replacement =
              Some (HTMLAudioElement.mk (Sound.audioSrc (Listener.sound l))
                      (HTMLAudioElement.volume failed) paused false "auto" false (Some l)))
    as [paused Hnew].
  { subst m1. simpl. destruct (negb (HTMLAudioElement.paused failed)); simpl.
    - rewrite list_lookup_alter_eq. rewrite lookup_app_r by (unfold replacement; lia).
      unfold replacement. rewrite Nat.sub_diag. simpl. eauto.
    - rewrite lookup_app_r by (unfold replacement; lia).
      unfold replacement. rewrite Nat.sub_diag. simpl. eauto. }
  destruct (find_handle _ _ Hheld) as (a & Efind).
  pose proof Efind as Efind1. rewrite <- Hs in Efind1.
  unfold handleCrossfade. rewrite Efind1.
  destruct (swap_audio_state (fun a => Nat.eqb (ActiveSound.audio a) h) replacement m1)
    as (Hstate & Hbroadcast & Hsame).
  split.
  { rewrite swap_audio_incoming, Hs.
    replace (existsb _ (activeSounds (state m))) with true; [now rewrite Hnew|].
    symmetry. apply existsb_exists. apply find_some in Efind. now exists a. }
  split.
  { rewrite Hstate, Hs. simpl. unfold track_handles. rewrite !map_map. apply map_ext.
    intros x. now destruct (Nat.eqb (ActiveSound.audio x) h). }
  split; [rewrite swap_audio_other by (unfold replacement; lia); exact Hold|].
  split; [now rewrite Hsame|].
  split.
  { rewrite Hstate, Hs. simpl. rewrite map_map. apply map_ext.
    intros x. now destruct (Nat.eqb (ActiveSound.audio x) h). }
  now rewrite Hbroadcast, Hlog.
Qed.

(** X18: a [timeupdate] event either starts a crossfade or changes
    nothing.  It starts one only on an element that carries the listener
    and has not started one before, with a duration that is a finite
    non-zero number, in the last 3 seconds of the track.  Then the element
    is marked, an incoming element is created at the end of the store with
    the source of the sound, gain 0 and the same listener, playing exactly
    when the outgoing element plays and the sound has a source; the fade
    remembers the gain of the outgoing element and targets the product of
    the volume and the master volume that the listener captured.  Every
    later [timeupdate] of the same element changes nothing. *)
Theorem timeupdate_starts_one_fade h currentTime duration b :
  let r := handleTimeUpdate h currentTime duration b in
  (snd r = None -> fst r = b) /\
  (forall f, snd r = Some f ->
     truthy duration = true /\
     (duration =? infinity)%float = false /\
     (duration - 3 <=? currentTime)%float = true /\
     (exists outgoing l,
        audios b !! h = Some outgoing /\
        HTMLAudioElement.listener outgoing = Some l /\
        HTMLAudioElement.crossfadeTriggered outgoing = false /\
        audios (fst r) =
          alter (HTMLAudioElement.set_crossfadeTriggered true) h (audios b) ++
          [HTMLAudioElement.mk (Sound.audioSrc (Listener.sound l)) 0
             (negb (negb (HTMLAudioElement.paused outgoing)
                    && truthy_str (Sound.audioSrc (Listener.sound l))))
             false "auto" false (Some l)] /\
        f = mkFade h (length (audios b)) (negb (HTMLAudioElement.paused outgoing))
              (HTMLAudioElement.volume outgoing)
              (Listener.volume l * Listener.masterVolume l) 0) /\
     forall currentTime' duration',
       handleTimeUpdate h currentTime' duration' (fst r) = (fst r, None)).
Proof.
  intros r. subst r.
  remember (handleTimeUpdate h currentTime duration b) as r eqn:Hr.
  unfold handleTimeUpdate in Hr.
  destruct (audios b !! h) as [outgoing|] eqn:Hout;
    [|subst r; split; [reflexivity | intros f [=]]].
  destruct (HTMLAudioElement.listener outgoing) as [l|] eqn:Hl;
    [|subst r; split; [reflexivity | intros f [=]]].
  destruct (HTMLAudioElement.crossfadeTriggered outgoing) eqn:Hfresh;
    [subst r; split; [reflexivity | intros f [=]]|].
  destruct (truthy duration) eqn:Hd; simpl in Hr;
    [|subst r; split; [reflexivity | intros f [=]]].
  destruct (duration =? infinity)%float eqn:Hinf;
    [subst r; split; [reflexivity | intros f [=]]|].
  destruct (duration - 3 <=? currentTime)%float eqn:Hend;
    [|subst r; split; [reflexivity | intros f [=]]].
  assert (h < length (audios b)) as Hh by (now apply lookup_lt_Some in Hout).
  subst r. cbn [fst snd].
  split; [intros [=]|]. intros f [= <-].
  do 3 (split; [reflexivity|]). split.
  { exists outgoing, l. do 3 (split; [reflexivity || assumption|]).
    split; [|now rewrite length_alter].
    destruct (negb (HTMLAudioElement.paused outgoing)
              && truthy_str (Sound.audioSrc (Listener.sound l))); simpl;
      [|reflexivity].
    now rewrite alter_last. }
  intros currentTime' duration'. unfold handleTimeUpdate.
  match goal with
  | |- context [audios ?b' !! h] =>
      assert (audios b' !! h
              = Some (HTMLAudioElement.set_crossfadeTriggered true outgoing)) as ->
  end; [|simpl; now rewrite Hl].
  destruct (negb (HTMLAudioElement.paused outgoing)
            && truthy_str (Sound.audioSrc (Listener.sound l))); simpl.
  - rewrite list_lookup_alter_ne by (rewrite length_alter; lia).
    rewrite lookup_app_l by (now rewrite length_alter).
    now rewrite list_lookup_alter_eq, Hout.
  - rewrite lookup_app_l by (now rewrite length_alter).
    now rewrite list_lookup_alter_eq, Hout.
Qed.

(** X19: a run of the fade callback that finds the outgoing element paused,
    or a fade that began while it was paused, ends the fade at once: the
    interval is cleared, the outgoing element is paused with its source
    emptied, and every track that held it gets the incoming element, which
    keeps the gain the fade had reached (it is not raised to the target:
    a fade interrupted before its first step leaves it at 0) and plays
    exactly when the state plays; the listeners are notified once. *)
Theorem fadeStep_interrupted f m outgoing incoming :
  audios (browser m) !! fade_audio f = Some outgoing ->
  audios (browser m) !! fade_newAudio f = Some incoming ->
  fade_newAudio f <> fade_audio f ->
  In (fade_audio f) (track_handles (activeSounds (state m))) ->
  isCurrentlyPlaying f = false \/ HTMLAudioElement.paused outgoing = true ->
  let after := fadeStep f m in
  snd after = None /\
  audios (browser (fst after)) !! fade_audio f
  = Some (HTMLAudioElement.release outgoing) /\
  audios (browser (fst after)) !! fade_newAudio f
  = Some (HTMLAudioElement.set_paused (negb (isPlaying (state m))) incoming) /\
  track_handles (activeSounds (state (fst after)))
  = map (fun x => if Nat.eqb x (fade_audio f) then fade_newAudio f else x)
      (track_handles (activeSounds (state m))) /\
  map ActiveSound.volume (activeSounds (state (fst after)))
  = map ActiveSound.volume (activeSounds (state m)) /\
  broadcasts (fst after) = broadcasts m ++ [state (fst after)].
Proof.
  intros Hout Hin Hne Hheld Hstop after. subst after. unfold fadeStep. rewrite Hout.
  replace (negb (isCurrentlyPlaying f) || HTMLAudioElement.paused outgoing) with true
    by (destruct Hstop as [-> | ->]; [reflexivity | now rewrite orb_true_r]).
  cbn [fst snd]. split; [reflexivity|].
  match goal with
  | |- context [handleCrossfade _ _ ?m0] => set (m1 := m0)
  end.
  assert (state m1 = state m) as Hs by reflexivity.
  assert (broadcasts m1 = broadcasts m) as Hlog by reflexivity.
  assert (audios (browser m1) !! fade_audio f = Some (HTMLAudioElement.release outgoing))
    as Hold.
  { subst m1. simpl. rewrite list_lookup_alter_eq.
    rewrite list_lookup_alter_ne by assumption. now rewrite Hout. }
  assert (audios (browser m1) !! fade_newAudio f = Some (HTMLAudioElement.pause incoming))
    as Hnew.
  { subst m1. simpl. rewrite list_lookup_alter_ne by congruence.
    now rewrite list_lookup_alter_eq, Hin. }
  destruct (find_handle _ _ Hheld) as (a & Efind).
  pose proof Efind as Efind1. rewrite <- Hs in Efind1.
  unfold handleCrossfade. rewrite Efind1.
  destruct (swap_audio_state (fun a => Nat.eqb (ActiveSound.audio a) (fade_audio f))
              (fade_newAudio f) m1) as (Hstate & Hbroadcast & _).
  split; [rewrite swap_audio_other by congruence; exact Hold|].
  split.
  { rewrite swap_audio_incoming, Hs.
    replace (existsb _ (activeSounds (state m))) with true; [now rewrite Hnew|].
    symmetry. apply existsb_exists. apply find_some in Efind. now exists a. }
  split.
  { rewrite Hstate, Hs. simpl. unfold track_handles. rewrite !map_map. apply map_ext.
    intros x. now destruct (Nat.eqb (ActiveSound.audio x) (fade_audio f)). }
  split.
  { rewrite Hstate, Hs. simpl. rewrite map_map. apply map_ext.
    intros x. now destruct (Nat.eqb (ActiveSound.audio x) (fade_audio f)). }
  now rewrite Hbroadcast, Hlog.
Qed.

(** A fade whose outgoing element keeps playing is still running after any
    number of steps below 60: the state is as it was and no listener has
    been notified. *)
Lemma fade_keeps_running k :
  forall j f m outgoing,
    j + k <= 59 ->
    currentStep f = step_count j ->
    audios (browser m) !! fade_audio f = Some outgoing ->
    HTMLAudioElement.paused outgoing = false ->
    isCurrentlyPlaying f = true ->
    fade_newAudio f <> fade_audio f ->
    exists m' f',
      fadeSteps_run k f m = (m', Some f') /\
      state m' = state m /\
      broadcasts m' = broadcasts m.
Proof.
  induction k as [|k IH]; intros j f m outgoing Hsum Hstep Hout Hplaying Hcur Hne.
  - exists m, f. now repeat split.
  - assert ((fadeSteps <=? currentStep f + 1)%float = false) as Hmore
      by (rewrite Hstep; apply step_count_running; lia).
    destruct (fadeStep_continues f m outgoing Hout Hplaying Hcur Hmore Hne)
      as (m1 & outgoing' & Hrun & Hstate & Hlog & Hlen & Hout' & Hplaying').
    change (fadeSteps_run (S k) f m)
      with (match fadeStep f m with
            | (m', Some f') => fadeSteps_run k f' m'
            | (m', None) => (m', None)
            end).
    rewrite Hrun.
    destruct (IH (S j)
                (mkFade (fade_audio f) (fade_newAudio f) true (oldInitialVolume f)
                   (targetVolume f) (currentStep f + 1)%float)
                m1 outgoing') as (m' & f' & Hrest & Hstate' & Hlog');
      try assumption; [lia | simpl; now rewrite Hstep | reflexivity |].
    exists m', f'. split; [exact Hrest|]. split; congruence.
Qed.

(** X20: a crossfade of a playing track takes exactly 60 runs of its
    callback: after any smaller number the fade is still running, the state
    is as it was and no listener has been notified, so the track still
    holds the outgoing element; the 60th run ends it, with the outgoing
    element paused and emptied and the track holding the incoming one. *)
Theorem crossfade_takes_60_steps m h currentTime duration outgoing l :
  audios (browser m) !! h = Some outgoing ->
  HTMLAudioElement.listener outgoing = Some l ->
  HTMLAudioElement.crossfadeTriggered outgoing = false ->
  HTMLAudioElement.paused outgoing = false ->
  truthy duration = true ->
  (duration =? infinity)%float = false ->
  (duration - 3 <=? currentTime)%float = true ->
  (forall n, n < 60 ->
     snd (crossfade h currentTime duration n m) <> None /\
     state (fst (crossfade h currentTime duration n m)) = state m /\
     broadcasts (fst (crossfade h currentTime duration n m)) = broadcasts m) /\
  snd (crossfade h currentTime duration 60 m) = None /\
  (exists released,
     audios (browser (fst (crossfade h currentTime duration 60 m))) !! h = Some released /\
     HTMLAudioElement.src released = "" /\
     HTMLAudioElement.paused released = true) /\
  (forall a, In a (activeSounds (state m)) -> ActiveSound.audio a = h ->
     In (ActiveSound.set_audio (length (audios (browser m))) a)
       (activeSounds (state (fst (crossfade h currentTime duration 60 m))))).
Proof.
  intros Hout Hl Hfresh Hplaying Hduration Hfinite Hend.
  destruct (crossfade_completes m h currentTime duration outgoing l
              Hout Hl Hfresh Hplaying Hduration Hfinite Hend)
    as (Hdone & _ & Hreleased & Htrack).
  split; [|split; [exact Hdone|split; [exact Hreleased|]]].
  - intros n Hn.
    assert (h < length (audios (browser m))) as Hh by (now apply lookup_lt_Some in Hout).
    unfold crossfade, handleTimeUpdate.
    rewrite Hout, Hl, Hfresh, Hduration, Hfinite, Hend, Hplaying.
    cbn -[fadeSteps_run]. rewrite length_alter.
    match goal with
    | |- context [with_browser ?b m] => set (armed := b)
    end.
    assert (audios armed !! h
            = Some (HTMLAudioElement.set_crossfadeTriggered true outgoing)) as Hout'.
    { subst armed. destruct (truthy_str (Sound.audioSrc (Listener.sound l))); simpl.
      - rewrite list_lookup_alter_ne by lia.
        rewrite lookup_app_l by (rewrite length_alter; lia).
        now rewrite list_lookup_alter_eq, Hout.
      - rewrite lookup_app_l by (rewrite length_alter; lia).
        now rewrite list_lookup_alter_eq, Hout. }
    match goal with
    | |- context [fadeSteps_run n ?f _] =>
        destruct (fade_keeps_running n 0 f (with_browser armed m)
                    (HTMLAudioElement.set_crossfadeTriggered true outgoing))
          as (m' & f' & Hrun & Hstate & Hlog);
        try reflexivity; simpl; try assumption; try lia
    end.
    rewrite Hrun. simpl. split; [discriminate|]. now split.
  - intros a Ha Haudio. now apply Htrack.
Qed.

End EventFacts.

(** ** Cleanup *)

(** The elements after the release of the element of every track. *)
Lemma release_all_lookup l b h :
  audios
    (fold_left (fun b a => on_audio (ActiveSound.audio a) HTMLAudioElement.release b) l b)
    !! h =
    if existsb (fun a => Nat.eqb (ActiveSound.audio a) h) l
    then HTMLAudioElement.release <$> audios b !! h
    else audios b !! h.
Proof.
  revert b. induction l as [|a l IH]; simpl; intros b; [reflexivity|].
  rewrite IH. unfold on_audio. simpl.
  destruct (Nat.eqb_spec (ActiveSound.audio a) h) as [->|Hne]; simpl.
  - rewrite list_lookup_alter_eq.
    destruct (existsb _ l); destruct (audios b !! h) as [el|]; reflexivity.
  - now rewrite list_lookup_alter_ne.
Qed.

Lemma release_all_beside l b :
  beside_audios
    (fold_left (fun b a => on_audio (ActiveSound.audio a) HTMLAudioElement.release b) l b)
  = beside_audios b.
Proof.
  revert b. induction l as [|a l IH]; simpl; intros b; [reflexivity|]. now rewrite IH.
Qed.

Lemma stopTimer_audios m :
  audios (browser (stopTimer m)) = audios (browser m) /\
  stored_state (browser (stopTimer m)) = stored_state (browser m) /\
  customMixes (stopTimer m) = customMixes m.
Proof. unfold stopTimer. now destruct (timerInterval m). Qed.

Section CleanupFacts.
Context `{Catalog}.

(** X21: [cleanup] pauses the element of every active track and empties its
    source, stops the tick loop and clears its interval; it changes no other
    element, stores nothing and notifies no listener.  The state is not
    changed: the tracks stay listed, with their volumes, and [isPlaying]
    stays. *)
Theorem cleanup_releases m :
  let m' := cleanup m in
  state m' = state m /\
  broadcasts m' = broadcasts m /\
  customMixes m' = customMixes m /\
  stored_state (browser m') = stored_state (browser m) /\
  timerInterval m' = None /\
  (forall i, timerInterval m = Some i -> ~ In i (intervals (browser m'))) /\
  (forall a, In a (activeSounds (state m)) ->
     audios (browser m') !! ActiveSound.audio a
     = HTMLAudioElement.release <$> audios (browser m) !! ActiveSound.audio a) /\
  (forall h, ~ In h (track_handles (activeSounds (state m))) ->
     audios (browser m') !! h = audios (browser m) !! h).
Proof.
  intros m'. subst m'. unfold cleanup.
  set (released :=
         fold_left (fun b a => on_audio (ActiveSound.audio a) HTMLAudioElement.release b)
           (activeSounds (state m)) (browser m)).
  destruct (stopTimer_audios (with_browser released m)) as (Ha & Hst & Hc).
  assert (forall a, In a (activeSounds (state m)) ->
            audios released !! ActiveSound.audio a
            = HTMLAudioElement.release <$> audios (browser m) !! ActiveSound.audio a)
    as Hrel.
  { intros a Hin. subst released. rewrite release_all_lookup.
    replace (existsb _ (activeSounds (state m))) with true; [reflexivity|].
    symmetry. apply existsb_handle. unfold track_handles. apply in_map_iff. now exists a. }
  rewrite stopTimer_state, stopTimer_broadcasts, stopTimer_stopped, Ha, Hst, Hc.
  split; [reflexivity|]. split; [reflexivity|]. split; [reflexivity|].
  split.
  { simpl. subst released. apply beside_stored, release_all_beside. }
  split; [reflexivity|]. split.
  { intros i Hi. unfold stopTimer. simpl. rewrite Hi. simpl.
    apply clearInterval_not_live. }
  split; [exact Hrel|].
  intros h Hh. simpl. subst released. rewrite release_all_lookup.
  destruct (existsb _ (activeSounds (state m))) eqn:E; [|reflexivity].
  apply existsb_handle in E. contradiction.
Qed.

End CleanupFacts.

(** ** The elements that a preset creates *)

Lemma set_gains_make p gain l b h :
  element_make <$> audios (set_gains p gain l b) !! h = element_make <$> audios b !! h.
Proof.
  unfold set_gains. revert b. induction l as [|a l IH]; simpl; intros b;
    [reflexivity|].
  rewrite IH. destruct (p a); [|reflexivity].
  unfold on_audio. simpl. destruct (decide (ActiveSound.audio a = h)) as [->|Hne].
  - rewrite list_lookup_alter_eq. now destruct (audios b !! h).
  - now rewrite list_lookup_alter_ne.
Qed.

Section MixElementFacts.
Context `{Catalog}.
Variables (state : AudioState) (mixSounds : list MixSound.t).

Local Abbreviation current := (currentActiveSoundMap state).
Local Abbreviation process := (mix_process state mixSounds current).

(** A turn of [mixSounds.forEach] changes gains and starts the element it
    creates, and nothing else of any element. *)
Lemma mix_process_make acc entry h :
  h < length (audios (mix_browser acc)) ->
  element_make <$> audios (mix_browser (process acc entry)) !! h
  = element_make <$> audios (mix_browser acc) !! h.
Proof.
  intros Hh. destruct acc as [[b act] sts]. unfold mix_process, mix_browser in *.
  simpl in *.
  destruct (obj_has current (MixSound.id entry)); simpl; [apply set_gains_make|].
  destruct (find _ mixSounds); [|reflexivity].
  destruct (find_sound (MixSound.id entry)); [|reflexivity].
  destruct (isPlaying state); simpl.
  - rewrite list_lookup_alter_ne by lia. now rewrite lookup_app_l.
  - now rewrite lookup_app_l.
Qed.

Lemma process_make entries :
  forall acc h,
    h < length (audios (mix_browser acc)) ->
    element_make <$> audios (mix_browser (fold_left process entries acc)) !! h
    = element_make <$> audios (mix_browser acc) !! h.
Proof.
  induction entries as [|e entries IH]; simpl; intros acc h Hh; [reflexivity|].
  rewrite IH by (pose proof (proj1 (mix_process_store state mixSounds acc e)); lia).
  now apply mix_process_make.
Qed.

(** The element that the turn of a new sound creates: no listener. *)
Lemma mix_process_creates_make acc entry sound :
  obj_has current (MixSound.id entry) = false ->
  In entry mixSounds ->
  find_sound (MixSound.id entry) = Some sound ->
  element_make
    <$> audios (mix_browser (process acc entry)) !! length (audios (mix_browser acc))
  = Some (Sound.audioSrc sound, false, "auto", false, None).
Proof.
  intros Hhas Hentry Hfind.
  assert (find (fun s => String.eqb (MixSound.id s) (MixSound.id entry)) mixSounds
          <> None) as Hdata.
  { intros Hnone. apply (find_none _ _ Hnone) in Hentry.
    now rewrite String.eqb_refl in Hentry. }
  destruct acc as [[b act] sts]. unfold mix_process, mix_browser. simpl.
  rewrite Hhas, Hfind. destruct (find _ mixSounds); [|congruence].
  destruct (isPlaying state); simpl.
  - rewrite list_lookup_alter_eq. rewrite lookup_app_r by lia.
    now rewrite Nat.sub_diag.
  - rewrite lookup_app_r by lia. now rewrite Nat.sub_diag.
Qed.

Lemma process_creates_make entries acc entry sound :
  In entry entries ->
  In entry mixSounds ->
  obj_has current (MixSound.id entry) = false ->
  find_sound (MixSound.id entry) = Some sound ->
  exists h,
    In (ActiveSound.mk sound h (MixSound.volume entry))
      (mix_tracks (fold_left process entries acc)) /\
    element_make <$> audios (mix_browser (fold_left process entries acc)) !! h
    = Some (Sound.audioSrc sound, false, "auto", false, None).
Proof.
  intros Hin Hentry Hhas Hfind.
  destruct (in_split _ _ Hin) as (before & later & ->).
  rewrite fold_left_app. simpl.
  set (acc0 := fold_left process before acc).
  destruct (mix_process_creates state mixSounds acc0 entry sound Hhas Hentry Hfind)
    as (Htrack & Hlt & _).
  exists (length (audios (mix_browser acc0))). split.
  - apply process_keeps_new; [assumption|]. simpl.
    now rewrite (find_sound_id _ _ Hfind).
  - rewrite process_make by assumption. now apply mix_process_creates_make.
Qed.

End MixElementFacts.

Section MixLoopFacts.
Context `{Catalog}.

(** X22: the track that an [APPLY_MIX] with gains in range creates for a
    sound that was not active gets an element with the source of the sound and without the looping
    listener ([createAudioElement] is called without the callback): no
    [timeupdate] event of that element starts a crossfade and no [error]
    event replaces it, so the track does not loop. *)
Theorem apply_mix_tracks_do_not_loop b state mix e sound :
  in_range state (APPLY_MIX mix) = true ->
  In e (mix_sounds mix) ->
  ~ In (MixSound.id e) (track_ids (activeSounds state)) ->
  find_sound (MixSound.id e) = Some sound ->
  let after := apply_mix b state mix in
  exists h el,
    In (ActiveSound.mk sound h (MixSound.volume e)) (activeSounds (snd after)) /\
    audios (fst after) !! h = Some el /\
    HTMLAudioElement.src el = Sound.audioSrc sound /\
    HTMLAudioElement.loop el = false /\
    HTMLAudioElement.listener el = None /\
    (forall currentTime duration,
       handleTimeUpdate h currentTime duration (fst after) = (fst after, None)) /\
    (forall m hasError, browser m = fst after -> handleAudioError h hasError m = m).
Proof.
  intros _ He Hout Hfind after. subst after.
  destruct (apply_mix_result b state mix) as (Htracks & Haudios & _).
  destruct (process_creates_make state (mix_sounds mix) (mix_sounds mix)
              (fold_left mix_remove (soundsToRemove state (mix_sounds mix))
                 (b, activeSounds state, soundStates state)) e sound He He
              (not_active_not_current _ _ Hout) Hfind) as (h & Htrack & Hmake).
  rewrite <- Htracks in Htrack. rewrite <- Haudios in Hmake.
  destruct (audios (fst (apply_mix b state mix)) !! h) as [el|] eqn:Hel;
    [|discriminate Hmake].
  simpl in Hmake. unfold element_make in Hmake. injection Hmake as Hsrc Hloop _ _ Hl.
  exists h, el. do 5 (split; [assumption || reflexivity|]). split.
  - intros currentTime duration. unfold handleTimeUpdate. now rewrite Hel, Hl.
  - intros m hasError Hb. unfold handleAudioError. now rewrite Hb, Hel, Hl.
Qed.

End MixLoopFacts.

(** ** The settings that a preset saves *)

(** The saved settings after [soundsToRemove.forEach]. *)
Lemma mix_remove_states removed :
  forall acc k,
    obj_get (snd (fold_left mix_remove removed acc)) k =
      if existsb (fun r => String.eqb (Sound.id (ActiveSound.sound r)) k) removed
      then None else obj_get (snd acc) k.
Proof.
  induction removed as [|r removed IH]; simpl; intros acc k; [reflexivity|].
  rewrite IH. destruct acc as [[b act] sts]. simpl.
  destruct (String.eqb_spec (Sound.id (ActiveSound.sound r)) k) as [->|Hne]; simpl.
  - rewrite obj_get_delete_eq. now destruct (existsb _ removed).
  - now rewrite obj_get_delete_ne.
Qed.

Section MixStatesFacts.
Context `{Catalog}.
Variables (state : AudioState) (mixSounds : list MixSound.t).

Local Abbreviation current := (currentActiveSoundMap state).
Local Abbreviation process := (mix_process state mixSounds current).

Lemma mix_process_states acc entry k :
  In entry mixSounds ->
  obj_get (snd (process acc entry)) k =
    if String.eqb (MixSound.id entry) k
    then saved_by state entry (obj_get (snd acc) k)
    else obj_get (snd acc) k.
Proof.
  intros Hentry.
  assert (find (fun s => String.eqb (MixSound.id s) (MixSound.id entry)) mixSounds
          <> None) as Hdata.
  { intros Hnone. apply (find_none _ _ Hnone) in Hentry.
    now rewrite String.eqb_refl in Hentry. }
  destruct acc as [[b act] sts]. unfold mix_process, saved_by. simpl.
  destruct (String.eqb_spec (MixSound.id entry) k) as [<-|Hne].
  - destruct (obj_has current (MixSound.id entry)); simpl.
    + rewrite obj_get_set_eq. unfold with_saved_volume.
      now destruct (obj_get sts (MixSound.id entry)).
    + destruct (find _ mixSounds); [|congruence].
      destruct (find_sound (MixSound.id entry)); simpl; [|reflexivity].
      destruct (isPlaying state); simpl; apply obj_get_set_eq.
  - destruct (obj_has current (MixSound.id entry)); simpl.
    + now apply obj_get_set_ne.
    + destruct (find _ mixSounds); [|reflexivity].
      destruct (find_sound (MixSound.id entry)); simpl; [|reflexivity].
      destruct (isPlaying state); simpl; now apply obj_get_set_ne.
Qed.

Lemma process_states_other entries :
  forall acc k,
    (forall e, In e entries -> In e mixSounds) ->
    ~ In k (map MixSound.id entries) ->
    obj_get (snd (fold_left process entries acc)) k = obj_get (snd acc) k.
Proof.
  induction entries as [|e entries IH]; simpl; intros acc k Hsub Hk; [reflexivity|].
  rewrite IH by (auto || tauto). rewrite mix_process_states by auto.
  destruct (String.eqb_spec (MixSound.id e) k); [|reflexivity]. tauto.
Qed.

Lemma process_states_entry entries :
  forall acc e,
    (forall x, In x entries -> In x mixSounds) ->
    List.NoDup (map MixSound.id entries) ->
    In e entries ->
    obj_get (snd (fold_left process entries acc)) (MixSound.id e)
    = saved_by state e (obj_get (snd acc) (MixSound.id e)).
Proof.
  induction entries as [|x entries IH]; simpl; intros acc e Hsub Hnd Hin;
    [contradiction|].
  apply NoDup_cons_iff in Hnd as [Hx Hnd]. destruct Hin as [->|Hin].
  - rewrite process_states_other by auto.
    rewrite mix_process_states by auto. now rewrite String.eqb_refl.
  - rewrite IH by auto. rewrite mix_process_states by auto.
    destruct (String.eqb_spec (MixSound.id x) (MixSound.id e)) as [Heq|]; [|reflexivity].
    exfalso. apply Hx. rewrite Heq. now apply in_map.
Qed.

End MixStatesFacts.

Section MixSavedFacts.
Context `{Catalog}.

(** The saved settings after [APPLY_MIX], key by key. *)
Lemma apply_mix_saved b state mix :
  List.NoDup (mix_ids mix) ->
  (forall e, In e (mix_sounds mix) ->
     obj_get (soundStates (snd (apply_mix b state mix))) (MixSound.id e)
     = saved_by state e (obj_get (soundStates state) (MixSound.id e))) /\
  (forall a, In a (activeSounds state) ->
     ~ In (Sound.id (ActiveSound.sound a)) (mix_ids mix) ->
     obj_get (soundStates (snd (apply_mix b state mix))) (Sound.id (ActiveSound.sound a))
     = None) /\
  (forall k, ~ In k (mix_ids mix) -> ~ In k (track_ids (activeSounds state)) ->
     obj_get (soundStates (snd (apply_mix b state mix))) k = obj_get (soundStates state) k).
Proof.
  intros Hnd. rewrite apply_mix_unfold. simpl.
  set (removed := soundsToRemove state (mix_sounds mix)).
  destruct (soundsToRemove_spec state (mix_sounds mix)) as [Hsound Hcomplete].
  fold removed in Hsound, Hcomplete.
  assert (forall k, In k (mix_ids mix) ->
            existsb (fun r => String.eqb (Sound.id (ActiveSound.sound r)) k) removed
            = false) as Hkept.
  { intros k Hk. destruct (existsb _ removed) eqn:E; [|reflexivity].
    apply existsb_exists in E as (r & Hr & Heq). apply String.eqb_eq in Heq.
    destruct (Hsound r Hr) as [_ Hout]. rewrite Heq in Hout. contradiction. }
  split; [|split].
  - intros e He. rewrite process_states_entry by (auto || assumption).
    rewrite mix_remove_states, Hkept; [reflexivity|]. now apply in_map.
  - intros a Ha Hout. rewrite process_states_other by (auto || assumption).
    rewrite mix_remove_states.
    destruct (Hcomplete a Ha Hout) as (r & Hr & Hid).
    replace (existsb _ removed) with true; [reflexivity|].
    symmetry. apply existsb_exists. exists r. split; [assumption|].
    now apply String.eqb_eq.
  - intros k Hk Hinactive. rewrite process_states_other by (auto || assumption).
    rewrite mix_remove_states.
    destruct (existsb _ removed) eqn:E; [|reflexivity].
    apply existsb_exists in E as (r & Hr & Heq). apply String.eqb_eq in Heq.
    destruct (Hsound r Hr) as [Hin _]. exfalso. apply Hinactive. rewrite <- Heq.
    unfold track_ids. apply in_map_iff. now exists r.
Qed.

(** X23: the saved settings after an [APPLY_MIX], with gains in range, of a
    mix with distinct ids:
    the entry of a mix sound that was active gets the mix volume times 100
    and keeps its playing flag; a mix sound of the catalog that was not
    active gets a new entry, the mix volume times 100 with the state's
    playing flag; a mix sound that the catalog does not have keeps what it
    had; the entry of a removed track is deleted; every other entry stays,
    also the entry of a sound that is not active and not in the mix.  The
    settings are stored. *)
Theorem apply_mix_saves b state mix :
  in_range state (APPLY_MIX mix) = true ->
  List.NoDup (mix_ids mix) ->
  let after := apply_mix b state mix in
  (forall e, In e (mix_sounds mix) ->
     In (MixSound.id e) (track_ids (activeSounds state)) ->
     exists st,
       obj_get (soundStates (snd after)) (MixSound.id e) = Some st /\
       SoundState.volume st = (MixSound.volume e * 100)%float /\
       SoundState.isPlaying st =
         match obj_get (soundStates state) (MixSound.id e) with
         | Some old => SoundState.isPlaying old
         | None => None
         end) /\
  (forall e sound, In e (mix_sounds mix) ->
     ~ In (MixSound.id e) (track_ids (activeSounds state)) ->
     find_sound (MixSound.id e) = Some sound ->
     obj_get (soundStates (snd after)) (MixSound.id e)
     = Some (SoundState.mk (MixSound.volume e * 100) (Some (isPlaying state)))) /\
  (forall e, In e (mix_sounds mix) ->
     ~ In (MixSound.id e) (track_ids (activeSounds state)) ->
     find_sound (MixSound.id e) = None ->
     obj_get (soundStates (snd after)) (MixSound.id e)
     = obj_get (soundStates state) (MixSound.id e)) /\
  (forall a, In a (activeSounds state) ->
     ~ In (Sound.id (ActiveSound.sound a)) (mix_ids mix) ->
     obj_get (soundStates (snd after)) (Sound.id (ActiveSound.sound a)) = None) /\
  (forall k, ~ In k (mix_ids mix) -> ~ In k (track_ids (activeSounds state)) ->
     obj_get (soundStates (snd after)) k = obj_get (soundStates state) k) /\
  stored_state (fst after) = Some (soundStates (snd after)).
Proof.
  intros _ Hnd after. subst after.
  destruct (apply_mix_saved b state mix Hnd) as (Hentry & Hremoved & Hother).
  split; [|split; [|split; [|split; [exact Hremoved|split; [exact Hother|]]]]].
  - intros e He Hactive. rewrite (Hentry e He). unfold saved_by.
    rewrite currentActiveSoundMap_has.
    replace (existsb _ (activeSounds state)) with true
      by (symmetry; now apply existsb_has_id).
    eexists. split; [reflexivity|].
    destruct (obj_get (soundStates state) (MixSound.id e)); now split.
  - intros e sound He Hout Hfind. rewrite (Hentry e He). unfold saved_by.
    now rewrite (not_active_not_current _ _ Hout), Hfind.
  - intros e He Hout Hfind. rewrite (Hentry e He). unfold saved_by.
    now rewrite (not_active_not_current _ _ Hout), Hfind.
  - rewrite apply_mix_unfold. reflexivity.
Qed.

End MixSavedFacts.

(** ** Applying a preset twice; whether the active tracks are a saved mix *)

(** The difference of a finite number with itself is below the tolerance of
    [doesMixMatch]. *)
Lemma same_volume_matches v :
  finite v = true -> (abs (v - v) <? 0.01)%float = true.
Proof.
  unfold finite, PrimFloat.is_nan, PrimFloat.is_infinity.
  rewrite FloatAxioms.ltb_spec, abs_spec, FloatAxioms.sub_spec.
  rewrite !FloatAxioms.eqb_spec, abs_spec.
  destruct (Prim2SF v) as [s|s| |s m e] eqn:E.
  - intros _. destruct s; vm_compute; reflexivity.
  - destruct s; vm_compute; discriminate.
  - vm_compute. discriminate.
  - intros _. unfold SF64sub, SFsub. rewrite Z.sub_diag. vm_compute. reflexivity.
Qed.

Lemma obj_set_same {V} (o : list (string * V)) k v :
  obj_get o k = Some v -> obj_set o k v = o.
Proof.
  induction o as [|[k' v'] o IH]; simpl; [discriminate|].
  destruct (String.eqb_spec k' k) as [->|Hne].
  - now intros [= ->].
  - intros Hg. now rewrite IH.
Qed.

Section MixTwiceFacts.
Context `{Catalog}.
Variables (state : AudioState) (mixSounds : list MixSound.t).

Local Abbreviation current := (currentActiveSoundMap state).
Local Abbreviation process := (mix_process state mixSounds current).

(** Where the tracks after the turns come from, and the volumes they have:
    every track is of a sound that was active or of an entry that had its
    turn, and has the volume of the entry of its id that had its turn. *)
Lemma process_volumes entries :
  forall done acc,
    List.NoDup (map MixSound.id (done ++ entries)) ->
    (forall a, In a (mix_tracks acc) ->
       obj_has current (Sound.id (ActiveSound.sound a)) = true \/
       (In (Sound.id (ActiveSound.sound a)) (map MixSound.id done) /\
        find_sound (Sound.id (ActiveSound.sound a)) <> None)) ->
    (forall a e, In a (mix_tracks acc) -> In e done ->
       MixSound.id e = Sound.id (ActiveSound.sound a) ->
       ActiveSound.volume a = MixSound.volume e) ->
    (forall a, In a (mix_tracks (fold_left process entries acc)) ->
       obj_has current (Sound.id (ActiveSound.sound a)) = true \/
       (In (Sound.id (ActiveSound.sound a)) (map MixSound.id (done ++ entries)) /\
        find_sound (Sound.id (ActiveSound.sound a)) <> None)) /\
    (forall a e, In a (mix_tracks (fold_left process entries acc)) ->
       In e (done ++ entries) ->
       MixSound.id e = Sound.id (ActiveSound.sound a) ->
       ActiveSound.volume a = MixSound.volume e).
Proof.
  induction entries as [|x entries IH]; intros done acc Hnd Hfrom Hvol.
  - rewrite app_nil_r. simpl. now split.
  - simpl. replace (done ++ x :: entries) with ((done ++ [x]) ++ entries) in *
      by (now rewrite <- app_assoc).
    assert (~ In (MixSound.id x) (map MixSound.id done)) as Hfresh.
    { rewrite !map_app in Hnd. apply NoDup_app_remove_r in Hnd.
      simpl in Hnd. apply NoDup_remove_2 in Hnd. now rewrite app_nil_r in Hnd. }
    apply IH; [assumption| |].
    + (* where the tracks come from *)
      intros a Ha. rewrite mix_process_tracks in Ha.
      destruct (obj_has current (MixSound.id x)) eqn:Ehas.
      * apply in_map_iff in Ha as (a0 & <- & Ha0).
        destruct (Hfrom a0 Ha0) as [Hc|[Hd Hf]].
        -- left. now destruct (has_id (MixSound.id x) a0).
        -- right. rewrite map_app.
           destruct (has_id (MixSound.id x) a0); (split; [apply in_or_app; now left|]);
             assumption.
      * assert (In a (mix_tracks acc) ->
                obj_has current (Sound.id (ActiveSound.sound a)) = true \/
                (In (Sound.id (ActiveSound.sound a)) (map MixSound.id (done ++ [x])) /\
                 find_sound (Sound.id (ActiveSound.sound a)) <> None)) as Hold.
        { intros Ha0. destruct (Hfrom a Ha0) as [Hc|[Hd Hf]]; [now left|].
          right. rewrite map_app. split; [apply in_or_app; now left | assumption]. }
        destruct (find _ mixSounds); [|now apply Hold].
        destruct (find_sound (MixSound.id x)) as [sound|] eqn:Efind; [|now apply Hold].
        apply in_app_or in Ha as [Ha|[<-|[]]]; [now apply Hold|].
        right. simpl. rewrite (find_sound_id _ _ Efind), map_app. split.
        -- apply in_or_app. right. now left.
        -- congruence.
    + (* the volumes *)
      intros a e Ha He Hid. rewrite mix_process_tracks in Ha.
      apply in_app_or in He as [He|[<-|[]]].
      * (* an entry that had its turn before *)
        assert (MixSound.id e <> MixSound.id x) as Hne.
        { intros Heq. apply Hfresh. rewrite <- Heq. now apply in_map. }
        destruct (obj_has current (MixSound.id x)) eqn:Ehas.
        -- apply in_map_iff in Ha as (a0 & <- & Ha0).
           destruct (has_id (MixSound.id x) a0) eqn:Ex.
           ++ unfold has_id in Ex. apply String.eqb_eq in Ex. simpl in Hid. congruence.
           ++ now apply (Hvol a0 e).
        -- destruct (find _ mixSounds); [|now apply (Hvol a e)].
           destruct (find_sound (MixSound.id x)) as [sound|] eqn:Efind;
             [|now apply (Hvol a e)].
           apply in_app_or in Ha as [Ha|[<-|[]]]; [now apply (Hvol a e)|].
           simpl in Hid. rewrite (find_sound_id _ _ Efind) in Hid. congruence.
      * (* the entry of this turn *)
        destruct (obj_has current (MixSound.id x)) eqn:Ehas.
        -- apply in_map_iff in Ha as (a0 & <- & Ha0).
           destruct (has_id (MixSound.id x) a0) eqn:Ex; [reflexivity|].
           unfold has_id in Ex. simpl in Hid. rewrite Hid, String.eqb_refl in Ex.
           discriminate.
        -- assert (~ In a (mix_tracks acc)) as Hnew.
           { intros Ha0. destruct (Hfrom a Ha0) as [Hc|[Hd _]].
             - rewrite <- Hid in Hc. congruence.
             - rewrite <- Hid in Hd. contradiction. }
           destruct (find _ mixSounds); [|contradiction].
           destruct (find_sound (MixSound.id x)) as [sound|]; [|contradiction].
           apply in_app_or in Ha as [Ha|[<-|[]]]; [contradiction | reflexivity].
Qed.

(** A turn never removes a track of its list. *)
Lemma process_keeps_ids entries :
  forall acc id,
    In id (track_ids (mix_tracks acc)) ->
    In id (track_ids (mix_tracks (fold_left process entries acc))).
Proof.
  induction entries as [|e entries IH]; simpl; intros acc id Hin; [assumption|].
  apply IH. destruct (mix_process_ids state mixSounds acc e) as [->|[_ ->]];
    [assumption | apply in_or_app; now left].
Qed.

End MixTwiceFacts.

Section MixTwiceTheorems.
Context `{Catalog}.

(** The tracks after [APPLY_MIX] of a mix with distinct ids: each is of a
    sound that was active or that the catalog has, and has exactly the
    volume of the mix entry of its id. *)
Lemma apply_mix_volumes b state mix :
  List.NoDup (mix_ids mix) ->
  (forall a, In a (activeSounds (snd (apply_mix b state mix))) ->
     In (Sound.id (ActiveSound.sound a)) (track_ids (activeSounds state)) \/
     find_sound (Sound.id (ActiveSound.sound a)) <> None) /\
  (forall a e, In a (activeSounds (snd (apply_mix b state mix))) ->
     In e (mix_sounds mix) ->
     MixSound.id e = Sound.id (ActiveSound.sound a) ->
     ActiveSound.volume a = MixSound.volume e).
Proof.
  intros Hnd.
  destruct (apply_mix_result b state mix) as (Htracks & _ & _).
  destruct (removal_result b state (mix_sounds mix)) as (p & Hkept & Hp).
  destruct (process_volumes state (mix_sounds mix) (mix_sounds mix) []
              (fold_left mix_remove (soundsToRemove state (mix_sounds mix))
                 (b, activeSounds state, soundStates state)))
    as [Hfrom Hvol].
  - exact Hnd.
  - intros a Ha. left. rewrite Hkept in Ha. apply List.filter_In in Ha as [Ha _].
    now apply current_has_track.
  - intros a e _ [].
  - rewrite Htracks. split; [|exact Hvol].
    intros a Ha. destruct (Hfrom a Ha) as [Hc|[_ Hf]]; [left | now right].
    rewrite currentActiveSoundMap_has in Hc. now apply existsb_has_id.
Qed.

(** After [APPLY_MIX] every mix sound that was active or that the catalog
    has is active. *)
Lemma apply_mix_resolves b state mix e :
  In e (mix_sounds mix) ->
  In (MixSound.id e) (track_ids (activeSounds state)) \/
    find_sound (MixSound.id e) <> None ->
  In (MixSound.id e) (track_ids (activeSounds (snd (apply_mix b state mix)))).
Proof.
  intros He Hres.
  destruct (apply_mix_result b state mix) as (Htracks & _ & _).
  destruct (removal_result b state (mix_sounds mix)) as (p & Hkept & Hp).
  rewrite Htracks.
  destruct (in_dec string_dec (MixSound.id e) (track_ids (activeSounds state)))
    as [Hactive|Hout].
  - apply process_keeps_ids. rewrite Hkept. unfold track_ids in *.
    apply in_map_iff in Hactive as (a & Hid & Ha). apply in_map_iff. exists a.
    split; [assumption|]. apply List.filter_In. split; [assumption|].
    apply Hp; [assumption|]. rewrite Hid. now apply in_map.
  - destruct Hres as [Hactive|Hfind]; [contradiction|].
    destruct (find_sound (MixSound.id e)) as [sound|] eqn:Efind; [|congruence].
    destruct (process_creates_in state (mix_sounds mix) (mix_sounds mix)
                (fold_left mix_remove (soundsToRemove state (mix_sounds mix))
                   (b, activeSounds state, soundStates state)) e sound He He
                (not_active_not_current _ _ Hout) Efind) as (h & Htrack & _).
    unfold track_ids. apply in_map_iff. eexists. split; [|exact Htrack].
    simpl. now apply find_sound_id.
Qed.

(** A state that already is what a mix asks for is left as it is by
    [APPLY_MIX], which then creates no element. *)
Lemma apply_mix_fixed b state mix :
  (forall a, In a (activeSounds state) ->
     In (Sound.id (ActiveSound.sound a)) (mix_ids mix)) ->
  (forall a e, In a (activeSounds state) -> In e (mix_sounds mix) ->
     MixSound.id e = Sound.id (ActiveSound.sound a) ->
     ActiveSound.volume a = MixSound.volume e) ->
  (forall e, In e (mix_sounds mix) ->
     In (MixSound.id e) (track_ids (activeSounds state)) ->
     exists st,
       obj_get (soundStates state) (MixSound.id e) = Some st /\
       SoundState.volume st = (MixSound.volume e * 100)%float) ->
  (forall e, In e (mix_sounds mix) ->
     ~ In (MixSound.id e) (track_ids (activeSounds state)) ->
     find_sound (MixSound.id e) = None) ->
  snd (apply_mix b state mix) = state /\
  length (audios (fst (apply_mix b state mix))) = length (audios b).
Proof.
  intros Hids Hvol Hsaved Hmissing. rewrite apply_mix_unfold. cbv zeta.
  assert (soundsToRemove state (mix_sounds mix) = []) as ->.
  { destruct (soundsToRemove state (mix_sounds mix)) as [|r l] eqn:E; [reflexivity|].
    destruct (soundsToRemove_spec state (mix_sounds mix)) as [Hsound _].
    destruct (Hsound r) as [Hr Hout]; [rewrite E; now left|].
    exfalso. apply Hout. now apply Hids. }
  cbn [fold_left].
  assert (forall entries,
            (forall e, In e entries -> In e (mix_sounds mix)) ->
            forall b0,
              exists b1,
                fold_left (mix_process state (mix_sounds mix) (currentActiveSoundMap state))
                  entries (b0, activeSounds state, soundStates state)
                = (b1, activeSounds state, soundStates state) /\
                length (audios b1) = length (audios b0)) as Hfold.
  { induction entries as [|e entries IH]; cbn [fold_left]; intros Hsub b0;
      [now exists b0|].
    assert (exists b1,
              mix_process state (mix_sounds mix) (currentActiveSoundMap state)
                (b0, activeSounds state, soundStates state) e
              = (b1, activeSounds state, soundStates state) /\
              length (audios b1) = length (audios b0)) as (b1 & -> & Hlen).
    { unfold mix_process. rewrite currentActiveSoundMap_has.
      destruct (existsb (has_id (MixSound.id e)) (activeSounds state)) eqn:Eactive.
      - apply existsb_has_id in Eactive.
        destruct (Hsaved e (Hsub e (or_introl eq_refl)) Eactive) as (st & Hst & Hv).
        eexists. split; [|apply set_gains_length]. f_equal; [f_equal|].
        + rewrite <- (map_id (activeSounds state)) at 2. apply map_ext_in.
          intros a Ha. destruct (has_id (MixSound.id e) a) eqn:Ea; [|reflexivity].
          unfold has_id in Ea. apply String.eqb_eq in Ea.
          rewrite <- (Hvol a e Ha (Hsub e (or_introl eq_refl)) (eq_sym Ea)).
          now destruct a.
        + apply obj_set_same. rewrite Hst. f_equal. unfold with_saved_volume.
          rewrite Hst, <- Hv. now destruct st.
      - assert (~ In (MixSound.id e) (track_ids (activeSounds state))) as Hout.
        { intros Hin. apply existsb_has_id in Hin. congruence. }
        rewrite (Hmissing e (Hsub e (or_introl eq_refl)) Hout).
        exists b0. now destruct (find _ (mix_sounds mix)). }
    destruct (IH (fun x Hx => Hsub x (or_intror Hx)) b1) as (b2 & -> & Hlen2).
    exists b2. split; [reflexivity | congruence]. }
  destruct (Hfold (mix_sounds mix) (fun e He => He) b) as (b1 & E & Hlen).
  cbv zeta. unfold mix_tracks, mix_browser. rewrite !E. simpl.
  split; [now destruct state | exact Hlen].
Qed.

(** X24: applying a mix with distinct ids, with gains in range, twice is
    applying it once: the gains of the second application are in range as
    well, and it leaves the state as the first made it, tracks, volumes and
    saved settings, creates no element and stores the same settings. *)
Theorem apply_mix_idempotent b state mix :
  in_range state (APPLY_MIX mix) = true ->
  List.NoDup (mix_ids mix) ->
  let once := apply_mix b state mix in
  let twice := apply_mix (fst once) (snd once) mix in
  in_range (snd once) (APPLY_MIX mix) = true /\
  snd twice = snd once /\
  length (audios (fst twice)) = length (audios (fst once)) /\
  stored_state (fst twice) = stored_state (fst once).
Proof.
  intros Hrange Hnd once twice.
  destruct (apply_mix_volumes b state mix Hnd) as [Hfrom Hvol].
  destruct (apply_mix_saved b state mix Hnd) as (Hentry & _ & _).
  fold once in Hfrom, Hvol, Hentry.
  split.
  { cbn [in_range] in *. apply forallb_forall. intros e He.
    pose proof (proj1 (forallb_forall _ _) Hrange e He) as Hgain. cbn beta in Hgain.
    replace (masterVolume (snd once)) with (masterVolume state)
      by (subst once; now rewrite apply_mix_unfold).
    destruct (gain_ok (MixSound.volume e * masterVolume state)); [apply orb_true_r|].
    rewrite orb_false_r in *. apply negb_true_iff in Hgain.
    apply orb_false_iff in Hgain as [Hwas Hfind]. rewrite Hfind, orb_false_r.
    apply negb_true_iff.
    destruct (existsb (has_id (MixSound.id e)) (activeSounds (snd once))) eqn:Eafter;
      [|reflexivity].
    exfalso. apply existsb_exists in Eafter as (a & Ha & Hid).
    unfold has_id in Hid. apply String.eqb_eq in Hid.
    destruct (Hfrom a Ha) as [Hactive|Hfound].
    - rewrite Hid in Hactive. apply existsb_has_id in Hactive. congruence.
    - rewrite Hid in Hfound. destruct (find_sound (MixSound.id e)); [discriminate|].
      now apply Hfound. }
  assert (snd twice = snd once /\
          length (audios (fst twice)) = length (audios (fst once))) as [Hs Hlen].
  { apply apply_mix_fixed.
    - intros a. apply apply_mix_ids.
    - exact Hvol.
    - intros e He Hactive. rewrite (Hentry e He). unfold saved_by.
      rewrite currentActiveSoundMap_has.
      destruct (existsb (has_id (MixSound.id e)) (activeSounds state)) eqn:Ewas.
      + eexists. split; [reflexivity|].
        now destruct (obj_get (soundStates state) (MixSound.id e)).
      + destruct (find_sound (MixSound.id e)) as [sound|] eqn:Efind;
          [eexists; now split|].
        exfalso. unfold track_ids in Hactive.
        apply in_map_iff in Hactive as (a & Hid & Ha).
        destruct (Hfrom a Ha) as [Hwas|Hfound].
        * rewrite Hid in Hwas. apply existsb_has_id in Hwas. congruence.
        * rewrite Hid in Hfound. contradiction.
    - intros e He Hout.
      destruct (find_sound (MixSound.id e)) as [sound|] eqn:Efind; [|reflexivity].
      exfalso. apply Hout. apply apply_mix_resolves; [assumption|].
      right. congruence. }
  split; [exact Hs|]. split; [exact Hlen|].
  subst twice. rewrite (apply_mix_unfold (fst once)). simpl.
  rewrite apply_mix_unfold in Hs. simpl in Hs.
  apply (f_equal soundStates) in Hs. simpl in Hs. rewrite Hs.
  subst once. rewrite (apply_mix_unfold b). reflexivity.
Qed.

End MixTwiceTheorems.

Section CurrentMixFacts.
Context `{Catalog} `{Presets}.

(** X25: after an [APPLY_MIX], with gains in range, of a mix whose ids are
    distinct, each of them active or in the catalog, with finite volumes, on
    tracks of distinct sounds, the active tracks match the mix; so [isCurrentMixSaved] answers
    true when the mix is one of the presets or of the custom mixes.  With no
    active track it answers false whatever is saved. *)
Theorem applied_mix_is_current b state mix m :
  in_range state (APPLY_MIX mix) = true ->
  List.NoDup (mix_ids mix) ->
  List.NoDup (track_ids (activeSounds state)) ->
  mix_sounds mix <> [] ->
  (forall e, In e (mix_sounds mix) ->
     (In (MixSound.id e) (track_ids (activeSounds state)) \/
      find_sound (MixSound.id e) <> None) /\
     finite (MixSound.volume e) = true) ->
  let after := snd (apply_mix b state mix) in
  length (activeSounds after) = length (mix_sounds mix) /\
  doesMixMatch after mix = true /\
  (In mix soundMixes \/ In mix (getCustomMixes m) -> isCurrentMixSaved after m = true) /\
  (forall audioState m0,
     activeSounds audioState = [] -> isCurrentMixSaved audioState m0 = false).
Proof.
  intros _ Hnd Htracks Hsome Hres after.
  destruct (apply_mix_volumes b state mix Hnd) as [_ Hvol].
  fold after in Hvol.
  assert (List.NoDup (track_ids (activeSounds after))) as Hnd'.
  { subst after. destruct (apply_mix_result b state mix) as (-> & _ & _).
    destruct (removal_result b state (mix_sounds mix)) as (p & Hkept & Hp).
    apply process_NoDup; try assumption.
    - rewrite Hkept. now apply NoDup_track_ids_filter.
    - intros id _ Hnew. rewrite Hkept. intros Hin. apply track_ids_filter in Hin.
      apply existsb_has_id in Hin. rewrite <- currentActiveSoundMap_has in Hin.
      congruence. }
  assert (length (activeSounds after) = length (mix_sounds mix)) as Hlen.
  { rewrite <- (length_map (fun a => Sound.id (ActiveSound.sound a))).
    rewrite <- (length_map MixSound.id (mix_sounds mix)).
    apply Nat.le_antisymm; apply NoDup_incl_length; try assumption.
    - intros id Hid. apply in_map_iff in Hid as (a & <- & Ha).
      now apply (apply_mix_ids b state mix).
    - intros id Hid. apply in_map_iff in Hid as (e & <- & He).
      apply apply_mix_resolves; [assumption|]. now apply Hres. }
  assert (doesMixMatch after mix = true) as Hmatch.
  { unfold doesMixMatch. rewrite Hlen, Nat.eqb_refl. simpl.
    apply forallb_forall. intros e He.
    assert (In (MixSound.id e) (track_ids (activeSounds after))) as Hactive
      by (apply apply_mix_resolves; [assumption | now apply Hres]).
    destruct (find (has_id (MixSound.id e)) (activeSounds after)) as [a|] eqn:Efind.
    - apply find_some in Efind as [Ha Hid]. unfold has_id in Hid.
      apply String.eqb_eq in Hid.
      rewrite (Hvol a e Ha He (eq_sym Hid)). apply same_volume_matches. now apply Hres.
    - exfalso. unfold track_ids in Hactive. apply in_map_iff in Hactive as (a & Hid & Ha).
      apply (find_none _ _ Efind) in Ha. unfold has_id in Ha.
      now rewrite Hid, String.eqb_refl in Ha. }
  split; [exact Hlen|]. split; [exact Hmatch|]. split.
  - intros Hsaved. unfold isCurrentMixSaved.
    destruct (length (activeSounds after)) as [|n] eqn:En.
    { exfalso. apply Hsome. destruct (mix_sounds mix); [reflexivity | discriminate]. }
    simpl. destruct (existsb (doesMixMatch after) soundMixes) eqn:Epre; [reflexivity|].
    destruct Hsaved as [Hpre|Hcustom].
    + assert (existsb (doesMixMatch after) soundMixes = true) as Hex; [|congruence].
      apply existsb_exists. now exists mix.
    + apply existsb_exists. now exists mix.
  - intros audioState m0 Hnone. unfold isCurrentMixSaved. now rewrite Hnone.
Qed.

End CurrentMixFacts.

(** ** The provider *)

(** A slider position from 1 to 100, scaled to a gain, stored on the 0-100
    scale and read back, is the same gain again, also where the stored
    number is not the position (as for 7, stored as 7.000000000000001). *)
Lemma slider_round_trip p :
  (1 <= p <= 100)%Z ->
  truthy (slider p / 100 * 100) = true /\
  (slider p / 100 * 100 / 100 = slider p / 100)%float.
Proof.
  intros Hp.
  assert (forall n, n < 100 ->
            truthy (slider (Z.of_nat (S n)) / 100 * 100) = true /\
            (slider (Z.of_nat (S n)) / 100 * 100 / 100
             = slider (Z.of_nat (S n)) / 100)%float) as Hall.
  { intros n Hn.
    do 100 (destruct n as [|n]; [split; vm_compute; reflexivity|]). lia. }
  replace p with (Z.of_nat (S (Z.to_nat (p - 1)))) by lia.
  apply Hall. lia.
Qed.

Section ProviderFacts.
Context `{Catalog} `{Presets}.

(** X26: the provider's [setTimer] hands the option to the manager and
    names in its toast the minutes that the engine counts down: the two
    tables of minutes agree, and the remaining time of the state is 60000
    ms times the number in the toast.  For ["endless"] the toast says the
    timer is disabled and the state has no remaining time. *)
Theorem Provider_setTimer_toast option m :
  fst (Provider_setTimer option m) = setTimer option m /\
  Provider_minutes option = minutes_of option /\
  (option = Tendless ->
   snd (Provider_setTimer option m)
   = mkToast (Some "Timer Disabled") "Playback will continue indefinitely" /\
   timeRemaining (state (fst (Provider_setTimer option m))) = None /\
   timer (state (fst (Provider_setTimer option m))) = Tendless) /\
  (option <> Tendless ->
   exists minutes,
     (0 < minutes)%Z /\
     snd (Provider_setTimer option m)
     = mkToast (Some "Timer Set")
         ("Playback will stop in " ++ string_of_number minutes ++ " minutes") /\
     timeRemaining (state (fst (Provider_setTimer option m)))
     = Some (minutes * 60 * 1000)%Z /\
     timerEndTime (state (fst (Provider_setTimer option m)))
     = Some (clock (browser m) + minutes * 60 * 1000)%Z /\
     timer (state (fst (Provider_setTimer option m))) = option).
Proof.
  split; [now destruct option|]. split; [now destruct option|]. split.
  - intros ->. unfold Provider_setTimer. simpl. now repeat split.
  - intros Hopt. exists (minutes_of option).
    assert (state (setTimer option m)
            = set_timer (clock (browser m)) (state m) option) as Hs.
    { unfold setTimer. now rewrite (proj1 (dispatch_reducer (SET_TIMER option) m)). }
    destruct option; try congruence; unfold Provider_setTimer; cbn [fst snd];
      rewrite Hs; simpl; now repeat split.
Qed.

(** X27: a slider position from 1 to 100 that [updateVolume] sets for a
    sound without an active track is the volume at which the next toggle of
    that sound creates its track, when the gain is in range (the position
    over 100 times the master volume is from 0 to 1): the volume is the
    position divided by 100, exactly, although the settings hold it times
    100. *)
Theorem slider_position_is_restored m sound p :
  (1 <= p <= 100)%Z ->
  ~ In (Sound.id sound) (track_ids (activeSounds (state m))) ->
  length (activeSounds (state m)) < MAX_CONCURRENT_SOUNDS ->
  gain_ok (slider p / 100 * masterVolume (state m)) = true ->
  let set := Provider_updateVolume (Sound.id sound) (slider p) m in
  let on := toggleSound sound set in
  activeSounds (state set) = activeSounds (state m) /\
  (exists st,
     obj_get (soundStates (state set)) (Sound.id sound) = Some st /\
     SoundState.volume st = (slider p / 100 * 100)%float) /\
  activeSounds (state on) =
    activeSounds (state m) ++
    [ActiveSound.mk sound (length (audios (browser m))) (slider p / 100)].
Proof.
  intros Hp Hout Hroom _ set on.
  destruct (slider_round_trip p Hp) as [Htruthy Hback].
  assert (state set = snd (set_volume (browser m) (state m) (Sound.id sound)
                             (slider p / 100)) /\
          browser set = fst (set_volume (browser m) (state m) (Sound.id sound)
                               (slider p / 100))) as [Hs Hb].
  { subst set. unfold Provider_updateVolume, setVolumeForSound.
    rewrite (proj1 (dispatch_reducer (SET_VOLUME (Sound.id sound) (slider p / 100)) m)).
    rewrite (proj1 (dispatch_plain (SET_VOLUME (Sound.id sound) (slider p / 100)) m I)).
    now split. }
  clearbody set.
  pose proof (proj2 (has_id_track_ids (Sound.id sound) (activeSounds (state m))) Hout)
    as Hall.
  assert (activeSounds (state set) = activeSounds (state m)) as Htracks.
  { rewrite Hs. unfold set_volume. simpl. now apply map_unless. }
  assert (audios (browser set) = audios (browser m)) as Haudios.
  { rewrite Hb. unfold set_volume. simpl. now rewrite set_gains_none. }
  assert (exists flag,
            obj_get (soundStates (state set)) (Sound.id sound)
            = Some (SoundState.mk (slider p / 100 * 100) flag)) as [flag Hsaved].
  { rewrite Hs. unfold set_volume. simpl. rewrite obj_get_set_eq.
    unfold with_saved_volume.
    destruct (obj_get (soundStates (state m)) (Sound.id sound)); eauto. }
  split; [exact Htracks|]. split; [rewrite Hsaved; eauto|].
  destruct (toggleSound_reducer sound set) as [Hon _]. fold on in Hon.
  destruct (toggle_sound_new (browser set) (state set) sound) as (volume & Hv & Hnew).
  - now rewrite Htracks.
  - now rewrite Htracks.
  - rewrite Hon, Hnew. simpl. rewrite Htracks, Haudios. do 3 f_equal.
    rewrite Hv, Hsaved. simpl. now rewrite Htruthy, Hback.
Qed.

(** X28: when the provider's copy of the state is current and the tracks
    are of distinct sounds, the toast of [toggleSound] tells what happened:
    for an active sound it says removed and the sound is no longer active;
    for a sound that is not active, below capacity, whose track gets a gain
    in range, it says now playing and the sound is active, whether or not
    the state plays ([isPlaying] is not changed by the toggle). *)
Theorem Provider_toggleSound_toast m sound :
  List.NoDup (track_ids (activeSounds (state m))) ->
  let r := Provider_toggleSound (state m) sound m in
  (In (Sound.id sound) (track_ids (activeSounds (state m))) ->
   snd r = mkToast None (Sound.name sound ++ " has been removed") /\
   fst r = toggleSound sound m /\
   ~ In (Sound.id sound) (track_ids (activeSounds (state (fst r))))) /\
  (~ In (Sound.id sound) (track_ids (activeSounds (state m))) ->
   length (activeSounds (state m)) < 3 ->
   in_range (state m) (TOGGLE_SOUND sound) = true ->
   snd r = mkToast None (Sound.name sound ++ " is now playing") /\
   fst r = toggleSound sound m /\
   In (Sound.id sound) (track_ids (activeSounds (state (fst r)))) /\
   isPlaying (state (fst r)) = isPlaying (state m)).
Proof.
  intros Hnd r. subst r. unfold Provider_toggleSound. split.
  - intros Hactive.
    replace (existsb _ (activeSounds (state m))) with true
      by (symmetry; now apply existsb_has_id).
    cbn [negb andb fst snd]. do 2 (split; [reflexivity|]).
    rewrite (proj1 (toggleSound_reducer sound m)).
    destruct (findIndex_active _ _ Hactive) as (i & x & Efind).
    rewrite (toggle_sound_off _ _ _ _ _ Efind). simpl.
    rewrite (delete_found _ _ i x Hnd Efind). unfold track_ids.
    intros Hi. apply in_map_iff in Hi as (a & Hid & Ha).
    apply List.filter_In in Ha as [_ Ha]. unfold has_id in Ha.
    now rewrite Hid, String.eqb_refl in Ha.
  - intros Hout Hroom _.
    replace (existsb _ (activeSounds (state m))) with false.
    2:{ symmetry. destruct (existsb _ (activeSounds (state m))) eqn:E; [|reflexivity].
        apply existsb_has_id in E. contradiction. }
    destruct (Nat.leb_spec 3 (length (activeSounds (state m)))) as [Hfull|_]; [lia|].
    cbn [negb andb fst snd]. do 2 (split; [reflexivity|]).
    rewrite (proj1 (toggleSound_reducer sound m)).
    destruct (toggle_sound_new (browser m) (state m) sound Hout Hroom)
      as (volume & _ & ->). simpl. split; [|reflexivity].
    unfold track_ids. rewrite map_app. apply in_or_app. right. now left.
Qed.

End ProviderFacts.

(** * Examples on the sample catalog *)

#[local] Existing Instance sample_catalog.

Lemma countdown_15min_witness :
  timeRemaining (state armed_manager) = Some 900000%Z /\
  timerEndTime (state armed_manager) = Some 901000%Z /\
  exists s1 s2 s3,
    broadcasts (interval_fires 1 901000 armed_manager)
      = broadcasts armed_manager ++ [s1; s2; s3] /\
    timeRemaining s1 = Some 0%Z /\
    isPlaying s2 = false /\
    timer s3 = Tendless /\
    timerInterval (interval_fires 1 901000 armed_manager) = None.
Proof.
  assert (0 <= clock (browser fresh_manager))%Z as Hclock by (vm_compute; discriminate).
  destruct (countdown_15min fresh_manager Hclock) as (_ & Hrem & Hend & _ & Htick).
  split; [exact Hrem|]. split; [exact Hend|].
  destruct (Htick armed_manager 1%positive 901000%Z)
    as (s1 & s2 & s3 & Hlog & (H1 & _) & (H2 & _) & (H3 & _) & _ & Hstop & _).
  - reflexivity.
  - reflexivity.
  - vm_compute. now left.
  - vm_compute. discriminate.
  - exists s1, s2, s3. repeat split; assumption.
Defined.

Lemma capacity_toggle_reported_witness :
  let m := toggles [rain; wind; fire] fresh_manager in
  toggleSound birds m = notify m /\
  Provider_toggleSound (state m) birds m = (m, capacity_toast) /\
  Provider_toggleSound (state (toggles [rain; wind] fresh_manager)) birds m
  = (notify m, mkToast None "Birds is now playing").
Proof.
  intros m.
  destruct (capacity_toggle_reported m birds) as (_ & Hmanager & Hcurrent & _ & _ & Hstale & _).
  - reflexivity.
  - vm_compute. intuition discriminate.
  - split; [exact Hmanager|]. split; [exact Hcurrent|].
    apply Hstale.
    + vm_compute. intuition discriminate.
    + vm_compute. lia.
Defined.

(** C4, counterexample: rain, wind and fire are active, and the provider
    still holds the state in which only rain and wind were.  The toggle of
    birds is rejected, the state of the manager is as before, and the toast
    reads that birds is now playing: the toast that the provider shows, from
    the same copy, when the toggle is accepted and birds gets its track. *)
Lemma stale_copy_hides_rejection :
  let m := toggles [rain; wind; fire] fresh_manager in
  let earlier := toggles [rain; wind] fresh_manager in
  let rejected := Provider_toggleSound (state earlier) birds m in
  let accepted := Provider_toggleSound (state earlier) birds earlier in
  track_ids (activeSounds (state m)) = ["rain"; "wind"; "fire"] /\
  state (fst rejected) = state m /\
  browser (fst rejected) = browser m /\
  snd rejected = mkToast None "Birds is now playing" /\
  snd rejected <> capacity_toast /\
  track_ids (activeSounds (state (fst accepted))) = ["rain"; "wind"; "birds"] /\
  snd accepted = snd rejected.
Proof.
  intros m earlier rejected accepted.
  split; [vm_compute; reflexivity|]. split; [vm_compute; reflexivity|].
  split; [vm_compute; reflexivity|]. split; [vm_compute; reflexivity|].
  split; [vm_compute; discriminate|]. split; vm_compute; reflexivity.
Qed.

(** C5, counterexample: rain had been set to volume 0 before the page was
    loaded again, so it is not active and has a saved entry.  Toggling it on
    and then off deletes the entry: the saved settings are not what they
    were. *)
Lemma toggle_on_off_drops_saved_entry :
  let m := muted_rain_manager in
  let m' := toggleSound rain (toggleSound rain m) in
  ~ In "rain" (track_ids (activeSounds (state m))) /\
  soundStates (state m) = [("rain", SoundState.mk 0 (Some false))] /\
  activeSounds (state (toggleSound rain m)) = [ActiveSound.mk rain 0 1%float] /\
  soundStates (state m') = [] /\
  soundStates (state m') <> soundStates (state m).
Proof.
  intros m m'. split; [|split; [|split; [|split]]].
  - vm_compute. tauto.
  - vm_compute. reflexivity.
  - vm_compute. reflexivity.
  - vm_compute. reflexivity.
  - vm_compute. discriminate.
Qed.

Lemma toggle_on_off_restores_witness :
  let m := saved_rain_manager in
  let on := toggle_sound (browser m) (state m) rain in
  let off := toggle_sound (fst on) (snd on) rain in
  track_ids (activeSounds (state m)) = ["wind"] /\
  obj_keys (soundStates (state m)) = ["wind"; "rain"] /\
  activeSounds (snd off) = activeSounds (state m) /\
  obj_get (soundStates (snd off)) "wind" = obj_get (soundStates (state m)) "wind" /\
  soundStates (snd off) = obj_delete (soundStates (state m)) "rain".
Proof.
  intros m.
  destruct (toggle_on_off_restores (browser m) (state m) rain)
    as (Htracks & Hother & Hbelow & _).
  - vm_compute. intuition discriminate.
  - vm_compute. reflexivity.
  - split; [vm_compute; reflexivity|]. split; [vm_compute; reflexivity|].
    split; [exact Htracks|]. split; [apply Hother; discriminate|].
    apply Hbelow. vm_compute. lia.
Defined.

(** C8, counterexample: with a 15 minute timer running, [setTimer] with
    ["endless"] leaves the interval armed, [cancelTimer] clears it. *)
Lemma endless_leaves_tick_loop_armed :
  timerInterval (setTimer Tendless armed_manager) = Some 1%positive /\
  intervals (browser (setTimer Tendless armed_manager)) = [1%positive] /\
  timerInterval (cancelTimer armed_manager) = None /\
  intervals (browser (cancelTimer armed_manager)) = [].
Proof. repeat split; vm_compute; reflexivity. Qed.

(** C9, counterexample: rain was saved at volume 0; toggled on, its track
    is created at volume 1, not at 0 / 100. *)
Lemma toggle_on_saved_zero_gets_default :
  obj_get (soundStates (state muted_rain_manager)) "rain"
    = Some (SoundState.mk 0 (Some false)) /\
  activeSounds (state muted_rain_manager) = [] /\
  map ActiveSound.volume (activeSounds (state (toggleSound rain muted_rain_manager)))
    = [1%float] /\
  (0 / 100)%float <> 1%float.
Proof.
  repeat split; try (vm_compute; reflexivity).
  intros E. apply (f_equal (fun x => PrimFloat.eqb x 1)) in E.
  vm_compute in E. discriminate E.
Qed.

Lemma toggle_on_volume_witness :
  let m := saved_rain_manager in
  exists track,
    activeSounds (snd (toggle_sound (browser m) (state m) rain))
      = activeSounds (state m) ++ [track] /\
    obj_get (soundStates (state m)) "rain" = Some (SoundState.mk 40 None) /\
    ActiveSound.volume track = 0.4%float.
Proof.
  intros m.
  destruct (toggle_on_volume (browser m) (state m) rain)
    as (track & Htracks & _ & Hsaved & _).
  - vm_compute. intuition discriminate.
  - vm_compute. lia.
  - vm_compute. reflexivity.
  - exists track. split; [exact Htracks|]. split; [vm_compute; reflexivity|].
    rewrite (Hsaved (SoundState.mk 40 None)); vm_compute; reflexivity.
Defined.

Lemma set_volume_inactive_witness :
  let after := set_volume empty_browser initialAudioState "rain" 0.5 in
  activeSounds (snd after) = [] /\
  obj_get (soundStates (snd after)) "rain" = Some (SoundState.mk 50 None) /\
  stored_state (fst after) = Some [("rain", SoundState.mk 50 None)].
Proof.
  destruct (set_volume_inactive empty_browser initialAudioState "rain" 0.5)
    as (Htracks & _ & _ & Hnew & Hstored & _).
  - simpl. tauto.
  - split; [exact Htracks|]. split; [apply Hnew; reflexivity | exact Hstored].
Defined.

(** C3, at the failing input: rain is toggled on at master volume 0.7 and
    played, the master volume is lowered to 0.2 (its element then plays at
    1 * 0.2), and the element reaches its last 3 seconds.  The crossfade
    runs its 60 steps and clears its interval; the track holds the incoming
    element, the outgoing one is paused with its source emptied; the
    incoming gain is 0.7, the product of the values at the time the track
    was created, and not the track volume times the master volume, 0.2. *)
Theorem crossfade_ends_at_stale_gain :
  let after := crossfade 0 58 60 60 quieter_manager in
  snd after = None /\
  activeSounds (state (fst after)) = [ActiveSound.mk rain 1 1%float] /\
  masterVolume (state (fst after)) = 0.2%float /\
  HTMLAudioElement.volume <$> audios (browser quieter_manager) !! 0
    = Some (1 * 0.2)%float /\
  HTMLAudioElement.volume <$> audios (browser (fst after)) !! 1 = Some 0.7%float /\
  HTMLAudioElement.src <$> audios (browser (fst after)) !! 0 = Some "" /\
  HTMLAudioElement.paused <$> audios (browser (fst after)) !! 0 = Some true /\
  (1 * 0.2)%float <> 0.7%float.
Proof.
  repeat split; try (vm_compute; reflexivity).
  intros E. apply (f_equal (fun x => PrimFloat.eqb x 0.7)) in E.
  vm_compute in E. discriminate E.
Qed.

Lemma toggles_within_capacity_witness :
  let m := toggles [rain; wind; fire] fresh_manager in
  length (activeSounds (state fresh_manager)) <= 3 /\
  length (activeSounds (state (toggles [rain; wind; fire; birds] fresh_manager))) <= 3 /\
  state (toggleSound birds m) = state m /\
  browser (toggleSound birds m) = browser m.
Proof.
  intros m.
  assert (reachable fresh_manager) as Hfresh by apply reach_new.
  destruct (toggles_within_capacity fresh_manager) as (Hreach & Htoggles & _).
  destruct (toggles_within_capacity m) as (_ & _ & Hnoop).
  split; [now apply Hreach|]. split; [apply Htoggles; now apply Hreach|].
  apply (Hnoop birds).
  - reflexivity.
  - vm_compute. intuition discriminate.
Defined.

(** The trust in presets matters: a preset of four sounds of the catalog
    gives four tracks. *)
Example untrusted_mix_exceeds_capacity :
  length (activeSounds (state (applyMix four_sound_mix fresh_manager))) = 4.
Proof. vm_compute. reflexivity. Qed.

(** C6, counterexample: the settings a session left have four sounds of the
    catalog with a positive saved volume; the restore re-activates the
    first three, and birds stays inactive. *)
Lemma restore_drops_fourth_sound :
  obj_keys (restorable (default [] (stored_state crowded_browser)))
  = ["rain"; "wind"; "fire"; "birds"] /\
  (exists st,
      obj_get (default [] (stored_state crowded_browser)) "birds" = Some st /\
      (0 <? SoundState.volume st)%float = true) /\
  find_sound "birds" = Some birds /\
  track_ids (activeSounds (state (new_manager crowded_browser)))
  = ["rain"; "wind"; "fire"] /\
  ~ In "birds" (track_ids (activeSounds (state (new_manager crowded_browser)))).
Proof.
  split; [vm_compute; reflexivity|]. split.
  { eexists. split; vm_compute; reflexivity. }
  repeat split; try (vm_compute; reflexivity).
  vm_compute. intuition discriminate.
Qed.

Lemma restore_from_storage_witness :
  let m := new_manager rain_browser in
  track_ids (activeSounds (state m)) = ["rain"] /\
  isPlaying (state m) = false /\
  (forall k st, In (k, st) (soundStates (state m)) ->
     SoundState.isPlaying st = Some false).
Proof.
  intros m.
  assert (List.NoDup (obj_keys [("rain", SoundState.mk 50 (Some true))])) as Hnd.
  { repeat constructor. intros []. }
  assert (restore_in_range [("rain", SoundState.mk 50 (Some true))] = true) as Hrange
    by (vm_compute; reflexivity).
  destruct (restore_from_storage rain_browser
              [("rain", SoundState.mk 50 (Some true))] eq_refl Hnd Hrange)
    as (Hids & _ & _ & Hplay & _ & Hflags & _).
  split; [exact Hids|]. split; [exact Hplay | exact Hflags].
Defined.

(** The example of the restore: one rain track at volume 0.5, paused, and
    nothing playing. *)
Example restore_rain_at_half :
  let m := new_manager rain_browser in
  activeSounds (state m) = [ActiveSound.mk rain 0 0.5%float] /\
  isPlaying (state m) = false /\
  soundStates (state m) = [("rain", SoundState.mk 50 (Some false))] /\
  map HTMLAudioElement.paused (audios (browser m)) = [true].
Proof. repeat split; vm_compute; reflexivity. Qed.

(** C7, counterexample: the mix names thunder, which is not active and not
    in the catalog; no track is created for it. *)
Lemma apply_mix_skips_unknown_sound :
  In "thunder" (mix_ids thunder_mix) /\
  ~ In "thunder" (track_ids (activeSounds initialAudioState)) /\
  find_sound "thunder" = None /\
  activeSounds (snd (apply_mix empty_browser initialAudioState thunder_mix)) = [].
Proof.
  repeat split; try (vm_compute; reflexivity).
  - now left.
  - intros [].
Qed.

Lemma apply_mix_tracks_witness :
  let after := apply_mix empty_browser initialAudioState rain_wind_mix in
  map (fun a => (Sound.id (ActiveSound.sound a), ActiveSound.volume a))
    (activeSounds (snd after))
  = [("rain", 0.5%float); ("wind", 0.3%float)] /\
  exists h,
    In (ActiveSound.mk rain h 0.5%float) (activeSounds (snd after)) /\
    HTMLAudioElement.paused <$> audios (fst after) !! h = Some true.
Proof.
  intros after.
  destruct (apply_mix_tracks empty_browser initialAudioState rain_wind_mix)
    as (_ & _ & _ & _ & Hcreate & Hexact).
  - vm_compute. reflexivity.
  - split.
    + apply Hexact. intros e _ [].
    + apply (Hcreate (MixSound.mk "rain" 0.5) rain).
      * now left.
      * intros [].
      * reflexivity.
Defined.

(** The example of the preset: on an empty track list, exactly the two
    tracks of the mix, paused when the state does not play and playing when
    it does. *)
Example apply_mix_rain_wind :
  let paused_session := applyMix rain_wind_mix fresh_manager in
  let playing_session := applyMix rain_wind_mix (togglePlayPause fresh_manager) in
  activeSounds (state paused_session)
  = [ActiveSound.mk rain 0 0.5%float; ActiveSound.mk wind 1 0.3%float] /\
  map HTMLAudioElement.paused (audios (browser paused_session)) = [true; true] /\
  activeSounds (state playing_session)
  = [ActiveSound.mk rain 0 0.5%float; ActiveSound.mk wind 1 0.3%float] /\
  map HTMLAudioElement.paused (audios (browser playing_session)) = [false; false].
Proof. repeat split; vm_compute; reflexivity. Qed.

Lemma set_volume_tracks_witness :
  let m := toggles [rain; wind] fresh_manager in
  let after := set_volume (browser m) (state m) "wind" 0.5 in
  activeSounds (snd after) = [ActiveSound.mk rain 0 1; ActiveSound.mk wind 1 0.5] /\
  audios (fst after) !! 1
  = HTMLAudioElement.set_volume (0.5 * 0.7) <$> audios (browser m) !! 1 /\
  audios (fst after) !! 0 = audios (browser m) !! 0.
Proof.
  intros m after.
  destruct (set_volume_tracks (browser m) (state m) "wind" 0.5)
    as (_ & _ & _ & _ & Hgain & Hother & _).
  - vm_compute. reflexivity.
  - split; [vm_compute; reflexivity|]. split.
    + apply (Hgain (ActiveSound.mk wind 1 1)); [vm_compute; right; now left | reflexivity].
    + apply Hother. intros a Ha Hid. vm_compute in Ha.
      destruct Ha as [<-|[<-|[]]]; [discriminate Hid | discriminate].
Defined.

Lemma set_master_volume_gains_witness :
  let m := toggles [rain; wind] fresh_manager in
  let after := set_master_volume (browser m) (state m) 0.5 in
  List.NoDup (track_handles (activeSounds (state m))) /\
  audios (fst after) !! 1
  = HTMLAudioElement.set_volume (1 * 0.5) <$> audios (browser m) !! 1.
Proof.
  intros m after.
  assert (List.NoDup (track_handles (activeSounds (state m)))) as Hnd.
  { vm_compute. repeat constructor; simpl; intuition discriminate. }
  split; [exact Hnd|].
  assert (in_range (state m) (SET_MASTER_VOLUME 0.5) = true) as Hrange
    by (vm_compute; reflexivity).
  destruct (set_master_volume_gains (browser m) (state m) 0.5 Hrange Hnd)
    as (_ & _ & _ & _ & _ & Hgain & _).
  apply (Hgain (ActiveSound.mk wind 1 1)). vm_compute. right. now left.
Defined.

Lemma toggle_on_creates_witness :
  let m := togglePlayPause (toggleSound rain fresh_manager) in
  audios (fst (toggle_sound (browser m) (state m) wind)) =
    audios (browser m) ++
    [HTMLAudioElement.mk "/sounds/wind.mp3" (1 * 0.7) false false "auto" false
       (Some (Listener.mk wind 1 0.7))].
Proof.
  intros m.
  destruct (toggle_on_creates (browser m) (state m) wind) as (volume & Hv & Hel & _).
  - vm_compute. intuition discriminate.
  - vm_compute. lia.
  - vm_compute. reflexivity.
  - rewrite Hel, Hv. reflexivity.
Defined.

Lemma toggle_off_releases_witness :
  let m := togglePlayPause (toggles [rain; wind] fresh_manager) in
  let after := toggle_sound (browser m) (state m) rain in
  track_ids (activeSounds (snd after)) = ["wind"] /\
  isPlaying (snd after) = true /\
  obj_get (soundStates (snd after)) "rain" = None.
Proof.
  intros m after.
  destruct (toggle_off_releases (browser m) (state m) rain)
    as (Htracks & _ & _ & _ & _ & Hsaved & _ & Hplaying & _).
  - vm_compute. now left.
  - vm_compute. repeat constructor; simpl; intuition discriminate.
  - fold after in Htracks, Hsaved, Hplaying.
    split; [rewrite Htracks; reflexivity|]. split; [rewrite Hplaying; reflexivity|].
    exact Hsaved.
Defined.

Lemma countdown_ticks_witness :
  exists i,
    timerInterval (setTimer T5min fresh_manager) = Some i /\
    timeRemaining
      (state (interval_fires i 2000 (setTimer T5min fresh_manager)))
    = Some 299000%Z.
Proof.
  destruct (countdown_ticks fresh_manager T5min 1000) as (i & Hi & _ & Hrem & _).
  - discriminate.
  - vm_compute. discriminate.
  - vm_compute. split; [discriminate | reflexivity].
  - exists i. split; [exact Hi | exact Hrem].
Defined.

Lemma rearm_clears_previous_witness :
  timerInterval armed_manager = Some 1%positive /\
  ~ In 1%positive (intervals (browser (setTimer T30min armed_manager))).
Proof.
  split; [reflexivity|].
  assert (reachable armed_manager) as Hreach.
  { apply (reach_dispatch (SET_TIMER T15min) fresh_manager); [apply reach_new | exact I]. }
  destruct (rearm_clears_previous armed_manager T30min 1%positive Hreach)
    as (_ & _ & Hgone & _); [discriminate | reflexivity | exact Hgone].
Defined.

Lemma mixes_survive_reload_witness :
  customMixes (new_manager (reload saved_mix_manager)) = [rain_wind_mix].
Proof.
  assert (reachable saved_mix_manager) as Hreach.
  { apply (reach_dispatch (SAVE_CUSTOM_MIX rain_wind_mix) fresh_manager);
      [apply reach_new | exact I]. }
  rewrite (proj1 (mixes_survive_reload saved_mix_manager Hreach)). reflexivity.
Defined.

Lemma handleAudioError_replaces_witness :
  let m := toggleSound rain fresh_manager in
  handleAudioError 0 false m = m /\
  track_handles (activeSounds (state (handleAudioError 0 true m))) = [1].
Proof.
  intros m.
  destruct (handleAudioError_replaces 0 m
              (HTMLAudioElement.mk "/sounds/rain.mp3" (1 * 0.7) true false "auto" false
                 (Some (Listener.mk rain 1 0.7)))
              (Listener.mk rain 1 0.7))
    as (Hnone & _ & Hreplace); [reflexivity | reflexivity | now left |].
  split; [exact Hnone|].
  destruct (Hreplace eq_refl) as (_ & Hhandles & _). exact Hhandles.
Defined.

Lemma fadeStep_interrupted_witness :
  let m := toggleSound rain fresh_manager in
  let started := handleTimeUpdate 0 58 60 (browser m) in
  exists f,
    snd started = Some f /\
    snd (fadeStep f (with_browser (fst started) m)) = None /\
    HTMLAudioElement.volume
      <$> audios (browser (fst (fadeStep f (with_browser (fst started) m)))) !! 1
    = Some 0%float.
Proof.
  intros m started.
  exists (mkFade 0 1 false (1 * 0.7) (1 * 0.7) 0). split; [reflexivity|].
  destruct (fadeStep_interrupted (mkFade 0 1 false (1 * 0.7) (1 * 0.7) 0)
              (with_browser (fst started) m)
              (HTMLAudioElement.mk "/sounds/rain.mp3" (1 * 0.7) true false "auto" true
                 (Some (Listener.mk rain 1 0.7)))
              (HTMLAudioElement.mk "/sounds/rain.mp3" 0 true false "auto" false
                 (Some (Listener.mk rain 1 0.7))))
    as (Hnone & _ & Hnew & _);
    [reflexivity | reflexivity | simpl; lia | now left | now left |].
  split; [exact Hnone|].
  exact (f_equal (fmap HTMLAudioElement.volume) Hnew).
Defined.

Lemma crossfade_takes_60_steps_witness :
  let m := togglePlayPause (toggleSound rain fresh_manager) in
  snd (crossfade 0 58 60 59 m) <> None /\
  snd (crossfade 0 58 60 60 m) = None.
Proof.
  intros m.
  destruct (crossfade_takes_60_steps m 0 58 60
              (HTMLAudioElement.mk "/sounds/rain.mp3" (1 * 0.7) false false "auto" false
                 (Some (Listener.mk rain 1 0.7)))
              (Listener.mk rain 1 0.7))
    as (Hrunning & Hdone & _); try reflexivity.
  split; [apply (Hrunning 59); lia | exact Hdone].
Defined.

Lemma apply_mix_tracks_do_not_loop_witness :
  let after := apply_mix empty_browser initialAudioState rain_wind_mix in
  exists h el,
    In (ActiveSound.mk wind h 0.3) (activeSounds (snd after)) /\
    audios (fst after) !! h = Some el /\
    HTMLAudioElement.listener el = None.
Proof.
  intros after.
  destruct (apply_mix_tracks_do_not_loop empty_browser initialAudioState rain_wind_mix
              (MixSound.mk "wind" 0.3) wind)
    as (h & el & Htrack & Hel & _ & _ & Hl & _).
  - vm_compute. reflexivity.
  - right. now left.
  - intros [].
  - reflexivity.
  - exists h, el. now repeat split.
Defined.

(** The same sound toggled on by hand gets the listener, so it loops. *)
Example toggled_track_loops :
  HTMLAudioElement.listener
    <$> audios (browser (toggleSound wind fresh_manager)) !! 0
  = Some (Some (Listener.mk wind 1 0.7)).
Proof. reflexivity. Qed.

Lemma apply_mix_saves_witness :
  let m := setVolumeForSound "birds" 0.1 (toggleSound fire fresh_manager) in
  let after := apply_mix (browser m) (state m) rain_wind_mix in
  obj_get (soundStates (snd after)) "rain" = Some (SoundState.mk (0.5 * 100) (Some false)) /\
  obj_get (soundStates (snd after)) "fire" = None /\
  obj_get (soundStates (snd after)) "birds" = obj_get (soundStates (state m)) "birds".
Proof.
  intros m after.
  assert (List.NoDup (mix_ids rain_wind_mix)) as Hnd.
  { vm_compute. repeat constructor; simpl; intuition discriminate. }
  assert (in_range (state m) (APPLY_MIX rain_wind_mix) = true) as Hrange
    by (vm_compute; reflexivity).
  destruct (apply_mix_saves (browser m) (state m) rain_wind_mix Hrange Hnd)
    as (_ & Hnew & _ & Hremoved & Hother & _).
  split; [|split].
  - apply (Hnew (MixSound.mk "rain" 0.5) rain); [now left | | reflexivity].
    vm_compute. intuition discriminate.
  - apply (Hremoved (ActiveSound.mk fire 0 1)); [now left|].
    vm_compute. intuition discriminate.
  - apply Hother; vm_compute; intuition discriminate.
Defined.

#[local] Existing Instance sample_presets.

Lemma apply_mix_idempotent_witness :
  let m := toggles [fire; rain] fresh_manager in
  let once := apply_mix (browser m) (state m) rain_wind_mix in
  snd (apply_mix (fst once) (snd once) rain_wind_mix) = snd once.
Proof.
  intros m once.
  assert (List.NoDup (mix_ids rain_wind_mix)) as Hnd.
  { vm_compute. repeat constructor; simpl; intuition discriminate. }
  assert (in_range (state m) (APPLY_MIX rain_wind_mix) = true) as Hrange
    by (vm_compute; reflexivity).
  exact (proj1 (proj2 (apply_mix_idempotent (browser m) (state m) rain_wind_mix Hrange Hnd))).
Defined.

Lemma applied_mix_is_current_witness :
  let m := toggles [fire; rain] fresh_manager in
  isCurrentMixSaved (snd (apply_mix (browser m) (state m) rain_wind_mix)) m = true.
Proof.
  intros m.
  destruct (applied_mix_is_current (browser m) (state m) rain_wind_mix m)
    as (_ & _ & Hsaved & _).
  - vm_compute. reflexivity.
  - vm_compute. repeat constructor; simpl; intuition discriminate.
  - vm_compute. repeat constructor; simpl; intuition discriminate.
  - discriminate.
  - intros e [<-|[<-|[]]]; (split; [|reflexivity]).
    + left. vm_compute. right. now left.
    + right. discriminate.
  - apply Hsaved. left. now left.
Defined.


Example timer_toast_30 :
  snd (Provider_setTimer T30min fresh_manager)
  = mkToast (Some "Timer Set") "Playback will stop in 30 minutes".
Proof. reflexivity. Qed.

Lemma slider_position_is_restored_witness :
  let set := Provider_updateVolume "rain" (slider 7) fresh_manager in
  obj_get (soundStates (state set)) "rain" = Some (SoundState.mk 7.0000000000000009 None) /\
  activeSounds (state (toggleSound rain set)) = [ActiveSound.mk rain 0 (slider 7 / 100)].
Proof.
  intros set.
  destruct (slider_position_is_restored fresh_manager rain 7) as (_ & _ & Hon).
  - lia.
  - intros [].
  - vm_compute. lia.
  - vm_compute. reflexivity.
  - split; [reflexivity | exact Hon].
Defined.

Lemma Provider_toggleSound_toast_witness :
  snd (Provider_toggleSound (state fresh_manager) rain fresh_manager)
  = mkToast None "Rain is now playing" /\
  isPlaying (state (fst (Provider_toggleSound (state fresh_manager) rain fresh_manager)))
  = false.
Proof.
  destruct (Provider_toggleSound_toast fresh_manager rain) as [_ Hon].
  - constructor.
  - destruct Hon as (Htoast & _ & _ & Hplaying).
    + intros [].
    + vm_compute. lia.
    + vm_compute. reflexivity.
    + split; [exact Htoast | exact Hplaying].
Defined.
